(** * popsicle-cache: a verified model of the cache decision engine

    The development follows the TypeScript source of the plugin: the header
    freshness calculator ([getCacheControl], [getExpiresIn],
    [getLastModifiedExpiration], [getVary]), the policy functions
    ([cacheables], [ttls], [getIds]), the revalidation handlers
    ([handlers]), the body serializers ([serializers]) and the orchestrator
    ([plugin]: [shouldCache], [handle], [forceUpdate]).

    JavaScript numbers are modelled by [number]: exact rationals extended
    with the two infinities and NaN (no rounding).  Strings are Rocq
    strings (one [ascii] per code unit).  Promises are flattened to
    sequential code; every call to the forwarded function and every call to
    the store is recorded in a trace.

    Older pieces of the repository are followed as well: the earlier
    revision of [handle], which sets the [Age] header and stores every
    response again ([earlier]), and, from the JavaScript revisions, the
    file store with its key escaping ([Store], [URI]) and the freshness
    check ([legacy]). *)

From Stdlib Require Import QArith ZArith Ascii String Bool.
From Stdlib Require DecimalPos DecimalFacts.
From Stdlib.Strings Require Import Byte.
From stdpp Require Import gmap strings list.

Local Open Scope Z_scope.


(* ===================================================================== *)
(** * JavaScript numbers *)
(* ===================================================================== *)

Module Num.

Inductive number : Type :=
| Fin (q : Q)
| PInf
| NInf
| NaN.

Definition of_Z (z : Z) : number := Fin (inject_Z z).

Definition neg (a : number) : number :=
  match a with
  | Fin q => Fin (- q)%Q
  | PInf => NInf
  | NInf => PInf
  | NaN => NaN
  end.

(** [a + b] *)
Definition add (a b : number) : number :=
  match a, b with
  | NaN, _ | _, NaN => NaN
  | Fin x, Fin y => Fin (x + y)%Q
  | PInf, NInf | NInf, PInf => NaN
  | PInf, _ | _, PInf => PInf
  | NInf, _ | _, NInf => NInf
  end.

(** [a - b] *)
Definition sub (a b : number) : number := add a (neg b).

(** [a * 1000] and [a / 10], the only products and quotients of the source. *)
Definition mul1000 (a : number) : number :=
  match a with
  | Fin q => Fin (q * 1000)%Q
  | other => other
  end.

Definition div10 (a : number) : number :=
  match a with
  | Fin q => Fin (q / 10)%Q
  | other => other
  end.

(** [a < b]: false as soon as one side is NaN. *)
Definition lt (a b : number) : bool :=
  match a, b with
  | NaN, _ | _, NaN => false
  | Fin x, Fin y => negb (Qle_bool y x)
  | NInf, NInf | PInf, _ | _, NInf => false
  | NInf, _ | _, PInf => true
  end.

(** [a <= b] *)
Definition le (a b : number) : bool :=
  match a, b with
  | NaN, _ | _, NaN => false
  | Fin x, Fin y => Qle_bool x y
  | NInf, _ | _, PInf => true
  | PInf, _ | _, NInf => false
  end.

(** [Math.min(a, b)] *)
Definition min (a b : number) : number :=
  match a, b with
  | NaN, _ | _, NaN => NaN
  | _, _ => if lt b a then b else a
  end.

Definition zero : number := of_Z 0.

(** A number is non-negative when [0 <= a]; NaN is not. *)
Definition nonneg (a : number) : bool := le zero a.

End Num.

Abbreviation number := Num.number.

(* ===================================================================== *)
(** * Characters and the regular expressions of the source *)
(* ===================================================================== *)

Module Regex.

Definition code (c : ascii) : N := N_of_ascii c.

Definition is_digit (c : ascii) : bool :=
  ((48 <=? code c) && (code c <=? 57))%N.

Definition is_upper (c : ascii) : bool :=
  ((65 <=? code c) && (code c <=? 90))%N.

Definition is_lower (c : ascii) : bool :=
  ((97 <=? code c) && (code c <=? 122))%N.

(** [\w] *)
Definition is_word_char (c : ascii) : bool :=
  is_digit c || is_upper c || is_lower c || (code c =? 95)%N.

Definition to_lower (c : ascii) : ascii :=
  if is_upper c then ascii_of_N (code c + 32) else c.

(** [String.prototype.toLowerCase] *)
Fixpoint lower (s : string) : string :=
  match s with
  | EmptyString => EmptyString
  | String c s' => String (to_lower c) (lower s')
  end.

(** The atoms the patterns of the source are made of: a literal
    character, a greedy starred character [c*], the assertion [\b] and the
    capturing group [(\d+)]. *)
Inductive atom : Type :=
| Chr (c : ascii)
| Star (c : ascii)
| WordB
| Digits.

Definition regex : Type := list atom.

Definition chr_eq (icase : bool) (c a : ascii) : bool :=
  if icase then Ascii.eqb (to_lower c) (to_lower a) else Ascii.eqb c a.

Definition is_word (o : option ascii) : bool :=
  match o with Some c => is_word_char c | None => false end.

(** What a successful match leaves: the text of the group, the last
    character before the end of the match, and the unread input. *)
Record matched : Type := Matched {
  group : list ascii;
  before : option ascii;
  rest : list ascii
}.

(** Backtracking match of [re] at the head of [s]; [prev] is the character
    just before [s] in the subject. Greedy atoms try the longest
    repetition first and give characters back one at a time. *)
Fixpoint match_here (icase : bool) (re : regex) {struct re}
  : option ascii -> list ascii -> option matched :=
  match re with
  | [] => fun prev s => Some (Matched [] prev s)
  | Chr c :: re' => fun prev s =>
      match s with
      | a :: s' => if chr_eq icase c a then match_here icase re' (Some a) s' else None
      | [] => None
      end
  | WordB :: re' => fun prev s =>
      if xorb (is_word prev) (is_word (head s))
      then match_here icase re' prev s else None
  | Star c :: re' =>
      fix star (prev : option ascii) (s : list ascii) {struct s} : option matched :=
        let more :=
          match s with
          | a :: s' => if chr_eq icase c a then star (Some a) s' else None
          | [] => None
          end in
        match more with
        | Some m => Some m
        | None => match_here icase re' prev s
        end
  | Digits :: re' => fun _ =>
      fix digits (s : list ascii) {struct s} : option matched :=
        match s with
        | d :: s' =>
            if is_digit d then
              match digits s' with
              | Some m => Some (Matched (d :: group m) (before m) (rest m))
              | None =>
                  match match_here icase re' (Some d) s' with
                  | Some m => Some (Matched [d] (before m) (rest m))
                  | None => None
                  end
              end
            else None
        | [] => None
        end
  end.

(** Leftmost match, scanning the start position from left to right. *)
Fixpoint search (icase : bool) (re : regex) (prev : option ascii) (s : list ascii)
  : option matched :=
  match match_here icase re prev s with
  | Some m => Some m
  | None =>
      match s with
      | [] => None
      | a :: s' => search icase re (Some a) s'
      end
  end.

(** [re.exec(s)], reduced to the text of group 1. *)
Definition exec (icase : bool) (re : regex) (s : string) : option (list ascii) :=
  group <$> search icase re None (list_ascii_of_string s).

(** [re.test(s)] *)
Definition test (icase : bool) (re : regex) (s : string) : bool :=
  bool_decide (is_Some (search icase re None (list_ascii_of_string s))).

(** [s.split(re)] for a pattern without groups: the loop of
    [String.prototype.split], which tries a match at each position [q],
    skips an empty match found at the start [p] of the current piece and
    otherwise closes the piece at [q] and resumes after the match. *)
Fixpoint split_loop (fuel : nat) (re : regex) (prev : option ascii)
  (piece s : list ascii) : list (list ascii) :=
  match fuel with
  | O => [piece ++ s]
  | S fuel' =>
      match s with
      | [] => [piece]
      | a :: s' =>
          match match_here false re prev s with
          | Some m =>
              if bool_decide (piece = []) && (length (rest m) =? length s)%nat
              then split_loop fuel' re (Some a) (piece ++ [a]) s'
              else piece :: split_loop fuel' re (before m) [] (rest m)
          | None => split_loop fuel' re (Some a) (piece ++ [a]) s'
          end
      end
  end.

Definition split (re : regex) (s : string) : list string :=
  match s with
  | EmptyString => match match_here false re None [] with Some _ => [] | None => [s] end
  | _ =>
      let l := list_ascii_of_string s in
      string_of_list_ascii <$> split_loop (2 * length l + 1) re None [] l
  end.

Definition lit (s : string) : regex := Chr <$> list_ascii_of_string s.

Definition digit_value (c : ascii) : Z := Z.of_N (code c - 48).

(** [parseInt(ds, 10)] on a run of decimal digits. *)
Definition parseInt (ds : list ascii) : Z :=
  fold_left (fun acc c => acc * 10 + digit_value c) ds 0.

(** [/\bmax-age=(\d+)\b/i] *)
Definition re_max_age : regex := WordB :: lit "max-age=" ++ [Digits; WordB].
(** [/\bmust-revalidate\b/i] *)
Definition re_must_revalidate : regex := WordB :: lit "must-revalidate" ++ [WordB].
(** [/\bno-cache\b/i] *)
Definition re_no_cache : regex := WordB :: lit "no-cache" ++ [WordB].
(** [/\bimmutable\b/i] *)
Definition re_immutable : regex := WordB :: lit "immutable" ++ [WordB].
(** [/ *, */] *)
Definition re_comma : regex := [Star " "%char; Chr ","%char; Star " "%char].

(** Subjects: runs of digits, and header names written one after the
    other with a comma and a space in between. *)
Definition digit_char (c : ascii) : Prop := is_digit c = true.

(** A character of a header name: neither a comma nor a space. *)
Definition name_char (c : ascii) : Prop :=
  Ascii.eqb " " c = false /\ Ascii.eqb "," c = false.

Definition no_space_ahead (s : list ascii) : Prop :=
  match s with
  | c :: _ => Ascii.eqb " " c = false
  | [] => True
  end.

Fixpoint join (names : list (list ascii)) : list ascii :=
  match names with
  | [] => []
  | [name] => name
  | name :: more => name ++ "," :: " " :: join more
  end%char.

End Regex.

(* ===================================================================== *)
(** * External collaborators *)
(* ===================================================================== *)

(** What the plugin takes from the platform and from the HTTP client
    library: [Date.parse] (with [None] for NaN), the header accessors of
    requests and responses over their [rawHeaders], and the base64 codec of
    [Buffer]. *)
Class Env : Type := {
  Date_parse : string -> option Z;
  header_get : list string -> string -> option string;
  header_set : list string -> string -> string -> list string;
  base64_encode : list byte -> string;
  base64_decode : string -> list byte
}.

(** An [Error] object; [code] is the property the orchestrator inspects. *)
Record Error : Type := mkError {
  code : option string;
  message : string
}.

Module Request.
Record t : Type := mk {
  method : string;
  url : string;
  rawHeaders : list string
}.

Definition get `{Env} (req : t) (name : string) : option string :=
  header_get (rawHeaders req) name.

Definition set `{Env} (req : t) (name value : string) : t :=
  mk (method req) (url req) (header_set (rawHeaders req) name value).
End Request.

Module Response.
Record t (B : Type) : Type := mk {
  url : string;
  body : B;
  rawHeaders : list string;
  status : Z;
  statusText : string
}.
Arguments mk {B}.
Arguments url {B}.
Arguments body {B}.
Arguments rawHeaders {B}.
Arguments status {B}.
Arguments statusText {B}.

Definition get `{Env} {B} (res : t B) (name : string) : option string :=
  header_get (rawHeaders res) name.

(** [~~(this.status / 100)] *)
Definition statusType {B} (res : t B) : Z := Z.quot (status res) 100.

Definition set_body {B} (res : t B) (b : B) : t B :=
  mk (url res) b (rawHeaders res) (status res) (statusText res).
End Response.

(** The singular entry serialized to the cache. *)
Module CacheItem.
Record t : Type := mk {
  body : string;
  rawHeaders : list string;
  url : string;
  status : Z;
  statusText : string;
  varyHeaders : list (string * option string)
}.
End CacheItem.

(** The cached response object: a response ([response]) with the cache
    metadata next to it. *)
Module CachedResponse.
Record t (B : Type) : Type := mk {
  response : Response.t B;
  ttl : number;
  stored : Z;
  varyHeaders : list (string * option string)
}.
Arguments mk {B}.
Arguments response {B}.
Arguments ttl {B}.
Arguments stored {B}.
Arguments varyHeaders {B}.

(** [cache.status = status; cache.statusText = statusText] *)
Definition with_status {B} (cache : t B) (st : Z) (txt : string) : t B :=
  let r := response cache in
  mk (Response.mk (Response.url r) (Response.body r) (Response.rawHeaders r) st txt)
     (ttl cache) (stored cache) (varyHeaders cache).
End CachedResponse.

(** A value of static type [Response]: either a plain response or an
    instance of the subclass [CachedResponse]. *)
Inductive Res (B : Type) : Type :=
| Plain (r : Response.t B)
| Cached (c : CachedResponse.t B).
Arguments Plain {B}.
Arguments Cached {B}.

Definition as_response {B} (r : Res B) : Response.t B :=
  match r with
  | Plain r => r
  | Cached c => CachedResponse.response c
  end.

(** What the store returns on a hit. *)
Record StoredResult : Type := mkStored {
  item : CacheItem.t;
  result_ttl : number;
  result_stored : Z
}.

(** Truthiness of [string | undefined] and of [boolean | undefined]. *)
Definition truthy (o : option string) : bool :=
  match o with
  | Some s => negb (String.eqb s "")
  | None => false
  end.

Definition istrue (o : option bool) : bool :=
  match o with Some b => b | None => false end.

(* ===================================================================== *)
(** * Header freshness calculator *)
(* ===================================================================== *)

Record CacheControl : Type := mkCacheControl {
  maxAge : option number;
  noCache : option bool;
  immutable : option bool;
  mustRevalidate : option bool
}.

Section Freshness.
Context `{Env} {B : Type}.

(** Get the response max age. *)
Definition getCacheControl (res : Response.t B) : CacheControl :=
  let cacheControl := Response.get res "Cache-Control" in
  let age :=
    if truthy cacheControl
    then cc ← cacheControl; Regex.exec true Regex.re_max_age cc
    else None in
  let mustRevalidate :=
    if truthy cacheControl
    then Regex.test true Regex.re_must_revalidate <$> cacheControl else None in
  let noCache :=
    if truthy cacheControl
    then Regex.test true Regex.re_no_cache <$> cacheControl else None in
  let immutable :=
    if truthy cacheControl
    then Regex.test true Regex.re_immutable <$> cacheControl else None in
  let maxAge :=
    match age with
    | Some digits => Some (Num.mul1000 (Num.of_Z (Regex.parseInt digits)))
    | None => None
    end in
  mkCacheControl maxAge noCache immutable mustRevalidate.

(** [Date.parse(s)] as a number. *)
Definition parse_date (s : string) : number :=
  match Date_parse s with
  | Some ms => Num.of_Z ms
  | None => Num.NaN
  end.

(** Get the response expiration. *)
Definition getExpiresIn (res : Response.t B) : option number :=
  let expires := Response.get res "Expires" in
  let date := Response.get res "Date" in
  match expires, date with
  | Some e, Some d =>
      if negb (truthy expires) || negb (truthy date) then None
      else Some (Num.sub (parse_date e) (parse_date d))
  | _, _ => None
  end.

(** Get the last modified expiration. *)
Definition getLastModifiedExpiration (res : Response.t B) : option number :=
  let lastModified := Response.get res "Last-Modified" in
  let date := Response.get res "Date" in
  match lastModified, date with
  | Some l, Some d =>
      if negb (truthy lastModified) || negb (truthy date) then None
      else Some (Num.div10 (Num.sub (parse_date d) (parse_date l)))
  | _, _ => None
  end.

(** Retrieve the [Vary] headers. *)
Definition getVary (res : Response.t B) : list string :=
  let vary := Response.get res "Vary" in
  match vary with
  | Some v => if truthy vary then Regex.split Regex.re_comma v else []
  | None => []
  end.

End Freshness.

(* ===================================================================== *)
(** * Policy functions *)
(* ===================================================================== *)

Definition Ttl (B : Type) : Type := Request.t -> Response.t B -> number.
Definition Cacheable (B : Type) : Type := Request.t -> Response.t B -> bool.

(** The default methods for deciding if a response should be cached. *)
Module cacheables.
Definition standard {B} : Cacheable B :=
  fun req res => (Response.status res =? 200) && String.eqb (Request.method req) "GET".

Definition always {B} : Cacheable B := fun _ _ => true.
End cacheables.

(** The default methods for deciding cache TTL. *)
Module ttls.
Section Ttls.
Context `{Env} {B : Type}.

(** The value of the local [freshness] when the function returns. *)
Definition freshness (res : Response.t B) : number :=
  let cacheControl := getCacheControl res in
  let expiresIn := getExpiresIn res in
  let lastModified := getLastModifiedExpiration res in
  match maxAge cacheControl with
  | Some m => m
  | None =>
      match expiresIn with
      | Some e => e
      | None =>
          match lastModified with
          | Some l => l
          | None => Num.zero
          end
      end
  end.

Definition standard (minTtl maxTtl : number) : Ttl B :=
  fun req res => Num.add minTtl (Num.min maxTtl (freshness res)).

Definition forever : Ttl B := fun _ _ => Num.PInf.
End Ttls.
End ttls.

(* ===================================================================== *)
(** * The world around one request *)
(* ===================================================================== *)

(** Calls that leave the plugin: the forwarded function [next], the store's
    [set], and the error sink [catchCacheError]. *)
Inductive Event : Type :=
| Forwarded (req : Request.t)
| StoreSet (id : string) (entry : CacheItem.t) (ttl : number)
| Sunk (err : Error).

(** The store engine (a key-value store with upsert semantics, whose reads
    and writes may be failing), the clock, and the calls made so far. *)
Record World : Type := mkWorld {
  store : gmap string StoredResult;
  now : Z;
  read_fault : option Error;
  write_fault : option Error;
  trace : list Event
}.

Definition log (e : Event) (w : World) : World :=
  mkWorld (store w) (now w) (read_fault w) (write_fault w) (trace w ++ [e]).

(** Promise-returning code: a computation over the world that resolves
    ([inr]) or rejects ([inl]). *)
Definition M (A : Type) : Type := World -> (Error + A) * World.

Definition ret {A} (a : A) : M A := fun w => (inr a, w).

Definition throw {A} (e : Error) : M A := fun w => (inl e, w).

Definition bind {A C} (m : M A) (k : A -> M C) : M C :=
  fun w =>
    match m w with
    | (inr a, w') => k a w'
    | (inl e, w') => (inl e, w')
    end.

Notation "x <- m ;; k" := (bind m (fun x => k))
  (at level 100, m at next level, right associativity).
Notation "m ;;; k" := (bind m (fun _ => k))
  (at level 100, right associativity).

(** A synchronous result lifted to a promise. *)
Definition lift {A} (r : Error + A) : M A :=
  match r with
  | inl e => throw e
  | inr a => ret a
  end.

(** [catchCacheError(err)] *)
Definition catchCacheError (err : Error) : M unit :=
  fun w => (inr tt, log (Sunk err) w).

(** [cache.get(id)] *)
Definition cache_get (id : string) : M (option StoredResult) :=
  fun w =>
    match read_fault w with
    | Some e => (inl e, w)
    | None => (inr (store w !! id), w)
    end.

(** [cache.set(id, item, ttl)] *)
Definition cache_set (id : string) (entry : CacheItem.t) (ttl : number) : M unit :=
  fun w =>
    let w := log (StoreSet id entry ttl) w in
    match write_fault w with
    | Some e => (inl e, w)
    | None =>
        (inr tt,
         mkWorld (<[id := mkStored entry ttl (now w)]> (store w)) (now w)
                 (read_fault w) (write_fault w) (trace w))
    end.

(** [p.catch(catchCacheError)] *)
Definition catching (m : M unit) : M unit :=
  fun w =>
    match m w with
    | (inl e, w') => catchCacheError e w'
    | ok => ok
    end.

(** The forwarded function: what the network answers to a request. *)
Definition Next (B : Type) : Type := Request.t -> Error + Response.t B.

(** [await next()]: the request object, as it is at the time of the call,
    goes out. *)
Definition forward {B} (next : Next B) (req : Request.t) : M (Response.t B) :=
  fun w => (next req, log (Forwarded req) w).

(** A handler works on two mutable objects, the request and the cached
    response; an outcome is their state when the handler is done together
    with what the handler resolved or rejected with. *)
Record Outcome (B : Type) : Type := mkOutcome {
  out_req : Request.t;
  out_cache : CachedResponse.t B;
  out_result : Error + Res B
}.
Arguments mkOutcome {B}.
Arguments out_req {B}.
Arguments out_cache {B}.
Arguments out_result {B}.

(** Implementation interface for handling cached responses. *)
Definition Handler (B : Type) : Type :=
  Request.t -> CachedResponse.t B -> Next B -> World -> Outcome B * World.

(* ===================================================================== *)
(** * Revalidation handlers *)
(* ===================================================================== *)

Module handlers.
Section Handlers.
Context `{Env} {B : Type}.

(** The value of the local [novalidate] after the first [if]. *)
Definition novalidate (now : number) (cache : CachedResponse.t B) : bool :=
  let cacheControl := getCacheControl (CachedResponse.response cache) in
  let expiresIn := getExpiresIn (CachedResponse.response cache) in
  let lastModified := getLastModifiedExpiration (CachedResponse.response cache) in
  let stored := Num.of_Z (CachedResponse.stored cache) in
  let novalidate := istrue (immutable cacheControl) || negb (istrue (noCache cacheControl)) in
  if novalidate then
    match maxAge cacheControl with
    | Some maxAge =>
        Num.lt now (Num.add stored maxAge) && negb (istrue (mustRevalidate cacheControl))
    | None =>
        match expiresIn with
        | Some expiresIn => Num.lt now (Num.add stored expiresIn)
        | None =>
            match lastModified with
            | Some lastModified => Num.lt now (Num.add stored lastModified)
            | None => negb (istrue (mustRevalidate cacheControl))
            end
        end
    end
  else novalidate.

(** The callback given to [cache.varyHeaders.some]. *)
Definition disqualifies (req : Request.t) (pair : string * option string) : bool :=
  let (key, value) := pair in
  match value with
  | None => bool_decide (is_Some (Request.get req key))
  | Some value => negb (bool_decide (Request.get req key = Some value))
  end.

Definition varies (req : Request.t) (cache : CachedResponse.t B) : bool :=
  existsb (disqualifies req) (CachedResponse.varyHeaders cache).

(** The two conditional headers set before the forwarded call. *)
Definition conditional (req : Request.t) (cache : CachedResponse.t B) : Request.t :=
  let etag := Response.get (CachedResponse.response cache) "ETag" in
  let req :=
    match etag with
    | Some e => if truthy etag then Request.set req "If-None-Match" e else req
    | None => req
    end in
  let modified := Response.get (CachedResponse.response cache) "Last-Modified" in
  match modified with
  | Some m => if truthy modified then Request.set req "If-Modified-Since" m else req
  | None => req
  end.

Definition standard : Handler B :=
  fun req cache next w =>
    let now := Num.of_Z (now w) in
    if novalidate now cache && negb (varies req cache) then
      (mkOutcome req cache (inr (Cached cache)), w)
    else
      let req := conditional req cache in
      match forward next req w with
      | (inl err, w) => (mkOutcome req cache (inl err), w)
      | (inr res, w) =>
          (* Return the cached response in case of "304 Not Modified". *)
          if Response.status res =? 304 then
            (* But override the cached response status from server. *)
            let cache :=
              CachedResponse.with_status cache (Response.status res)
                                         (Response.statusText res) in
            (mkOutcome req cache (inr (Cached cache)), w)
          else
            (mkOutcome req cache (inr (Plain res)), w)
      end.

Definition always : Handler B :=
  fun req cache next w => (mkOutcome req cache (inr (Cached cache)), w).

(** The earlier revision of the standard handler, which merges the
    cached response into the forwarded one. *)
Definition merge_into (res : Response.t B) (cache : CachedResponse.t B) : Response.t B :=
  let c := CachedResponse.response cache in
  Response.mk (Response.url c) (Response.body c) (Response.rawHeaders c)
              (Response.status res) (Response.statusText res).

Definition standard_merging : Handler B :=
  fun req cache next w =>
    let now := Num.of_Z (now w) in
    if novalidate now cache && negb (varies req cache) then
      (mkOutcome req cache (inr (Plain (CachedResponse.response cache))), w)
    else
      let req := conditional req cache in
      match forward next req w with
      | (inl err, w) => (mkOutcome req cache (inl err), w)
      | (inr res, w) =>
          (* Merge the response with the cached response. *)
          if Response.status res =? 304 then
            (mkOutcome req cache (inr (Plain (merge_into res cache))), w)
          else
            (mkOutcome req cache (inr (Plain res)), w)
      end.
End Handlers.
End handlers.

(* ===================================================================== *)
(** * Serializers: the interface *)
(* ===================================================================== *)

(** The arguments the completion callback [cache(err, value)] is called
    with: [cache(err)], [cache(null, null)] or [cache(null, contents)]. *)
Record Callback : Type := mkCallback {
  cb_err : option Error;
  cb_value : option string
}.

(** Interface for implementing the parser/serializer of response bodies.
    [stringify] either throws or returns the body to put on the response
    together with the call it makes (at once or when the stream is over) to
    its completion callback. *)
Record Serializer (B : Type) : Type := mkSerializer {
  name : string;
  parse : string -> Error + B;
  stringify : B -> Error + (B * Callback)
}.
Arguments mkSerializer {B}.
Arguments name {B}.
Arguments parse {B}.
Arguments stringify {B}.

Definition GetId (B : Type) : Type := Serializer B -> Request.t -> string.

(** The default approaches to cache ids. *)
Module getIds.
Definition standard {B} : GetId B :=
  fun serializer req =>
    name serializer +:+ "~" +:+ Request.method req +:+ "~" +:+ Request.url req.
End getIds.

(* ===================================================================== *)
(** * The plugin *)
(* ===================================================================== *)

(** Cache configuration options. The serializer fixes the type of bodies,
    so it is always given (the source falls back on
    [serializers.standard()]); the store engine is the [store] of the
    world and the error sink is recorded as [Sunk]. *)
Module Options.
Record t (B : Type) : Type := mk {
  cacheable : option (Cacheable B);
  ttl : option (Ttl B);
  serializer : Serializer B;
  handler : option (Handler B);
  staleFallback : option bool;
  getId : option (GetId B)
}.
Arguments mk {B}.
Arguments cacheable {B}.
Arguments ttl {B}.
Arguments serializer {B}.
Arguments handler {B}.
Arguments staleFallback {B}.
Arguments getId {B}.
End Options.

Module plugin.
Section Plugin.
Context `{Env} {B : Type} (options : Options.t B).

Definition serializer : Serializer B := Options.serializer options.
Definition cacheable : Cacheable B :=
  default cacheables.standard (Options.cacheable options).
Definition ttl : Ttl B :=
  default (ttls.standard (Num.of_Z 0) (Num.of_Z (1000 * 60 * 60 * 24 * 365)))
          (Options.ttl options).
Definition handler : Handler B :=
  default handlers.standard (Options.handler options).
Definition getId : GetId B :=
  default getIds.standard (Options.getId options).
(** [options.staleFallback !== false] *)
Definition staleFallback : bool :=
  negb (bool_decide (Options.staleFallback options = Some false)).

(** The entry written for [res] once the serializer has produced
    [contents]. *)
Definition make_item (contents : string) (res : Response.t B) : CacheItem.t :=
  CacheItem.mk contents
               (Response.rawHeaders res)
               (Response.url res)
               (Response.status res)
               (Response.statusText res)
               ((fun key => (key, Response.get res key)) <$> getVary res).

(** The local function [setCache] of [shouldCache]. *)
Definition setCache (id : string) (req : Request.t) (res : Response.t B)
  (cb : Callback) : M unit :=
  match cb_err cb with
  | Some err => catchCacheError err
  | None =>
      match cb_value cb with
      (* Skip the cache. *)
      | None => ret tt
      | Some contents =>
          catching (cache_set id (make_item contents res) (ttl req res))
      end
  end.

(** Attempt to persist the response into the cache. The world that
    comes out is the one in which the serializer has called back:
    [waitForCache] only decides whether the promise waits for that call.
    The entry and the built-in TTL policies read the headers, the url and
    the status of the response, never its body. *)
Definition shouldCache (id : string) (req : Request.t) (res : Response.t B)
  : M (Response.t B) :=
  if negb (cacheable req res) then ret res
  else
    match stringify serializer (Response.body res) with
    | inl err => throw err
    | inr (body, cb) =>
        let res := Response.set_body res body in
        setCache id req res cb ;;;
        ret res
    end.

(** The cached response instance built from a store hit. *)
Definition reconstruct (result : StoredResult) (body : B) : CachedResponse.t B :=
  let item := item result in
  CachedResponse.mk
    (Response.mk (CacheItem.url item) body (CacheItem.rawHeaders item)
                 (CacheItem.status item) (CacheItem.statusText item))
    (result_ttl result) (result_stored result) (CacheItem.varyHeaders item).

Definition handle (req : Request.t) (next : Next B) : M (Res B) :=
  let id := getId serializer req in
  result <- cache_get id ;;
  match result with
  | None =>
      res <- forward next req ;;
      res <- shouldCache id req res ;;
      ret (Plain res)
  | Some result =>
      body <- lift (parse serializer (CacheItem.body (item result))) ;;
      (* Return a cached response instance. *)
      let response := reconstruct result body in
      fun w =>
        let (out, w) := handler req response next w in
        let response := out_cache out in
        let req := out_req out in
        match out_result out with
        | inl err =>
            if bool_decide (code err = Some "EUNAVAILABLE") && staleFallback
            then (inr (Cached response), w)
            else (inl err, w)
        | inr res =>
            (* Skip the cache attempt when using stale data. *)
            if staleFallback && (Response.statusType (as_response res) =? 5)
            then (inr (Cached response), w)
            else
              match res with
              (* Skip the "should cache" step when using a cached response. *)
              | Cached c => (inr (Cached c), w)
              | Plain r => (res <- shouldCache id req r ;; ret (Plain res)) w
              end
        end
  end.

Definition forceUpdate (req : Request.t) (next : Next B) : M (Response.t B) :=
  res <- forward next req ;;
  shouldCache (getId serializer req) req res.

End Plugin.
End plugin.

(* ===================================================================== *)
(** * Built-in response body handlers: the stream serializer *)
(* ===================================================================== *)

(** A readable stream is what it will emit: its ['data'] chunks, then
    ['end'] or ['error']. *)
Inductive Ending : Type :=
| Ends
| Breaks (err : Error).

Record Readable : Type := mkReadable {
  chunks : list (list byte);
  ending : Ending
}.

(** A body handed to the stream serializer: a stream, or a value without a
    [pipe] method. *)
Inductive StreamBody : Type :=
| Stream (r : Readable)
| NotAStream.

Module stream.
Section Stream.
Context `{Env} (maxBufferLength : Z).

(** [new Buffer(value, 'base64')] pushed once, then the end. *)
Definition parse (value : string) : Error + StreamBody :=
  inr (Stream (mkReadable [base64_decode value] Ends)).

(** The state of the closure: [length] and [strings]. *)
Definition start : Z * list (list byte) := (0, []).

(** The ['data'] listener. *)
Definition on_data (state : Z * list (list byte)) (chunk : list byte)
  : Z * list (list byte) :=
  let '(length, strings) := state in
  if maxBufferLength <? length then (length, strings)
  else
    let length := length + Z.of_nat (List.length chunk) in
    if length <=? maxBufferLength
    then (length, strings ++ [chunk])
    else (length, strings).

(** The ['error'] listener. *)
Definition on_error (err : Error) : Callback := mkCallback (Some err) None.

(** The ['end'] listener. *)
Definition on_end (state : Z * list (list byte)) : Callback :=
  let '(length, strings) := state in
  mkCallback None
             (if maxBufferLength <? length then None
              else Some (base64_encode (concat strings))).

Definition type_error : Error :=
  mkError None "The stream serializer only works for readable `stream` instances".

Definition stringify (stream : StreamBody) : Error + (StreamBody * Callback) :=
  match stream with
  | NotAStream => inl type_error
  | Stream r =>
      let state := fold_left on_data (chunks r) start in
      let cb :=
        match ending r with
        | Ends => on_end state
        | Breaks err => on_error err
        end in
      (* [stream.pipe(s)]: the pass-through carries what the stream emits *)
      inr (Stream r, cb)
  end.
End Stream.
End stream.

(* ===================================================================== *)
(** * JSON: the codec behind the standard serializer *)
(* ===================================================================== *)

(** Body values of the standard serializer are JSON data: [null], booleans,
    integral numbers, strings, arrays, and objects given by their
    properties in enumeration order. [stringify] is [JSON.stringify] with
    one argument and [parse] is [JSON.parse] on that data. *)
Module JSON.
Local Open Scope char_scope.
Local Open Scope list_scope.

#[warnings="-register-all"]
Inductive value : Type :=
| Null
| Bool (b : bool)
| Number (n : Z)
| Str (s : string)
| Array (elements : list value)
| Object (members : list (string * value)).

Definition chars (s : string) : list ascii := list_ascii_of_string s.

(** The quotation mark and the reverse solidus. *)
Definition dquote : ascii := ascii_of_N 34.
Definition backslash : ascii := ascii_of_N 92.

(** ** Printing *)

Definition hex_digit (n : N) : ascii :=
  if (n <? 10)%N then ascii_of_N (48 + n) else ascii_of_N (87 + n).

(** [QuoteJSONString], one code unit at a time. *)
Definition escape (c : ascii) : list ascii :=
  let n := Regex.code c in
  if (n =? 34)%N then [backslash; dquote]
  else if (n =? 92)%N then [backslash; backslash]
  else if (n =? 8)%N then [backslash; "b"]
  else if (n =? 9)%N then [backslash; "t"]
  else if (n =? 10)%N then [backslash; "n"]
  else if (n =? 12)%N then [backslash; "f"]
  else if (n =? 13)%N then [backslash; "r"]
  else if (n <? 32)%N then [backslash; "u"; "0"; "0"; hex_digit (n / 16); hex_digit (n mod 16)]
  else [c].

Definition quote (s : string) : list ascii :=
  dquote :: flat_map escape (chars s) ++ [dquote].

Fixpoint digits_of_uint (d : Decimal.uint) : list ascii :=
  match d with
  | Decimal.Nil => []
  | Decimal.D0 d => "0" :: digits_of_uint d
  | Decimal.D1 d => "1" :: digits_of_uint d
  | Decimal.D2 d => "2" :: digits_of_uint d
  | Decimal.D3 d => "3" :: digits_of_uint d
  | Decimal.D4 d => "4" :: digits_of_uint d
  | Decimal.D5 d => "5" :: digits_of_uint d
  | Decimal.D6 d => "6" :: digits_of_uint d
  | Decimal.D7 d => "7" :: digits_of_uint d
  | Decimal.D8 d => "8" :: digits_of_uint d
  | Decimal.D9 d => "9" :: digits_of_uint d
  end.

(** [Number::toString] on an integer. *)
Definition print_number (n : Z) : list ascii :=
  match n with
  | Z0 => ["0"]
  | Zpos p => digits_of_uint (Pos.to_uint p)
  | Zneg p => "-" :: digits_of_uint (Pos.to_uint p)
  end.

Fixpoint print (v : value) : list ascii :=
  match v with
  | Null => chars "null"
  | Bool true => chars "true"
  | Bool false => chars "false"
  | Number n => print_number n
  | Str s => quote s
  | Array elements =>
      "[" ::
      match elements with
      | [] => []
      | x :: more => print x ++ flat_map (fun y => "," :: print y) more
      end ++ ["]"]
  | Object members =>
      "{" ::
      match members with
      | [] => []
      | (k, x) :: more =>
          quote k ++ ":" :: print x
          ++ flat_map (fun m => "," :: quote (fst m) ++ ":" :: print (snd m)) more
      end ++ ["}"]
  end.

(** [JSON.stringify(value)] *)
Definition stringify (v : value) : string := string_of_list_ascii (print v).

(** ** Parsing *)

Definition is_ws (c : ascii) : bool :=
  let n := Regex.code c in
  (n =? 32)%N || (n =? 9)%N || (n =? 10)%N || (n =? 13)%N.

Fixpoint skip_ws (s : list ascii) : list ascii :=
  match s with
  | c :: r => if is_ws c then skip_ws r else s
  | [] => []
  end.

Definition hex_value (c : ascii) : option N :=
  let n := Regex.code c in
  if Regex.is_digit c then Some (n - 48)%N
  else if ((97 <=? n) && (n <=? 102))%N then Some (n - 87)%N
  else if ((65 <=? n) && (n <=? 70))%N then Some (n - 55)%N
  else None.

(** The code unit of [\uXXXX]; code units above 255 are outside the
    strings of the model. *)
Definition unicode_escape (a b c d : ascii) : option ascii :=
  match hex_value a, hex_value b, hex_value c, hex_value d with
  | Some a, Some b, Some c, Some d =>
      let n := (((a * 16 + b) * 16 + c) * 16 + d)%N in
      if (n <? 256)%N then Some (ascii_of_N n) else None
  | _, _, _, _ => None
  end.

(** The characters of a string literal after its opening quote, up to
    and including the closing quote. *)
Fixpoint parse_chars (s : list ascii) : option (list ascii * list ascii) :=
  let cons (c : ascii) (r : option (list ascii * list ascii)) :=
    match r with
    | Some (cs, r') => Some (c :: cs, r')
    | None => None
    end in
  match s with
  | [] => None
  | c :: r =>
      if (Regex.code c =? 34)%N then Some ([], r)
      else if (Regex.code c =? 92)%N then
        match r with
        | e :: r' =>
            if (Regex.code e =? 34)%N then cons dquote (parse_chars r')
            else if (Regex.code e =? 92)%N then cons backslash (parse_chars r')
            else if (Regex.code e =? 47)%N then cons "/" (parse_chars r')
            else if (Regex.code e =? 98)%N then cons (ascii_of_N 8) (parse_chars r')
            else if (Regex.code e =? 102)%N then cons (ascii_of_N 12) (parse_chars r')
            else if (Regex.code e =? 110)%N then cons (ascii_of_N 10) (parse_chars r')
            else if (Regex.code e =? 114)%N then cons (ascii_of_N 13) (parse_chars r')
            else if (Regex.code e =? 116)%N then cons (ascii_of_N 9) (parse_chars r')
            else if (Regex.code e =? 117)%N then
              match r' with
              | h1 :: h2 :: h3 :: h4 :: r'' =>
                  match unicode_escape h1 h2 h3 h4 with
                  | Some u => cons u (parse_chars r'')
                  | None => None
                  end
              | _ => None
              end
            else None
        | [] => None
        end
      else if (Regex.code c <? 32)%N then None
      else cons c (parse_chars r)
  end.

Fixpoint span_digits (s : list ascii) : list ascii * list ascii :=
  match s with
  | c :: r =>
      if Regex.is_digit c
      then let (ds, r') := span_digits r in (c :: ds, r')
      else ([], s)
  | [] => ([], [])
  end.

(** What may follow a number: anything but the start of a fraction or
    an exponent, which the integral numbers of the model do not have. *)
Definition ends_number (s : list ascii) : bool :=
  match s with
  | c :: _ => negb ((Regex.code c =? 46)%N || (Regex.code c =? 101)%N || (Regex.code c =? 69)%N)
  | [] => true
  end.

Definition parse_unsigned (s : list ascii) : option (Z * list ascii) :=
  let (ds, r) := span_digits s in
  match ds with
  | [] => None
  | d :: more =>
      if (Regex.code d =? 48)%N && negb (bool_decide (more = [])) then None
      else if ends_number r then Some (Regex.parseInt ds, r) else None
  end.

Definition parse_number (s : list ascii) : option (value * list ascii) :=
  match s with
  | c :: r =>
      if (Regex.code c =? 45)%N
      then match parse_unsigned r with
           | Some (n, r') => Some (Number (- n), r')
           | None => None
           end
      else match parse_unsigned s with
           | Some (n, r') => Some (Number n, r')
           | None => None
           end
  | [] => None
  end.

(** The literal [lit] at the head of [s]. *)
Fixpoint expect (lit s : list ascii) : option (list ascii) :=
  match lit, s with
  | [], _ => Some s
  | l :: lit', c :: s' => if Ascii.eqb l c then expect lit' s' else None
  | _ :: _, [] => None
  end.

(** [CreateDataProperty] on the properties read so far: a repeated key
    keeps its place and takes the new value. *)
Fixpoint obj_set (members : list (string * value)) (k : string) (v : value)
  : list (string * value) :=
  match members with
  | [] => [(k, v)]
  | (k', v') :: l => if String.eqb k' k then (k', v) :: l else (k', v') :: obj_set l k v
  end.

Fixpoint parse_value (fuel : nat) (s : list ascii) {struct fuel}
  : option (value * list ascii) :=
  match fuel with
  | O => None
  | S fuel =>
      match skip_ws s with
      | [] => None
      | c :: r =>
          let n := Regex.code c in
          if (n =? 110)%N then
            match expect (chars "ull") r with Some r' => Some (Null, r') | None => None end
          else if (n =? 116)%N then
            match expect (chars "rue") r with Some r' => Some (Bool true, r') | None => None end
          else if (n =? 102)%N then
            match expect (chars "alse") r with Some r' => Some (Bool false, r') | None => None end
          else if (n =? 34)%N then
            match parse_chars r with
            | Some (cs, r') => Some (Str (string_of_list_ascii cs), r')
            | None => None
            end
          else if (n =? 91)%N then
            match skip_ws r with
            | c' :: r' =>
                if (Regex.code c' =? 93)%N then Some (Array [], r')
                else parse_elements fuel [] r
            | [] => None
            end
          else if (n =? 123)%N then
            match skip_ws r with
            | c' :: r' =>
                if (Regex.code c' =? 125)%N then Some (Object [], r')
                else parse_members fuel [] r
            | [] => None
            end
          else parse_number (c :: r)
      end
  end
with parse_elements (fuel : nat) (acc : list value) (s : list ascii) {struct fuel}
  : option (value * list ascii) :=
  match fuel with
  | O => None
  | S fuel =>
      match parse_value fuel s with
      | Some (v, r) =>
          match skip_ws r with
          | c :: r' =>
              if (Regex.code c =? 44)%N then parse_elements fuel (acc ++ [v]) r'
              else if (Regex.code c =? 93)%N then Some (Array (acc ++ [v]), r')
              else None
          | [] => None
          end
      | None => None
      end
  end
with parse_members (fuel : nat) (acc : list (string * value)) (s : list ascii)
  {struct fuel} : option (value * list ascii) :=
  match fuel with
  | O => None
  | S fuel =>
      match skip_ws s with
      | q :: r =>
          if (Regex.code q =? 34)%N then
            match parse_chars r with
            | Some (k, r) =>
                match skip_ws r with
                | colon :: r =>
                    if (Regex.code colon =? 58)%N then
                      match parse_value fuel r with
                      | Some (v, r) =>
                          let acc := obj_set acc (string_of_list_ascii k) v in
                          match skip_ws r with
                          | c :: r' =>
                              if (Regex.code c =? 44)%N then parse_members fuel acc r'
                              else if (Regex.code c =? 125)%N then Some (Object acc, r')
                              else None
                          | [] => None
                          end
                      | None => None
                      end
                    else None
                | [] => None
                end
            | None => None
            end
          else None
      | [] => None
      end
  end.

Definition syntax_error : Error := mkError None "Unexpected token in JSON".

(** [JSON.parse(text)]: one value, then nothing but white space. The
    recursion is bounded by the length of the text. *)
Definition parse (text : string) : Error + value :=
  let s := chars text in
  match parse_value (S (length s)) s with
  | Some (v, r) =>
      match skip_ws r with
      | [] => inr v
      | _ :: _ => inl syntax_error
      end
  | None => inl syntax_error
  end.

(** Objects a program can hold: no property occurs twice. *)
Fixpoint wf (v : value) : Prop :=
  match v with
  | Array elements =>
      (fix all (l : list value) : Prop :=
         match l with
         | [] => True
         | x :: l' => wf x /\ all l'
         end) elements
  | Object members =>
      NoDup (fst <$> members) /\
      (fix all (l : list (string * value)) : Prop :=
         match l with
         | [] => True
         | (_, x) :: l' => wf x /\ all l'
         end) members
  | _ => True
  end.

(** ** Reading back what was printed *)

(** What may follow a printed value: no digit and no start of a
    fraction or an exponent. *)
Definition delimited (rest : list ascii) : bool :=
  match rest with
  | c :: _ => negb (Regex.is_digit c) && ends_number rest
  | [] => true
  end.

(** The fuel a value needs. *)
Fixpoint size (v : value) : nat :=
  match v with
  | Array l => S (sum_list ((fun x => S (size x)) <$> l))
  | Object l => S (sum_list ((fun m => S (size (snd m))) <$> l))
  | _ => 1
  end.

(** A character a value can start with: no white space, and neither of
    the closing brackets. *)
Definition opens (c : ascii) : Prop :=
  is_ws c = false /\ (Regex.code c =? 93)%N = false /\ (Regex.code c =? 125)%N = false.

(** The printed value, followed by [rest], is read back as the value and
    [rest]. *)
Definition reads_back (v : value) : Prop :=
  wf v ->
  forall fuel rest,
    (size v <= fuel)%nat -> delimited rest = true ->
    parse_value fuel (print v ++ rest) = Some (v, rest).

End JSON.

(** Built-in response body handlers. *)
Module serializers.
Definition standard : Serializer JSON.value :=
  mkSerializer "json"
               (fun value => JSON.parse value)
               (fun value => inr (value, mkCallback None (Some (JSON.stringify value)))).

Definition stream `{Env} (maxBufferLength : Z) : Serializer StreamBody :=
  mkSerializer "stream" stream.parse (stream.stringify maxBufferLength).

(** [maxBufferLength: number = 1000 * 1000] *)
Definition stream_default `{Env} : Serializer StreamBody := stream (1000 * 1000).
End serializers.

(* ===================================================================== *)
(** * The earlier revision of the orchestrator *)
(* ===================================================================== *)

(** The earlier revision of [handle]: the cached response is a plain
    response on which the [Age] header is set, the default handler is the
    one that merges into the forwarded response, and whatever the handler
    resolves to goes through [shouldCache]. *)
Module earlier.
Section Earlier.
Context `{Env} {B : Type} (options : Options.t B).

Definition handler : Handler B :=
  default handlers.standard_merging (Options.handler options).

(** [String(Math.floor((Date.now() - stored) / 1000))] *)
Definition age (now stored : Z) : string :=
  string_of_list_ascii (JSON.print_number ((now - stored) / 1000)).

(** The response built from a store hit, after [response.set('Age', ...)],
    with the cache metadata the handler is given next to it. *)
Definition aged (now : Z) (result : StoredResult) (body : B) : CachedResponse.t B :=
  let item := item result in
  CachedResponse.mk
    (Response.mk (CacheItem.url item) body
                 (header_set (CacheItem.rawHeaders item) "Age"
                             (age now (result_stored result)))
                 (CacheItem.status item) (CacheItem.statusText item))
    (result_ttl result) (result_stored result) (CacheItem.varyHeaders item).

Definition handle (req : Request.t) (next : Next B) : M (Response.t B) :=
  let id := plugin.getId options (plugin.serializer options) req in
  result <- cache_get id ;;
  match result with
  | None =>
      res <- forward next req ;;
      plugin.shouldCache options id req res
  | Some result =>
      body <- lift (parse (plugin.serializer options) (CacheItem.body (item result))) ;;
      fun w =>
        (* Return a cached response instance, with the age of the response set. *)
        let cache := aged (now w) result body in
        let (out, w) := handler req cache next w in
        let response := CachedResponse.response (out_cache out) in
        let req := out_req out in
        match out_result out with
        | inl err =>
            if bool_decide (code err = Some "EUNAVAILABLE") && plugin.staleFallback options
            then (inr response, w)
            else (inl err, w)
        | inr res =>
            let res := as_response res in
            if (Response.statusType res =? 5) && plugin.staleFallback options
            then (inr response, w)
            else plugin.shouldCache options id req res w
        end
  end.
End Earlier.
End earlier.

(* ===================================================================== *)
(** * The file store of the JavaScript revisions *)
(* ===================================================================== *)

(** [encodeURIComponent] on strings of code units below 256, and the file
    names the store derives from its keys. *)
Module URI.
Local Open Scope char_scope.
Local Open Scope list_scope.

(** The characters [encodeURIComponent] leaves as they are. *)
Definition unreserved (c : ascii) : bool :=
  Regex.is_upper c || Regex.is_lower c || Regex.is_digit c
  || bool_decide (c ∈ list_ascii_of_string "-_.!~*'()").

Definition hex_upper (n : N) : ascii :=
  if (n <? 10)%N then ascii_of_N (48 + n) else ascii_of_N (55 + n).

(** The octets of the UTF-8 encoding of a code unit below 256. *)
Definition utf8 (c : ascii) : list N :=
  let n := Regex.code c in
  if (n <? 128)%N then [n] else [(192 + n / 64)%N; (128 + n mod 64)%N].

Definition percent (octet : N) : list ascii :=
  ["%"; hex_upper (octet / 16); hex_upper (octet mod 16)].

Definition encode_unit (c : ascii) : list ascii :=
  if unreserved c then [c] else flat_map percent (utf8 c).

Definition encodeURIComponent (s : string) : string :=
  string_of_list_ascii (flat_map encode_unit (list_ascii_of_string s)).

(** [s.replace(/%/g, '_')] *)
Definition replace_percent (s : string) : string :=
  string_of_list_ascii
    ((fun c => if Ascii.eqb c "%" then "_" else c) <$> list_ascii_of_string s).

(** Convert a url into a cache-able path. *)
Definition escapeKey (key : string) : string :=
  replace_percent (encodeURIComponent key).
End URI.

(** In-memory and file store. The keys are urls; the memory cache is the
    object [memoryCache] used as a map from keys to raw contents. *)
Module Store.

(** The file system under the store: the files by path, and the failures
    [mkdirp], [fs.readFile] and [fs.writeFile] may report. *)
Record Disk : Type := mkDisk {
  files : gmap string string;
  mkdirp_fault : option Error;
  readFile_fault : option Error;
  writeFile_fault : option Error
}.

Definition enoent : Error := mkError (Some "ENOENT") "no such file or directory".

(** [fs.readFile(path, 'utf8', cb)] *)
Definition readFile (d : Disk) (path : string) : Error + string :=
  match readFile_fault d with
  | Some err => inl err
  | None =>
      match files d !! path with
      | Some contents => inr contents
      | None => inl enoent
      end
  end.

Record t (V : Type) : Type := mk {
  path : string;
  stringify : V -> Error + string;
  parse : string -> Error + V;
  memoryCache : gmap string string
}.
Arguments mk {V}.
Arguments path {V}.
Arguments stringify {V}.
Arguments parse {V}.
Arguments memoryCache {V}.

(** What happens to the callback of [get]: [cb(null, value)], [cb(null)],
    [cb(err)], or an exception raised in the deferred call. *)
Inductive Got (V : Type) : Type :=
| Value (value : V)
| Nothing
| Failed (err : Error)
| Uncaught (err : Error).
Arguments Value {V}.
Arguments Nothing {V}.
Arguments Failed {V}.
Arguments Uncaught {V}.

Section Store.
Context {V : Type}.
(** [path.join] *)
Variable join : string -> string -> string.

(** [memoryCache[key] = contents] *)
Definition remember (s : t V) (key contents : string) : t V :=
  mk (path s) (stringify s) (parse s) (<[key := contents]> (memoryCache s)).

(** The error with its message prefixed by the operation and the quoted
    key. *)
Definition explain (prefix key : string) (error : Error) : Error :=
  mkError (code error)
          (prefix +:+ String JSON.dquote key +:+ String JSON.dquote ": "
           +:+ message error).

(** Get the path to storage. *)
Definition getPath (s : t V) (key : string) : string :=
  join (path s) (URI.escapeKey key).

(** Get data from the filesystem, or memory cache. *)
Definition get (s : t V) (d : Disk) (key : string) : Got V * t V :=
  match memoryCache s !! key with
  | Some contents =>
      match parse s contents with
      | inr value => (Value value, s)
      | inl error => (Uncaught error, s)
      end
  | None =>
      match readFile d (getPath s key) with
      | inl err =>
          if bool_decide (code err = Some "ENOENT") then (Nothing, s)
          else (Failed err, s)
      | inr contents =>
          match parse s contents with
          | inl error => (Failed (explain "Failed to parse " key error), s)
          | inr value =>
              (* Cache it as the raw string. *)
              (Value value, remember s key contents)
          end
      end
  end.

(** Set data into the filesystem and memory cache; [None] is the call
    [cb(null)]. *)
Definition set (s : t V) (d : Disk) (key : string) (value : V)
  : option Error * t V * Disk :=
  let path := getPath s key in
  match mkdirp_fault d with
  | Some err => (Some err, s, d)
  | None =>
      match stringify s value with
      | inl error => (Some (explain "Failed to stringify " key error), s, d)
      | inr contents =>
          let s := remember s key contents in
          match writeFile_fault d with
          | Some err => (Some err, s, d)
          | None =>
              (None, s,
               mkDisk (<[path := contents]> (files d)) (mkdirp_fault d)
                      (readFile_fault d) (writeFile_fault d))
          end
      end
  end.

(** A store started over the same directory: its memory cache is empty. *)
Definition restarted (s : t V) : t V := mk (path s) (stringify s) (parse s) ∅.
End Store.
End Store.

(** The freshness check of the JavaScript revisions, over the headers
    object of the stored data: its properties in the order of
    [Object.keys]. *)
Module legacy.
Section Legacy.
Context `{Env}.

(** Get case-insensitive property from object. *)
Fixpoint getProperty (obj : list (string * string)) (property : string) : option string :=
  match obj with
  | [] => None
  | (key, value) :: more =>
      if String.eqb (Regex.lower key) property then Some value
      else getProperty more property
  end.

(** A value of type [string | undefined] where a string is expected. *)
Definition to_string (value : option string) : string := default "undefined" value.

(** Parse cache control for max age header; [None] is [null]. *)
Definition parseMaxAge (cacheControl : option string) : option Z :=
  Regex.parseInt <$> Regex.exec true Regex.re_max_age (to_string cacheControl).

(** [Date.parse(value)] *)
Definition date_of (value : option string) : number :=
  match value with
  | Some s => parse_date s
  | None => Num.NaN
  end.

(** Get max age from headers. *)
Definition getMaxAge (headers : list (string * string)) : number :=
  let cacheControl := getProperty headers "cache-control" in
  let date := getProperty headers "date" in
  Num.add (date_of date)
          (Num.mul1000 (match parseMaxAge cacheControl with
                        | Some age => Num.of_Z age
                        | None => Num.zero
                        end)).

(** Check if response data is still fresh; [now] is [Date.now()]. *)
Definition isFresh (headers : list (string * string)) (now : Z) : bool :=
  Num.lt (Num.of_Z now) (date_of (getProperty headers "expires"))
  || Num.lt (Num.of_Z now) (getMaxAge headers).
End Legacy.
End legacy.


(* ===================================================================== *)
(** * An environment to run the model in *)
(* ===================================================================== *)

(** The collaborators as Node.js and the HTTP client provide them: header
    access over the flat [rawHeaders] array with names compared in lower
    case, [Date.parse] on the fixed-length HTTP date format, and the base64
    codec of [Buffer]. *)
Module Node.
Local Open Scope list_scope.

Fixpoint get (rawHeaders : list string) (name : string) : option string :=
  match rawHeaders with
  | key :: value :: more =>
      if String.eqb (Regex.lower key) (Regex.lower name) then Some value
      else get more name
  | _ => None
  end.

Fixpoint remove (rawHeaders : list string) (name : string) : list string :=
  match rawHeaders with
  | key :: value :: more =>
      if String.eqb (Regex.lower key) (Regex.lower name) then remove more name
      else key :: value :: remove more name
  | other => other
  end.

Definition set (rawHeaders : list string) (name value : string) : list string :=
  remove rawHeaders name ++ [name; value].

Definition digit (c : ascii) : option Z :=
  if Regex.is_digit c then Some (Regex.digit_value c) else None.

Definition number2 (a b : ascii) : option Z :=
  match digit a, digit b with
  | Some a, Some b => Some (a * 10 + b)
  | _, _ => None
  end.

Definition month (name : string) : option Z :=
  list_find (String.eqb name)
            ["Jan"; "Feb"; "Mar"; "Apr"; "May"; "Jun";
             "Jul"; "Aug"; "Sep"; "Oct"; "Nov"; "Dec"]%string
  ≫= fun found => Some (Z.of_nat (fst found) + 1).

(** Days from 1970-01-01 to the given day of the civil calendar. *)
Definition days_from_civil (y m d : Z) : Z :=
  let y := if m <=? 2 then y - 1 else y in
  let era := y / 400 in
  let yoe := y - era * 400 in
  let doy := (153 * (if 2 <? m then m - 3 else m + 9) + 2) / 5 + d - 1 in
  let doe := yoe * 365 + yoe / 4 - yoe / 100 + doy in
  era * 146097 + doe - 719468.

(** [Date.parse] on a date such as [Sun, 06 Nov 1994 08:49:37 GMT];
    NaN on any other text. *)
Definition parse_date (s : string) : option Z :=
  match list_ascii_of_string s with
  | [_; _; _; comma; sp1; d1; d2; sp2; m1; m2; m3; sp3; y1; y2; y3; y4; sp4;
     h1; h2; c1; i1; i2; c2; s1; s2; sp5; g; m; t] =>
      if bool_decide ([comma; sp1; sp2; sp3; sp4; c1; c2; sp5; g; m; t]
                      = list_ascii_of_string ", " ++ list_ascii_of_string "   ::"
                        ++ list_ascii_of_string " GMT")
      then
        day ← number2 d1 d2;
        mon ← month (string_of_list_ascii [m1; m2; m3]);
        yhi ← number2 y1 y2;
        ylo ← number2 y3 y4;
        hour ← number2 h1 h2;
        min ← number2 i1 i2;
        sec ← number2 s1 s2;
        Some ((((days_from_civil (yhi * 100 + ylo) mon day * 24 + hour) * 60 + min) * 60
               + sec) * 1000)
      else None
  | _ => None
  end.

Definition alphabet : list ascii :=
  list_ascii_of_string
    "ABCDEFGHIJKLMNOPQRSTUVWXYZabcdefghijklmnopqrstuvwxyz0123456789+/".

Definition sextet (n : N) : ascii := nth (N.to_nat n) alphabet "="%char.

Fixpoint encode (bytes : list N) : list ascii :=
  match bytes with
  | a :: b :: c :: more =>
      let n := ((a * 256 + b) * 256 + c)%N in
      sextet (n / 262144) :: sextet (n / 4096 mod 64) :: sextet (n / 64 mod 64)
             :: sextet (n mod 64) :: encode more
  | [a; b] =>
      let n := ((a * 256 + b) * 256)%N in
      [sextet (n / 262144); sextet (n / 4096 mod 64); sextet (n / 64 mod 64); "="%char]
  | [a] =>
      let n := (a * 65536)%N in
      [sextet (n / 262144); sextet (n / 4096 mod 64); "="%char; "="%char]
  | [] => []
  end.

Definition base64_encode (buffer : list byte) : string :=
  string_of_list_ascii (encode (Byte.to_N <$> buffer)).

Definition unsextet (c : ascii) : option N :=
  N.of_nat ∘ fst <$> list_find (Ascii.eqb c) alphabet.

(** The sextets of the text up to the first padding character;
    characters outside the alphabet are skipped. *)
Fixpoint sextets (s : list ascii) : list N :=
  match s with
  | c :: r =>
      if Ascii.eqb c "="%char then []
      else match unsextet c with
           | Some n => n :: sextets r
           | None => sextets r
           end
  | [] => []
  end.

Definition byte_of (n : N) : byte :=
  default Byte.x00 (Byte.of_N (n mod 256)).

Fixpoint decode (l : list N) : list byte :=
  match l with
  | a :: b :: c :: d :: more =>
      let n := (((a * 64 + b) * 64 + c) * 64 + d)%N in
      byte_of (n / 65536) :: byte_of (n / 256) :: byte_of n :: decode more
  | [a; b; c] =>
      let n := (((a * 64 + b) * 64 + c) * 64)%N in
      [byte_of (n / 65536); byte_of (n / 256)]
  | [a; b] =>
      let n := ((a * 64 + b) * 4096)%N in
      [byte_of (n / 65536)]
  | _ => []
  end.

Definition base64_decode (text : string) : list byte :=
  decode (sextets (list_ascii_of_string text)).

Definition env : Env :=
  Build_Env parse_date get set base64_encode base64_decode.

End Node.

(* ===================================================================== *)
(** * Vocabulary of the specification *)
(* ===================================================================== *)

Section States.
Context `{Env} {B : Type}.

(** [FRESH_HIT]: the handler resolves to the cached response itself and
    nothing leaves the plugin. *)
Definition FRESH_HIT (req : Request.t) (cache : CachedResponse.t B)
  (next : Next B) (w : World) : Prop :=
  handlers.standard req cache next w = (mkOutcome req cache (inr (Cached cache)), w).

(** [REVALIDATE]: the request goes out once, with the validators of the
    cached response set on it. *)
Definition REVALIDATE (req : Request.t) (cache : CachedResponse.t B)
  (next : Next B) (w : World) : Prop :=
  exists cache' result,
    handlers.standard req cache next w
    = (mkOutcome (handlers.conditional req cache) cache' result,
       log (Forwarded (handlers.conditional req cache)) w).

(** The response carries [Cache-Control: max-age=N], without [no-cache]
    and without [must-revalidate]. *)
Definition carries_max_age (res : Response.t B) (N : Z) : Prop :=
  exists cc digits,
    Response.get res "Cache-Control" = Some cc /\
    Regex.exec true Regex.re_max_age cc = Some digits /\
    Regex.parseInt digits = N /\
    Regex.test true Regex.re_no_cache cc = false /\
    Regex.test true Regex.re_must_revalidate cc = false.

(** The entry is fresh by its age alone. *)
Definition time_fresh (cache : CachedResponse.t B) (w : World) : Prop :=
  handlers.novalidate (Num.of_Z (now w)) cache = true.

(** The store answers the lookup of [handle] with [result], whose body
    the serializer reads as [body]. *)
Definition lookup (options : Options.t B) (req : Request.t) (w : World)
  (result : StoredResult) (body : B) : Prop :=
  read_fault w = None /\
  store w !! plugin.getId options (plugin.serializer options) req = Some result /\
  parse (plugin.serializer options) (CacheItem.body (item result)) = inr body.

(** The pair is one the standard cacheable policy declines. *)
Definition declined (req : Request.t) (res : Response.t B) : Prop :=
  Response.status res <> 200 \/ Request.method req <> "GET".

(** Nothing the network answers to this request can be cached: the method
    is not GET, or no answer has status 200. *)
Definition never_cacheable (req : Request.t) (next : Next B) : Prop :=
  Request.method req <> "GET" \/
  forall q res, next q = inr res -> Response.status res <> 200.

(** The vary pairs of a response: each name of its [Vary] header, split at
    the commas, with the response's own value for that header. *)
Definition vary_pairs (res : Response.t B) : list (string * option string) :=
  (fun key => (key, header_get (Response.rawHeaders res) key))
    <$> match header_get (Response.rawHeaders res) "Vary" with
        | Some v => if String.eqb v "" then [] else Regex.split Regex.re_comma v
        | None => []
        end.

End States.

(** The store writes among the calls of a trace. *)
Definition is_write (e : Event) : bool :=
  match e with StoreSet _ _ _ => true | _ => false end.

Definition writes (tr : list Event) : list Event := List.filter is_write tr.

(** Total number of bytes of a run of chunks. *)
Definition total (chunks : list (list byte)) : Z := Z.of_nat (length (concat chunks)).

(** What the closure of the stream serializer holds after the chunks
    [seen], under the cap [L]: everything, as long as the cap is
    respected; afterwards a length above the cap. *)
Definition buffering (L : Z) (seen : list (list byte)) (state : Z * list (list byte))
  : Prop :=
  if total seen <=? L then state = (total seen, seen) else L < fst state.

(** The same world, with the clock at [t]. *)
Definition at_time (t : Z) (w : World) : World :=
  mkWorld (store w) t (read_fault w) (write_fault w) (trace w).

(** A match read in lower case. *)
Definition lower_matched (m : Regex.matched) : Regex.matched :=
  Regex.Matched (Regex.to_lower <$> Regex.group m) (Regex.to_lower <$> Regex.before m)
                (Regex.to_lower <$> Regex.rest m).

(** A separator of a [Vary] header: a comma with [a] spaces before it and
    [b] spaces after. *)
Definition separator (a b : nat) : list ascii :=
  (repeat " " a ++ "," :: repeat " " b)%char.

(** A [Vary] header: a first name and, for each further name, the spaces
    around the comma that precedes it. *)
Definition separated (first : list ascii) (more : list (nat * nat * list ascii))
  : list ascii :=
  first ++ flat_map (fun item => separator (fst (fst item)) (snd (fst item)) ++ snd item) more.

(** A header name: not empty, and made of characters other than the space
    and the comma. *)
Definition header_name (name : list ascii) : Prop :=
  name <> [] /\ Forall Regex.name_char name.

(** The text has no tilde. *)
Fixpoint tilde_free (s : string) : bool :=
  match s with
  | EmptyString => true
  | String c s' => negb (Ascii.eqb c "~") && tilde_free s'
  end.

(** What the closure of the stream serializer may hold after the chunks
    [seen], under the cap [L]: all of them while the cap is respected, and
    from then on chunks that came first and fit under the cap together. *)
Definition retaining (L : Z) (seen : list (list byte)) (state : Z * list (list byte))
  : Prop :=
  (fst state <= L /\ fst state = total seen /\ snd state = seen) \/
  (L < fst state /\ total (snd state) <= Z.max 0 L /\ snd state `prefix_of` seen).

(* ===================================================================== *)
(** * Scenarios *)
(* ===================================================================== *)

(** The plugin as the test suite builds it: every option at its default,
    bodies as JSON values. *)
Definition default_options : Options.t JSON.value :=
  Options.mk None None serializers.standard None None None.

Definition get_request (url : string) : Request.t := Request.mk "GET" url [].

Definition world_at (now : Z) (entries : list (string * StoredResult)) : World :=
  mkWorld (list_to_map entries) now None None [].

(** An entry stored at [stored] for a response [200 OK] whose body is the
    string [success]. *)
Definition stored_success (url : string) (rawHeaders : list string)
  (vary : list (string * option string)) (stored : Z) : StoredResult :=
  mkStored (CacheItem.mk (JSON.stringify (JSON.Str "success")) rawHeaders url 200 "OK" vary)
           (Num.of_Z 300000) stored.

Definition cached_success (url : string) (rawHeaders : list string)
  (vary : list (string * option string)) (stored : Z) : CachedResponse.t JSON.value :=
  plugin.reconstruct (stored_success url rawHeaders vary stored) (JSON.Str "success").

Definition max_age_300 : CachedResponse.t JSON.value :=
  cached_success "http://example.com/cache-control"
                 ["Content-Type"; "application/json"; "Cache-Control"; "public, max-age=300"]
                 [] 1000000.

(** The network is unreachable. *)
Definition offline : Next JSON.value :=
  fun _ => inl (mkError (Some "EUNAVAILABLE") "Unable to connect").

(** The network answers every request with [res]. *)
Definition answers (res : Response.t JSON.value) : Next JSON.value := fun _ => inr res.

Definition etag_entry : StoredResult :=
  stored_success "http://example.com/etag"
                 ["Cache-Control"; "no-cache, max-age=100"; "ETag"; "123abc"] [] 1000000.

Definition etag_cached : CachedResponse.t JSON.value :=
  plugin.reconstruct etag_entry (JSON.Str "success").

Definition etag_world (now : Z) : World :=
  world_at now [("json~GET~http://example.com/etag", etag_entry)].

Definition not_modified : Response.t JSON.value :=
  Response.mk "http://example.com/etag" JSON.Null [] 304 "Not Modified".

Definition bad_gateway : Response.t JSON.value :=
  Response.mk "http://example.com/etag" JSON.Null [] 502 "Bad Gateway".

Definition not_found : Response.t JSON.value :=
  Response.mk "http://example.com/no" JSON.Null [] 404 "Not Found".

(** A fresh entry recorded with the given vary pairs. *)
Definition gzip_entry (vary : list (string * option string)) : CachedResponse.t JSON.value :=
  cached_success "http://example.com/vary"
                 ["Cache-Control"; "max-age=300"; "Vary"; "Accept-Encoding"] vary 1000000.

(** A response that had expired long before it was sent. *)
Definition expired_response : Response.t JSON.value :=
  Response.mk "http://example.com/expired" (JSON.Str "success")
              ["Date"; "Tue, 03 Nov 2026 00:00:00 GMT";
               "Expires"; "Thu, 01 Jan 1970 00:00:00 GMT"]
              200 "OK".

Definition one_year : number := Num.of_Z (1000 * 60 * 60 * 24 * 365).

(** The eleven bytes of [hello world], in two chunks. *)
Definition eleven_bytes : Readable :=
  mkReadable [[x68; x65; x6c; x6c; x6f; x20]; [x77; x6f; x72; x6c; x64]]%byte Ends.

Definition sample_body : JSON.value :=
  JSON.Object [("success", JSON.Bool true);
               ("items", JSON.Array [JSON.Number (-12); JSON.Str "a b"; JSON.Null])].

Definition varying_response : Response.t JSON.value :=
  Response.mk "http://example.com/vary" (JSON.Str "success")
              ["Cache-Control"; "max-age=300"; "Vary"; "Accept-Encoding , Content-Type";
               "Content-Type"; "text/plain"]
              200 "OK".

Definition gzip_request : Request.t :=
  Request.mk "GET" "http://example.com/vary" ["Accept-Encoding"; "gzip"].

(** The entry [shouldCache] writes for [varying_response]. *)
Definition varying_entry : CacheItem.t :=
  plugin.make_item (H := Node.env) (JSON.stringify (JSON.Str "success")) varying_response.

(** The entry of the cache-control scenario, and a store that holds it. *)
Definition cache_control_entry : StoredResult :=
  stored_success "http://example.com/cache-control"
                 ["Content-Type"; "application/json"; "Cache-Control"; "public, max-age=300"]
                 [] 1000000.

Definition cache_control_world (now : Z) : World :=
  world_at now [("json~GET~http://example.com/cache-control", cache_control_entry)].

(** The plugin with one option set. *)
Definition always_from_cache : Options.t JSON.value :=
  Options.mk None None serializers.standard (Some handlers.always) None None.

Definition without_fallback : Options.t JSON.value :=
  Options.mk None None serializers.standard None (Some false) None.

Definition caching_everything : Options.t JSON.value :=
  Options.mk (Some cacheables.always) None serializers.standard None None None.

(** The connection breaks. *)
Definition connection_reset : Next JSON.value :=
  fun _ => inl (mkError (Some "ECONNRESET") "socket hang up").

(** A store whose entry for the etag scenario does not hold JSON. *)
Definition corrupt_entry : StoredResult :=
  mkStored (CacheItem.mk "{" [] "http://example.com/etag" 200 "OK" []) (Num.of_Z 0) 1000000.

Definition corrupt_world : World :=
  world_at 1000000 [("json~GET~http://example.com/etag", corrupt_entry)].

(** A store that refuses every write. *)
Definition disconnected : Error := mkError None "disconnected".

Definition failing_writes (now : Z) : World :=
  mkWorld ∅ now None (Some disconnected) [].

Definition success_response (url : string) (rawHeaders : list string)
  : Response.t JSON.value :=
  Response.mk url (JSON.Str "success") rawHeaders 200 "OK".

(** An entry stored at 1000000 with the given headers and no vary pair. *)
Definition entry_with (rawHeaders : list string) : CachedResponse.t JSON.value :=
  cached_success "http://example.com/headers" rawHeaders [] 1000000.

Definition post_request (url : string) : Request.t := Request.mk "POST" url [].

(** A stream that breaks after its first chunk. *)
Definition broken_stream : Readable :=
  mkReadable [[x68; x65]]%byte (Breaks (mkError (Some "ECONNRESET") "aborted")).

Definition stream_options : Options.t StreamBody :=
  Options.mk None None (serializers.stream (H := Node.env) 10) None None None.

(** [new Store({ path: '/tmp/popsicle-cache' })], an empty disk, and
    [path.join] on a directory and a file name. *)
Definition tmp_store : Store.t JSON.value :=
  Store.mk "/tmp/popsicle-cache" (fun value => inr (JSON.stringify value)) JSON.parse ∅.

Definition empty_disk : Store.Disk := Store.mkDisk ∅ None None None.

Definition read_only_disk : Store.Disk :=
  Store.mkDisk ∅ None None (Some (mkError (Some "EROFS") "read-only file system")).

Definition join_name (directory name : string) : string := directory +:+ "/" +:+ name.

(** The headers of stored data, as the JavaScript revisions keep them. *)
Definition dated_headers : list (string * string) :=
  [("Date", "Tue, 03 Nov 2026 00:00:00 GMT"); ("Cache-Control", "public, max-age=300")]%string.

(* ===================================================================== *)
(** * Numbers *)
(* ===================================================================== *)

Module NumFacts.

Lemma lt_of_Z (a b : Z) : Num.lt (Num.of_Z a) (Num.of_Z b) = (a <? b).
Proof.
  unfold Num.lt, Num.of_Z.
  destruct (Qle_bool (inject_Z b) (inject_Z a)) eqn:E; simpl.
  - apply Qle_bool_iff in E. rewrite <- Zle_Qle in E. symmetry. apply Z.ltb_ge. exact E.
  - symmetry. apply Z.ltb_lt.
    destruct (Z.lt_ge_cases a b) as [Hlt | Hge]; [exact Hlt |].
    exfalso. rewrite Zle_Qle in Hge. apply Qle_bool_iff in Hge. congruence.
Qed.

Lemma lt_stored_max_age (now stored n : Z) :
  Num.lt (Num.of_Z now) (Num.add (Num.of_Z stored) (Num.mul1000 (Num.of_Z n)))
  = (now <? stored + n * 1000).
Proof.
  rewrite <- lt_of_Z. unfold Num.lt, Num.add, Num.mul1000, Num.of_Z.
  f_equal. apply Qleb_comp; [| reflexivity].
  rewrite !inject_Z_plus, !inject_Z_mult. reflexivity.
Qed.

Lemma nonneg_Fin q : Num.nonneg (Num.Fin q) = true <-> (0 <= q)%Q.
Proof. unfold Num.nonneg, Num.le, Num.zero, Num.of_Z. apply Qle_bool_iff. Qed.

Lemma nonneg_add a b :
  Num.nonneg a = true -> Num.nonneg b = true -> Num.nonneg (Num.add a b) = true.
Proof.
  destruct a as [x | | |], b as [y | | |]; try discriminate; try reflexivity.
  rewrite !nonneg_Fin. simpl. rewrite nonneg_Fin. intros Hx Hy.
  replace 0%Q with (0 + 0)%Q by reflexivity. by apply Qplus_le_compat.
Qed.

Lemma nonneg_min a b :
  Num.nonneg a = true -> Num.nonneg b = true -> Num.nonneg (Num.min a b) = true.
Proof.
  intros Ha Hb.
  destruct a as [x | | |], b as [y | | |]; try discriminate; try reflexivity;
    unfold Num.min; destruct (Num.lt _ _); assumption.
Qed.

Lemma nonneg_of_Z z : Num.nonneg (Num.of_Z z) = true <-> 0 <= z.
Proof.
  unfold Num.of_Z. rewrite nonneg_Fin. change 0%Q with (inject_Z 0).
  by rewrite <- Zle_Qle.
Qed.

Lemma nonneg_mul1000 z : 0 <= z -> Num.nonneg (Num.mul1000 (Num.of_Z z)) = true.
Proof.
  intros Hz. unfold Num.mul1000, Num.of_Z. rewrite nonneg_Fin.
  apply Qmult_le_0_compat; [| discriminate].
  change 0%Q with (inject_Z 0). by rewrite <- Zle_Qle.
Qed.
End NumFacts.

Lemma parseInt_nonneg ds : 0 <= Regex.parseInt ds.
Proof.
  unfold Regex.parseInt.
  assert (Hgen : forall acc, 0 <= acc ->
            0 <= fold_left (fun acc c => acc * 10 + Regex.digit_value c) ds acc).
  { induction ds as [| d ds IH]; intros acc Hacc; [exact Hacc |].
    simpl. apply IH. unfold Regex.digit_value. lia. }
  by apply Hgen.
Qed.

(* ===================================================================== *)
(** * The regular expressions *)
(* ===================================================================== *)

Module RegexFacts.
Import Regex.

Lemma digit_is_word (d : ascii) : digit_char d -> is_word_char d = true.
Proof. unfold digit_char, is_word_char. intros ->. reflexivity. Qed.

Lemma digit_not_letter (c d : ascii) :
  digit_char d -> is_digit (to_lower c) = false -> chr_eq true c d = false.
Proof.
  unfold digit_char, chr_eq. intros Hd Hc.
  assert (Hlow : to_lower d = d).
  { unfold to_lower. replace (is_upper d) with false; [reflexivity |].
    destruct d as [[] [] [] [] [] [] [] []]; try discriminate; reflexivity. }
  rewrite Hlow. apply not_true_iff_false. intros E. apply Ascii.eqb_eq in E.
  congruence.
Qed.

(** A run of digits up to the end of the subject is the group of [(\d+)\b]. *)
Lemma digits_to_the_end (ds : list ascii) (prev : option ascii) :
  ds <> [] -> Forall digit_char ds ->
  exists m, match_here true [Digits; WordB] prev ds = Some m /\ group m = ds.
Proof.
  intros Hne Hds. revert prev. induction Hds as [| d ds Hd Hds IH]; [congruence |].
  intros prev. cbn [match_here]. rewrite Hd.
  destruct ds as [| d' ds].
  - cbn. rewrite (digit_is_word d Hd). cbn. eauto.
  - destruct (IH ltac:(discriminate) (Some d)) as (m & Hm & Hg).
    cbn [match_here] in Hm. rewrite Hm. cbn. eexists. split; [reflexivity |].
    cbn. by rewrite Hg.
Qed.

(** A word that starts with a letter is not found in a run of digits. *)
Lemma not_in_digits (c : ascii) (re : regex) (ds : list ascii) (prev : option ascii) :
  is_digit (to_lower c) = false -> Forall digit_char ds ->
  search true (WordB :: Chr c :: re) prev ds = None.
Proof.
  intros Hc Hds. revert prev. induction Hds as [| d ds Hd _ IH]; intros prev.
  - cbn. by destruct (xorb _ _).
  - cbn [search match_here]. rewrite (digit_not_letter c d Hd Hc).
    destruct (xorb _ _); apply IH.
Qed.

Lemma search_skip (icase : bool) (re : regex) (prev : option ascii) (a : ascii)
  (s : list ascii) :
  match_here icase re prev (a :: s) = None ->
  search icase re prev (a :: s) = search icase re (Some a) s.
Proof. intros Hm. cbn [search]. by rewrite Hm. Qed.

Lemma search_here (icase : bool) (re : regex) (prev : option ascii) (s : list ascii)
  (m : matched) :
  match_here icase re prev s = Some m -> search icase re prev s = Some m.
Proof. intros Hm. destruct s; cbn [search]; by rewrite Hm. Qed.

(** The header [max-age=N] alone: the group is the digits of [N] and none of
    the other directives is found. *)
Lemma max_age_literal (ds : list ascii) :
  ds <> [] -> Forall digit_char ds ->
  let cc := string_of_list_ascii (list_ascii_of_string "max-age=" ++ ds) in
  exec true re_max_age cc = Some ds /\
  test true re_no_cache cc = false /\
  test true re_must_revalidate cc = false /\
  test true re_immutable cc = false.
Proof.
  intros Hne Hds cc. unfold exec, test, cc.
  rewrite list_ascii_of_string_of_list_ascii.
  assert (Hprefix : match_here true re_max_age None (list_ascii_of_string "max-age=" ++ ds)
                    = match_here true [Digits; WordB] (Some "="%char) ds).
  { vm_compute. reflexivity. }
  repeat split.
  - destruct (digits_to_the_end ds (Some "="%char) Hne Hds) as (m & Hm & Hg).
    rewrite (search_here _ _ _ _ m) by (by rewrite Hprefix).
    cbn. by rewrite Hg.
  - cbn [list_ascii_of_string app].
    do 8 (rewrite search_skip by (vm_compute; reflexivity)).
    rewrite (not_in_digits "n" (lit "o-cache" ++ [WordB]) ds _ eq_refl Hds). reflexivity.
  - cbn [list_ascii_of_string app].
    do 8 (rewrite search_skip by (vm_compute; reflexivity)).
    rewrite (not_in_digits "m" (lit "ust-revalidate" ++ [WordB]) ds _ eq_refl Hds). reflexivity.
  - cbn [list_ascii_of_string app].
    do 8 (rewrite search_skip by (vm_compute; reflexivity)).
    rewrite (not_in_digits "i" (lit "mmutable" ++ [WordB]) ds _ eq_refl Hds). reflexivity.
Qed.
(* --------------------------------------------------------------------- *)
(** ** Splitting at the commas *)

Lemma no_comma_here (prev : option ascii) (c : ascii) (s : list ascii) :
  name_char c -> match_here false re_comma prev (c :: s) = None.
Proof.
  intros [Hs Hc]. unfold re_comma. cbn [match_here]. unfold chr_eq.
  rewrite Hs. cbn [match_here]. unfold chr_eq. by rewrite Hc.
Qed.

Lemma comma_here (prev : option ascii) (s : list ascii) :
  no_space_ahead s ->
  match_here false re_comma prev ("," :: " " :: s)%char
  = Some (Matched [] (Some " "%char) s).
Proof.
  intros Hs. unfold re_comma. cbn [match_here]. unfold chr_eq.
  change (Ascii.eqb " " ",")%char with false. cbn iota.
  cbn [match_here]. unfold chr_eq.
  change (Ascii.eqb "," ",")%char with true. cbn iota.
  change (Ascii.eqb " " " ")%char with true. cbn iota.
  destruct s as [| c s]; [reflexivity |].
  unfold no_space_ahead in Hs. rewrite Hs. reflexivity.
Qed.

Lemma split_loop_name (name : list ascii) :
  Forall name_char name ->
  forall fuel prev piece s,
    (length name <= fuel)%nat ->
    exists prev',
      split_loop (fuel + 1) re_comma prev piece (name ++ s)
      = split_loop (fuel - length name + 1) re_comma prev' (piece ++ name) s.
Proof.
  induction 1 as [| c name Hc _ IH]; intros fuel prev piece s Hfuel.
  - exists prev. simpl. by rewrite Nat.sub_0_r, app_nil_r.
  - destruct fuel as [| fuel]; [simpl in Hfuel; lia |].
    simpl in Hfuel.
    destruct (IH fuel (Some c) (piece ++ [c]) s ltac:(lia)) as (prev' & E).
    exists prev'. rewrite <- app_assoc in E. simpl in E.
    replace (S fuel + 1)%nat with (S (fuel + 1)) by lia.
    cbn [split_loop app]. rewrite (no_comma_here prev c _ Hc).
    exact E.
Qed.

Lemma no_space_ahead_join (names : list (list ascii)) :
  Forall (Forall name_char) names -> no_space_ahead (join names).
Proof.
  intros Hall. destruct Hall as [| name more Hname Hmore]; [exact I |].
  destruct Hname as [| c name [Hc _] _].
  - destruct more as [| name' more]; [exact I | reflexivity].
  - destruct more; exact Hc.
Qed.

Lemma split_loop_join (names : list (list ascii)) :
  Forall (Forall name_char) names -> names <> [] ->
  forall fuel prev,
    (length (join names) <= fuel)%nat ->
    split_loop (fuel + 1) re_comma prev [] (join names) = names.
Proof.
  induction 1 as [| name more Hname Hmore IH]; [congruence |].
  intros _ fuel prev Hfuel.
  destruct more as [| name' more].
  - simpl in *.
    destruct (split_loop_name name Hname fuel prev [] [] Hfuel) as (prev' & E).
    rewrite app_nil_r in E. rewrite E.
    replace (fuel - length name + 1)%nat with (S (fuel - length name)) by lia.
    reflexivity.
  - change (join (name :: name' :: more))
      with (name ++ "," :: " " :: join (name' :: more))%char in *.
    rewrite length_app in Hfuel. cbn [length] in Hfuel.
    destruct (split_loop_name name Hname fuel prev []
                ("," :: " " :: join (name' :: more))%char ltac:(lia)) as (prev' & E).
    rewrite E. cbn [app].
    replace (fuel - length name + 1)%nat with (S (fuel - length name - 2 + 1 + 1)) by lia.
    cbn [split_loop].
    rewrite comma_here by (by apply no_space_ahead_join).
    cbn [rest before length].
    replace (bool_decide (name = []) && _) with false.
    + f_equal. apply IH; [discriminate | lia].
    + symmetry. apply andb_false_iff. right. apply Nat.eqb_neq. lia.
Qed.

(** Names written one after the other, separated by a comma and a space,
    are what [split] gives back. *)
Lemma split_join (names : list (list ascii)) :
  Forall (Forall name_char) names -> join names <> [] ->
  split re_comma (string_of_list_ascii (join names)) = string_of_list_ascii <$> names.
Proof.
  intros Hall Hne. unfold split.
  destruct (string_of_list_ascii (join names)) eqn:E.
  - apply (f_equal list_ascii_of_string) in E.
    rewrite list_ascii_of_string_of_list_ascii in E. simpl in E. congruence.
  - rewrite <- E, list_ascii_of_string_of_list_ascii.
    f_equal. apply split_loop_join; [exact Hall | | lia].
    intros ->. by apply Hne.
Qed.
End RegexFacts.

(* ===================================================================== *)
(** * The standard handler *)
(* ===================================================================== *)

Section StandardHandler.
Context `{Env} {B : Type}.
Implicit Types (req : Request.t) (cache : CachedResponse.t B) (next : Next B) (w : World).

Lemma log_neq e w : log e w <> w.
Proof.
  intros E. apply (f_equal trace) in E. simpl in E.
  apply (f_equal length) in E. rewrite length_app in E. simpl in E. lia.
Qed.

(* ------------------------------------------------------------------- *)
(** ** The two states of the handler *)

(** The handler takes one of two roads, decided by [novalidate] and [varies]. *)
Lemma standard_fresh req cache next w :
  handlers.novalidate (Num.of_Z (now w)) cache = true ->
  handlers.varies req cache = false ->
  FRESH_HIT req cache next w.
Proof.
  intros Hn Hv. unfold FRESH_HIT, handlers.standard. rewrite Hn, Hv. reflexivity.
Qed.

Lemma standard_revalidate req cache next w :
  handlers.novalidate (Num.of_Z (now w)) cache && negb (handlers.varies req cache) = false ->
  REVALIDATE req cache next w.
Proof.
  intros Hn. unfold REVALIDATE, handlers.standard. rewrite Hn.
  unfold forward. destruct (next _) as [err | res]; [eauto |].
  destruct (Response.status res =? 304); eauto.
Qed.

Lemma states_exclusive req cache next w :
  FRESH_HIT req cache next w -> REVALIDATE req cache next w -> False.
Proof.
  unfold FRESH_HIT, REVALIDATE. intros Hf (cache' & result & Hr).
  rewrite Hf in Hr. injection Hr as _ _ _ Hw. symmetry in Hw.
  exact (log_neq _ _ Hw).
Qed.

Lemma fresh_hit_iff req cache next w :
  FRESH_HIT req cache next w <->
  handlers.novalidate (Num.of_Z (now w)) cache && negb (handlers.varies req cache) = true.
Proof.
  split.
  - intros Hf. destruct (_ && _) eqn:E; [reflexivity |].
    exfalso. eapply states_exclusive; [exact Hf |]. by apply standard_revalidate.
  - intros [Hn Hv]%andb_true_iff. apply standard_fresh; [exact Hn |].
    by apply negb_true_iff.
Qed.

Lemma revalidate_iff req cache next w :
  REVALIDATE req cache next w <->
  handlers.novalidate (Num.of_Z (now w)) cache && negb (handlers.varies req cache) = false.
Proof.
  split.
  - intros Hr. destruct (_ && _) eqn:E; [| reflexivity].
    exfalso. eapply states_exclusive; [| exact Hr]. by apply fresh_hit_iff.
  - apply standard_revalidate.
Qed.

Lemma novalidate_max_age cache nowz N :
  carries_max_age (CachedResponse.response cache) N ->
  handlers.novalidate (Num.of_Z nowz) cache = (nowz <? CachedResponse.stored cache + N * 1000).
Proof.
  intros (cc & digits & Hcc & Hexec & HN & Hnc & Hmr).
  assert (Htruthy : truthy (Some cc) = true).
  { destruct cc; [| reflexivity]. vm_compute in Hexec. discriminate. }
  unfold handlers.novalidate, getCacheControl. rewrite Hcc, Htruthy. simpl.
  rewrite Hexec, Hnc, Hmr. simpl.
  rewrite orb_true_r, andb_true_r. subst N. apply NumFacts.lt_stored_max_age.
Qed.

(** The header [Cache-Control: max-age=N] itself, with [N] written in
    decimal digits, is such a response. *)
Lemma literal_max_age_carries (res : Response.t B) (ds : list ascii) :
  ds <> [] -> Forall Regex.digit_char ds ->
  Response.get res "Cache-Control"
  = Some (string_of_list_ascii (list_ascii_of_string "max-age=" ++ ds)) ->
  carries_max_age res (Regex.parseInt ds).
Proof.
  intros Hne Hds Hget.
  destruct (RegexFacts.max_age_literal ds Hne Hds) as (Hexec & Hnc & Hmr & _).
  eexists _, ds. repeat split; eassumption.
Qed.



(* ------------------------------------------------------------------- *)
(** ** The 304 merge *)

Lemma standard_on_304 req cache next w res :
  handlers.novalidate (Num.of_Z (now w)) cache && negb (handlers.varies req cache) = false ->
  next (handlers.conditional req cache) = inr res ->
  Response.status res = 304 ->
  let merged :=
    CachedResponse.with_status cache (Response.status res) (Response.statusText res) in
  handlers.standard req cache next w
  = (mkOutcome (handlers.conditional req cache) merged (inr (Cached merged)),
     log (Forwarded (handlers.conditional req cache)) w).
Proof.
  intros Hn Hnext Hst. unfold handlers.standard, forward. rewrite Hn, Hnext.
  apply Z.eqb_eq in Hst. rewrite Hst. reflexivity.
Qed.

Lemma standard_merging_on_304 req cache next w res :
  handlers.novalidate (Num.of_Z (now w)) cache && negb (handlers.varies req cache) = false ->
  next (handlers.conditional req cache) = inr res ->
  Response.status res = 304 ->
  handlers.standard_merging req cache next w
  = (mkOutcome (handlers.conditional req cache) cache
               (inr (Plain (handlers.merge_into res cache))),
     log (Forwarded (handlers.conditional req cache)) w).
Proof.
  intros Hn Hnext Hst. unfold handlers.standard_merging, forward. rewrite Hn, Hnext.
  apply Z.eqb_eq in Hst. rewrite Hst. reflexivity.
Qed.

(** C2. When the request proceeds to revalidation and the forwarded
    response has status 304, the response the standard handler returns has
    the body, the rawHeaders and the url of the stored entry and the
    status and statusText of the forwarded response. This holds of the
    handler that returns the cached response and of its earlier revision
    that completes the forwarded one. *)
Theorem not_modified_merge req cache next w res :
  handlers.novalidate (Num.of_Z (now w)) cache && negb (handlers.varies req cache) = false ->
  next (handlers.conditional req cache) = inr res ->
  Response.status res = 304 ->
  (exists merged,
      out_result (fst (handlers.standard req cache next w)) = inr (Cached merged) /\
      Response.body (CachedResponse.response merged)
      = Response.body (CachedResponse.response cache) /\
      Response.rawHeaders (CachedResponse.response merged)
      = Response.rawHeaders (CachedResponse.response cache) /\
      Response.url (CachedResponse.response merged)
      = Response.url (CachedResponse.response cache) /\
      Response.status (CachedResponse.response merged) = Response.status res /\
      Response.statusText (CachedResponse.response merged) = Response.statusText res) /\
  (exists merged,
      out_result (fst (handlers.standard_merging req cache next w)) = inr (Plain merged) /\
      Response.body merged = Response.body (CachedResponse.response cache) /\
      Response.rawHeaders merged = Response.rawHeaders (CachedResponse.response cache) /\
      Response.url merged = Response.url (CachedResponse.response cache) /\
      Response.status merged = Response.status res /\
      Response.statusText merged = Response.statusText res).
Proof.
  intros Hn Hnext Hst. split.
  - rewrite (standard_on_304 _ _ _ _ _ Hn Hnext Hst). simpl.
    eexists. split; [reflexivity |]. repeat split.
  - rewrite (standard_merging_on_304 _ _ _ _ _ Hn Hnext Hst). simpl.
    eexists. split; [reflexivity |]. repeat split.
Qed.

(* ------------------------------------------------------------------- *)
(** ** Vary matching *)

Lemma disqualifies_absent req k :
  handlers.disqualifies req (k, None) = true <-> is_Some (Request.get req k).
Proof. simpl. apply bool_decide_eq_true. Qed.

Lemma disqualifies_value req k v :
  handlers.disqualifies req (k, Some v) = true <-> Request.get req k <> Some v.
Proof. simpl. rewrite negb_true_iff. apply bool_decide_eq_false. Qed.

Lemma varies_false_iff req cache :
  handlers.varies req cache = false <->
  forall pair, pair ∈ CachedResponse.varyHeaders cache -> handlers.disqualifies req pair = false.
Proof.
  unfold handlers.varies. rewrite <- not_true_iff_false, existsb_exists. split.
  - intros Hno pair Hin. apply not_true_iff_false. intros Hd. apply Hno.
    exists pair. split; [by apply list_elem_of_In | exact Hd].
  - intros Hall (pair & Hin & Hd). apply list_elem_of_In in Hin.
    rewrite (Hall pair Hin) in Hd. discriminate.
Qed.


(** C5, as amended. A time-fresh entry that records a vary pair with an
    absent value for [k] is served from the cache only when header [k] is
    absent from the current request. *)
Theorem absent_vary_value_needs_absent_header req cache next w k :
  time_fresh cache w ->
  (k, None) ∈ CachedResponse.varyHeaders cache ->
  FRESH_HIT req cache next w ->
  Request.get req k = None.
Proof.
  unfold time_fresh. intros Hfresh Hin Hf.
  apply fresh_hit_iff in Hf. rewrite Hfresh in Hf. simpl in Hf.
  apply negb_true_iff in Hf.
  pose proof (proj1 (varies_false_iff _ _) Hf _ Hin) as Hd.
  simpl in Hd. apply bool_decide_eq_false in Hd. clear Hf. rename Hd into Hf.
  destruct (Request.get req k); [| reflexivity]. exfalso. apply Hf. eauto.
Qed.
End StandardHandler.

(* ===================================================================== *)
(** * The orchestrator *)
(* ===================================================================== *)

Section Orchestrator.
Context `{Env} {B : Type}.
Implicit Types (options : Options.t B) (req : Request.t) (res : Response.t B)
  (cache : CachedResponse.t B) (next : Next B) (w : World).

Lemma handle_on_hit options req next w result body :
  lookup options req w result body ->
  plugin.handle options req next w
  = let response := plugin.reconstruct result body in
    let (out, w) := plugin.handler options req response next w in
    match out_result out with
    | inl err =>
        if bool_decide (code err = Some "EUNAVAILABLE"%string) && plugin.staleFallback options
        then (inr (Cached (out_cache out)), w)
        else (inl err, w)
    | inr res =>
        if plugin.staleFallback options && (Response.statusType (as_response res) =? 5)
        then (inr (Cached (out_cache out)), w)
        else
          match res with
          | Cached c => (inr (Cached c), w)
          | Plain r =>
              (res <- plugin.shouldCache options
                        (plugin.getId options (plugin.serializer options) req)
                        (out_req out) r ;;
               ret (Plain res)) w
          end
    end.
Proof.
  intros (Hread & Hstore & Hparse).
  unfold plugin.handle, bind at 1, cache_get. rewrite Hread, Hstore.
  unfold bind at 1. rewrite Hparse. simpl. reflexivity.
Qed.

Lemma handle_on_miss options req next w :
  read_fault w = None ->
  store w !! plugin.getId options (plugin.serializer options) req = None ->
  plugin.handle options req next w
  = match next req with
    | inl err => (inl err, log (Forwarded req) w)
    | inr res =>
        (res <- plugin.shouldCache options
                  (plugin.getId options (plugin.serializer options) req) req res ;;
         ret (Plain res)) (log (Forwarded req) w)
    end.
Proof.
  intros Hread Hstore.
  unfold plugin.handle, bind at 1, cache_get. rewrite Hread, Hstore.
  unfold bind at 1, forward. destruct (next req); reflexivity.
Qed.

(** C3. When the store holds an entry for the request and staleFallback is
    not switched off, [handle] resolves to the cached response whenever the
    handler rejects with an error of code EUNAVAILABLE or resolves to a
    response of status class 5xx. With the standard handler this is what
    happens when the forwarded revalidation call rejects with such an error
    or answers with a 5xx response: the cached response comes back as it
    was reconstructed, and nothing is rejected. *)
Theorem stale_fallback options req next w result body :
  lookup options req w result body ->
  Options.staleFallback options <> Some false ->
  let response := plugin.reconstruct result body in
  (forall out w',
      plugin.handler options req response next w = (out, w') ->
      match out_result out with
      | inl err => code err = Some "EUNAVAILABLE"%string
      | inr res => Response.statusType (as_response res) = 5
      end ->
      plugin.handle options req next w = (inr (Cached (out_cache out)), w')) /\
  (Options.handler options = None ->
   REVALIDATE req response next w ->
   match next (handlers.conditional req response) with
   | inl err => code err = Some "EUNAVAILABLE"%string
   | inr res => Response.statusType res = 5
   end ->
   plugin.handle options req next w
   = (inr (Cached response), log (Forwarded (handlers.conditional req response)) w)).
Proof.
  intros Hlookup Hstale response.
  assert (Hs : plugin.staleFallback options = true).
  { unfold plugin.staleFallback. apply negb_true_iff. by apply bool_decide_eq_false. }
  assert (Hgen : forall out w',
      plugin.handler options req response next w = (out, w') ->
      match out_result out with
      | inl err => code err = Some "EUNAVAILABLE"%string
      | inr res => Response.statusType (as_response res) = 5
      end ->
      plugin.handle options req next w = (inr (Cached (out_cache out)), w')).
  { intros out w' Hout Hres.
    rewrite (handle_on_hit _ _ _ _ _ _ Hlookup). fold response. simpl. rewrite Hout, Hs.
    destruct (out_result out) as [err | res].
    - rewrite bool_decide_eq_true_2 by exact Hres. reflexivity.
    - apply Z.eqb_eq in Hres. rewrite Hres. reflexivity. }
  split; [exact Hgen |].
  intros Hdefault Hreval Hnext.
  apply revalidate_iff in Hreval.
  assert (Hh : plugin.handler options = handlers.standard).
  { unfold plugin.handler. rewrite Hdefault. reflexivity. }
  destruct (next (handlers.conditional req response)) as [err | res] eqn:En.
  - rewrite (Hgen (mkOutcome (handlers.conditional req response) response (inl err))
                  (log (Forwarded (handlers.conditional req response)) w)).
    + reflexivity.
    + rewrite Hh. unfold handlers.standard, forward. rewrite Hreval, En. reflexivity.
    + exact Hnext.
  - assert (Hne : (Response.status res =? 304) = false).
    { apply Z.eqb_neq. intros E. unfold Response.statusType in Hnext.
      rewrite E in Hnext. vm_compute in Hnext. discriminate. }
    rewrite (Hgen (mkOutcome (handlers.conditional req response) response (inr (Plain res)))
                  (log (Forwarded (handlers.conditional req response)) w)).
    + reflexivity.
    + rewrite Hh. unfold handlers.standard, forward. rewrite Hreval, En, Hne. reflexivity.
    + exact Hnext.
Qed.

(* ------------------------------------------------------------------- *)
(** ** Responses the standard policy declines *)

Lemma standard_declines req res :
  declined req res <-> cacheables.standard req res = false.
Proof.
  unfold declined, cacheables.standard. rewrite andb_false_iff, Z.eqb_neq.
  rewrite <- not_true_iff_false, String.eqb_eq. reflexivity.
Qed.

Lemma shouldCache_declined options id req res w :
  plugin.cacheable options req res = false ->
  plugin.shouldCache options id req res w = (inr res, w).
Proof. intros Hc. unfold plugin.shouldCache. rewrite Hc. reflexivity. Qed.

Lemma conditional_method req cache :
  Request.method (handlers.conditional req cache) = Request.method req.
Proof.
  unfold handlers.conditional.
  destruct (Response.get _ "ETag") as [e |], (Response.get _ "Last-Modified") as [m |];
    repeat (destruct (truthy _)); reflexivity.
Qed.

Lemma writes_log e w :
  is_write e = false -> writes (trace (log e w)) = writes (trace w).
Proof.
  intros He. unfold writes. simpl. rewrite List.filter_app. simpl. rewrite He.
  apply app_nil_r.
Qed.

Lemma never_cacheable_declined req next q res :
  never_cacheable req next -> Request.method q = Request.method req ->
  next q = inr res -> declined q res.
Proof.
  intros [Hm | Hs] Hq Hnext; [right; congruence | left; eauto].
Qed.

(** C9. Under the standard cacheable policy a response whose status is not
    200, or that answers a request whose method is not GET, is never
    written to the store: [shouldCache] and [forceUpdate] return it
    unchanged and leave the world as it is (but for the forwarded call), so
    does [handle] on a miss, and [handle] on a hit makes no store write
    either and returns a forwarded response only as the network gave it. *)
Theorem declined_response_not_stored options req next w :
  Options.cacheable options = None ->
  (forall id res,
      declined req res ->
      plugin.shouldCache options id req res w = (inr res, w)) /\
  (forall res,
      next req = inr res -> declined req res ->
      plugin.forceUpdate options req next w = (inr res, log (Forwarded req) w)) /\
  (forall res,
      read_fault w = None ->
      store w !! plugin.getId options (plugin.serializer options) req = None ->
      next req = inr res -> declined req res ->
      plugin.handle options req next w = (inr (Plain res), log (Forwarded req) w)) /\
  (forall result body,
      lookup options req w result body ->
      Options.handler options = None ->
      never_cacheable req next ->
      let w' := snd (plugin.handle options req next w) in
      store w' = store w /\ writes (trace w') = writes (trace w) /\
      forall r, fst (plugin.handle options req next w) = inr (Plain r) ->
                next (handlers.conditional req (plugin.reconstruct result body)) = inr r).
Proof.
  intros Hpolicy.
  assert (Hdecl : forall id q res w0,
             declined q res -> plugin.shouldCache options id q res w0 = (inr res, w0)).
  { intros id q res w0 Hd. apply shouldCache_declined.
    unfold plugin.cacheable. rewrite Hpolicy. simpl. by apply standard_declines. }
  split; [| split; [| split]].
  - intros id res Hd. by apply Hdecl.
  - intros res Hnext Hd. unfold plugin.forceUpdate, bind, forward. rewrite Hnext.
    by apply Hdecl.
  - intros res Hread Hmiss Hnext Hd. rewrite handle_on_miss by assumption.
    rewrite Hnext. unfold bind. rewrite Hdecl by assumption. reflexivity.
  - intros result body Hlookup Hdefault Hnever.
    rewrite (handle_on_hit _ _ _ _ _ _ Hlookup). simpl.
    unfold plugin.handler. rewrite Hdefault. simpl.
    set (response := plugin.reconstruct result body).
    unfold handlers.standard.
    destruct (_ && negb _).
    + simpl. destruct (plugin.staleFallback options && _); simpl;
        (split; [reflexivity | split; [reflexivity | discriminate]]).
    + unfold forward.
      destruct (next (handlers.conditional req response)) as [err | res] eqn:En.
      * simpl. destruct (_ && _); simpl;
          (split; [reflexivity | split; [by apply writes_log | discriminate]]).
      * destruct (Response.status res =? 304); simpl.
        -- destruct (_ && _); simpl;
             (split; [reflexivity | split; [by apply writes_log | discriminate]]).
        -- destruct (_ && _); simpl.
           ++ split; [reflexivity | split; [by apply writes_log | discriminate]].
           ++ unfold bind. rewrite Hdecl.
              ** simpl. split; [reflexivity | split; [by apply writes_log |]].
                 intros r [= <-]. reflexivity.
              ** eapply never_cacheable_declined; [exact Hnever | | exact En].
                 apply conditional_method.
Qed.

(* ------------------------------------------------------------------- *)
(** ** The vary pairs of a stored entry *)

Lemma make_item_vary contents res :
  CacheItem.varyHeaders (plugin.make_item contents res) = vary_pairs res.
Proof.
  unfold plugin.make_item, vary_pairs, getVary, Response.get. simpl.
  destruct (header_get _ "Vary") as [v |]; [| reflexivity].
  simpl. destruct (String.eqb v ""); reflexivity.
Qed.

Lemma vary_pairs_set_body res (b : B) :
  vary_pairs (Response.set_body res b) = vary_pairs res.
Proof. reflexivity. Qed.

(** Every call [setCache] makes to the store writes an item built from the response. *)
Lemma setCache_trace options id req res cb w :
  exists evs,
    trace (snd (plugin.setCache options id req res cb w)) = trace w ++ evs /\
    forall id' entry ttl',
      StoreSet id' entry ttl' ∈ evs ->
      id' = id /\ ttl' = plugin.ttl options req res /\
      exists contents, cb_value cb = Some contents /\
                       entry = plugin.make_item contents res.
Proof.
  unfold plugin.setCache. destruct (cb_err cb) as [err |].
  - exists [Sunk err]. split; [reflexivity |].
    intros ? ? ? Hin. apply list_elem_of_singleton in Hin. discriminate.
  - destruct (cb_value cb) as [contents |].
    + unfold catching, cache_set. simpl. destruct (write_fault w) as [e |]; simpl.
      * exists [StoreSet id (plugin.make_item contents res) (plugin.ttl options req res);
                Sunk e].
        split; [by rewrite <- app_assoc |].
        intros ? ? ? Hin. apply elem_of_cons in Hin as [[= -> -> ->] | Hin].
        -- eauto.
        -- apply list_elem_of_singleton in Hin. discriminate.
      * exists [StoreSet id (plugin.make_item contents res) (plugin.ttl options req res)].
        split; [reflexivity |].
        intros ? ? ? Hin. apply list_elem_of_singleton in Hin as [= -> -> ->]. eauto.
    + exists []. split; [by rewrite app_nil_r |].
      intros ? ? ? Hin. by apply not_elem_of_nil in Hin.
Qed.

Lemma shouldCache_trace options id req res w :
  exists evs,
    trace (snd (plugin.shouldCache options id req res w)) = trace w ++ evs /\
    forall id' entry ttl',
      StoreSet id' entry ttl' ∈ evs ->
      id' = id /\ CacheItem.varyHeaders entry = vary_pairs res.
Proof.
  unfold plugin.shouldCache. destruct (negb _).
  - exists []. split; [by rewrite app_nil_r |].
    intros ? ? ? Hin. by apply not_elem_of_nil in Hin.
  - destruct (stringify _ _) as [err | [body cb]].
    + exists []. split; [by rewrite app_nil_r |].
      intros ? ? ? Hin. by apply not_elem_of_nil in Hin.
    + destruct (setCache_trace options id req (Response.set_body res body) cb w)
        as (evs & Htr & Hev).
      exists evs. split.
      * unfold bind. destruct (plugin.setCache _ _ _ _ _ _) as [[e | []] w']; exact Htr.
      * intros id' entry ttl' Hin.
        destruct (Hev _ _ _ Hin) as (-> & _ & contents & _ & ->).
        split; [reflexivity |]. rewrite make_item_vary. apply vary_pairs_set_body.
Qed.

(** A [Vary] header that lists names separated by a comma and a space
    gives these names. *)
Lemma getVary_names res (names : list (list ascii)) :
  Forall (Forall Regex.name_char) names -> Regex.join names <> [] ->
  Response.get res "Vary" = Some (string_of_list_ascii (Regex.join names)) ->
  getVary res = string_of_list_ascii <$> names.
Proof.
  intros Hnames Hne Hget. unfold getVary. rewrite Hget.
  replace (truthy _) with true; [by apply RegexFacts.split_join |].
  unfold truthy. destruct (string_of_list_ascii _) eqn:E; [| reflexivity].
  apply (f_equal list_ascii_of_string) in E.
  rewrite list_ascii_of_string_of_list_ascii in E. simpl in E. congruence.
Qed.

(** C10. The varyHeaders of an entry written by [shouldCache] are computed
    from the response alone: one pair for each name of the response's Vary
    header, split at the commas, holding the response's own value for that
    header, absent when the response lacks it. The request is not
    consulted: any other request gives the same pairs. *)
Theorem vary_headers_from_response options id req res w evs id' entry ttl' :
  trace (snd (plugin.shouldCache options id req res w)) = trace w ++ evs ->
  StoreSet id' entry ttl' ∈ evs ->
  CacheItem.varyHeaders entry = vary_pairs res /\
  (forall key,
      key ∈ getVary res ->
      (key, Response.get res key) ∈ CacheItem.varyHeaders entry /\
      (Response.get res key = None -> (key, None) ∈ CacheItem.varyHeaders entry)) /\
  (forall req2 evs2 id2 entry2 ttl2,
      trace (snd (plugin.shouldCache options id req2 res w)) = trace w ++ evs2 ->
      StoreSet id2 entry2 ttl2 ∈ evs2 ->
      CacheItem.varyHeaders entry2 = CacheItem.varyHeaders entry).
Proof.
  intros Htrace Hin.
  assert (Hany : forall q evs0 id0 entry0 ttl0,
             trace (snd (plugin.shouldCache options id q res w)) = trace w ++ evs0 ->
             StoreSet id0 entry0 ttl0 ∈ evs0 ->
             CacheItem.varyHeaders entry0 = vary_pairs res).
  { intros q evs0 id0 entry0 ttl0 Htr0 Hin0.
    destruct (shouldCache_trace options id q res w) as (evs1 & Htr1 & Hev).
    rewrite Htr1 in Htr0. apply app_inv_head in Htr0. subst evs1.
    by destruct (Hev _ _ _ Hin0). }
  pose proof (Hany _ _ _ _ _ Htrace Hin) as Hvary.
  split; [exact Hvary |]. split.
  - intros key Hkey.
    assert (Hpair : (key, Response.get res key) ∈ CacheItem.varyHeaders entry).
    { rewrite Hvary. unfold vary_pairs.
      apply (list_elem_of_fmap_2 (fun key => (key, header_get (Response.rawHeaders res) key))).
      unfold getVary, Response.get in Hkey.
      destruct (header_get _ "Vary") as [v |]; [| exact Hkey].
      simpl in Hkey. destruct (String.eqb v ""); exact Hkey. }
    split; [exact Hpair |]. intros Hnone. by rewrite Hnone in Hpair.
  - intros req2 evs2 id2 entry2 ttl2 Htr2 Hin2.
    rewrite Hvary. by apply (Hany req2 evs2 id2 entry2 ttl2).
Qed.
End Orchestrator.

(* ===================================================================== *)
(** * The stream serializer *)
(* ===================================================================== *)

Section StreamSerializer.
Context `{Env} (L : Z).

Lemma total_app (seen chunks : list (list byte)) :
  total (seen ++ chunks) = total seen + total chunks.
Proof. unfold total. rewrite concat_app, length_app. lia. Qed.

Lemma total_nonneg (chunks : list (list byte)) : 0 <= total chunks.
Proof. unfold total. lia. Qed.

Lemma on_data_buffering seen state chunk :
  buffering L seen state -> buffering L (seen ++ [chunk]) (stream.on_data L state chunk).
Proof.
  unfold buffering. destruct state as [len strs].
  rewrite total_app. pose proof (total_nonneg [chunk]) as Hc.
  assert (Hone : total [chunk] = Z.of_nat (length chunk)).
  { unfold total. simpl. by rewrite app_nil_r. }
  unfold stream.on_data.
  destruct (total seen <=? L) eqn:Hseen.
  - intros [= -> ->]. apply Z.leb_le in Hseen.
    rewrite (proj2 (Z.ltb_ge L (total seen))) by exact Hseen.
    rewrite <- Hone.
    destruct (total seen + total [chunk] <=? L) eqn:Hnew; [reflexivity |].
    apply Z.leb_gt in Hnew. exact Hnew.
  - simpl. intros Hover. apply Z.leb_gt in Hseen.
    rewrite (proj2 (Z.leb_gt (total seen + total [chunk]) L)) by lia.
    rewrite (proj2 (Z.ltb_lt L len)) by exact Hover. exact Hover.
Qed.

Lemma fold_buffering chunks seen state :
  buffering L seen state ->
  buffering L (seen ++ chunks) (fold_left (stream.on_data L) chunks state).
Proof.
  revert seen state. induction chunks as [| chunk chunks IH]; intros seen state Hb.
  - by rewrite app_nil_r.
  - simpl. replace (seen ++ chunk :: chunks) with ((seen ++ [chunk]) ++ chunks)
      by (by rewrite <- app_assoc).
    apply IH. by apply on_data_buffering.
Qed.

Lemma stream_buffering chunks :
  buffering L chunks (fold_left (stream.on_data L) chunks stream.start).
Proof.
  apply (fold_buffering chunks [] stream.start).
  unfold buffering, stream.start. 
  destruct (total [] <=? L) eqn:E; [reflexivity |]. apply Z.leb_gt in E. exact E.
Qed.

Lemma on_end_over chunks :
  L < total chunks ->
  stream.on_end L (fold_left (stream.on_data L) chunks stream.start) = mkCallback None None.
Proof.
  intros Hover. pose proof (stream_buffering chunks) as Hb. unfold buffering in Hb.
  rewrite (proj2 (Z.leb_gt (total chunks) L)) in Hb by exact Hover.
  destruct (fold_left _ _ _) as [len strs]. simpl in *.
  by rewrite (proj2 (Z.ltb_lt L len)).
Qed.

Lemma on_end_within chunks :
  total chunks <= L ->
  stream.on_end L (fold_left (stream.on_data L) chunks stream.start)
  = mkCallback None (Some (base64_encode (concat chunks))).
Proof.
  intros Hin. pose proof (stream_buffering chunks) as Hb. unfold buffering in Hb.
  rewrite (proj2 (Z.leb_le (total chunks) L)) in Hb by exact Hin.
  rewrite Hb. simpl. by rewrite (proj2 (Z.ltb_ge L (total chunks))).
Qed.

(** C7. With the byte cap [L], a stream that ends without error and whose
    total length exceeds [L] makes the serializer call back with
    [(null, null)], and then [shouldCache] writes nothing to the store; a
    stream of total length at most [L] makes it call back with
    [(null, contents)], where [contents] encodes all the bytes of the
    stream. *)
Theorem stream_cap (r : Readable) :
  ending r = Ends ->
  (L < total (chunks r) ->
   stream.stringify L (Stream r) = inr (Stream r, mkCallback None None) /\
   forall (options : Options.t StreamBody) id req res w,
     Options.serializer options = serializers.stream L ->
     Response.body res = Stream r ->
     snd (plugin.shouldCache options id req res w) = w) /\
  (total (chunks r) <= L ->
   stream.stringify L (Stream r)
   = inr (Stream r, mkCallback None (Some (base64_encode (concat (chunks r)))))).
Proof.
  intros Hend. split.
  - intros Hover.
    assert (Hs : stream.stringify L (Stream r) = inr (Stream r, mkCallback None None)).
    { unfold stream.stringify. rewrite Hend. by rewrite on_end_over. }
    split; [exact Hs |].
    intros options id req res w Hser Hbody.
    unfold plugin.shouldCache. destruct (negb _); [reflexivity |].
    unfold plugin.serializer. rewrite Hser, Hbody.
    unfold serializers.stream. cbn [stringify]. rewrite Hs. reflexivity.
  - intros Hin. unfold stream.stringify. rewrite Hend. by rewrite on_end_within.
Qed.
End StreamSerializer.

(* ===================================================================== *)
(** * The TTL policies *)
(* ===================================================================== *)

Section Ttl.
Context `{Env} {B : Type}.
Implicit Types (req : Request.t) (res : Response.t B).

Lemma max_age_nonneg res m :
  maxAge (getCacheControl res) = Some m -> Num.nonneg m = true.
Proof.
  unfold getCacheControl. simpl.
  destruct (if truthy _ then _ else _) as [digits |]; [| discriminate].
  intros [= <-]. apply NumFacts.nonneg_mul1000, parseInt_nonneg.
Qed.

(** C6, as amended. With non-negative bounds the TTL of the standard policy
    is non-negative whenever the freshness window of the response is: in
    particular when the response has a max-age, and when it has none of
    max-age, Expires and Last-Modified. The forever policy gives Infinity. *)
Theorem ttl_nonneg_when_fresh (minTtl maxTtl : number) req res :
  Num.nonneg minTtl = true ->
  Num.nonneg maxTtl = true ->
  (Num.nonneg (ttls.freshness res) = true ->
   Num.nonneg (ttls.standard minTtl maxTtl req res) = true) /\
  (forall m, maxAge (getCacheControl res) = Some m ->
             Num.nonneg (ttls.standard minTtl maxTtl req res) = true) /\
  (maxAge (getCacheControl res) = None -> getExpiresIn res = None ->
   getLastModifiedExpiration res = None ->
   Num.nonneg (ttls.standard minTtl maxTtl req res) = true) /\
  ttls.forever req res = Num.PInf /\
  Num.nonneg (ttls.forever req res) = true.
Proof.
  intros Hmin Hmax.
  assert (Hstd : Num.nonneg (ttls.freshness res) = true ->
                 Num.nonneg (ttls.standard minTtl maxTtl req res) = true).
  { intros Hf. unfold ttls.standard.
    apply NumFacts.nonneg_add; [exact Hmin |]. by apply NumFacts.nonneg_min. }
  split; [exact Hstd |]. split; [| split; [| split; reflexivity]].
  - intros m Hm. apply Hstd. unfold ttls.freshness. rewrite Hm.
    by apply (max_age_nonneg res).
  - intros Hm He Hl. apply Hstd. unfold ttls.freshness. rewrite Hm, He, Hl. reflexivity.
Qed.
End Ttl.

(* ===================================================================== *)
(** * The JSON codec *)
(* ===================================================================== *)

Module JSONFacts.
Import JSON.
Local Open Scope char_scope.
Local Open Scope list_scope.

(** ** Strings *)

Lemma parse_chars_escape (c : ascii) (rest : list ascii) :
  parse_chars (escape c ++ rest)
  = match parse_chars rest with
    | Some (cs, r) => Some (c :: cs, r)
    | None => None
    end.
Proof.
  destruct c as [[] [] [] [] [] [] [] []]; reflexivity.
Qed.

Lemma parse_chars_quoted (cs rest : list ascii) :
  parse_chars (flat_map escape cs ++ dquote :: rest) = Some (cs, rest).
Proof.
  induction cs as [| c cs IH]; [reflexivity |].
  simpl. rewrite <- app_assoc, parse_chars_escape, IH. reflexivity.
Qed.

Lemma parse_quote (s : string) (rest : list ascii) :
  exists body, quote s ++ rest = dquote :: body /\
               parse_chars body = Some (chars s, rest).
Proof.
  exists (flat_map escape (chars s) ++ dquote :: rest). split.
  - unfold quote. simpl. by rewrite <- app_assoc.
  - apply parse_chars_quoted.
Qed.


(** ** Numbers *)

Lemma digits_of_uint_digits (d : Decimal.uint) : Forall Regex.digit_char (digits_of_uint d).
Proof. induction d; simpl; constructor; (reflexivity || assumption). Qed.

Lemma span_digits_app (ds rest : list ascii) :
  Forall Regex.digit_char ds -> delimited rest = true ->
  span_digits (ds ++ rest) = (ds, rest).
Proof.
  intros Hds Hrest. induction Hds as [| d ds Hd _ IH]; simpl.
  - destruct rest as [| c rest]; [reflexivity |]. simpl in *.
    apply andb_true_iff in Hrest as [Hc _]. apply negb_true_iff in Hc.
    by rewrite Hc.
  - unfold Regex.digit_char in Hd. by rewrite Hd, IH.
Qed.

Lemma parseInt_acc (d : Decimal.uint) (acc : positive) :
  fold_left (fun a c => a * 10 + Regex.digit_value c) (digits_of_uint d) (Z.pos acc)
  = Z.pos (Pos.of_uint_acc d acc).
Proof.
  revert acc. induction d; intros acc; simpl; [reflexivity | ..];
    rewrite <- IHd; f_equal; unfold Regex.digit_value; simpl; lia.
Qed.

Lemma parseInt_digits (d : Decimal.uint) :
  Regex.parseInt (digits_of_uint d) = Z.of_N (Pos.of_uint d).
Proof.
  unfold Regex.parseInt. induction d; simpl; [reflexivity | exact IHd | ..];
    apply (parseInt_acc d).
Qed.

Lemma nzhead_head (d d' : Decimal.uint) : Decimal.nzhead d <> Decimal.D0 d'.
Proof. induction d; simpl; congruence. Qed.

Lemma to_uint_head (p : positive) :
  exists c ds, digits_of_uint (Pos.to_uint p) = c :: ds /\
               Regex.is_digit c = true /\ (Regex.code c =? 48)%N = false.
Proof.
  assert (Hnorm : Decimal.unorm (Pos.to_uint p) = Pos.to_uint p).
  { rewrite <- (DecimalPos.Unsigned.to_of (Pos.to_uint p)).
    rewrite DecimalPos.Unsigned.of_to. reflexivity. }
  pose proof (DecimalPos.Unsigned.to_uint_nonnil p) as Hnil.
  pose proof (DecimalPos.Unsigned.to_uint_nonzero p) as Hzero.
  destruct (Pos.to_uint p) as [| d | d | d | d | d | d | d | d | d | d] eqn:E;
    [congruence | | simpl; eauto ..].
  exfalso. rewrite DecimalFacts.unorm_D0 in Hnorm. unfold Decimal.unorm in Hnorm.
  destruct (Decimal.nzhead d) eqn:En; try (eapply nzhead_head; rewrite En; exact Hnorm).
  injection Hnorm as <-. apply Hzero. reflexivity.
Qed.

Lemma parse_unsigned_pos (p : positive) (rest : list ascii) :
  delimited rest = true ->
  parse_unsigned (digits_of_uint (Pos.to_uint p) ++ rest) = Some (Z.pos p, rest).
Proof.
  intros Hrest. unfold parse_unsigned.
  rewrite span_digits_app by (apply digits_of_uint_digits || exact Hrest).
  destruct (to_uint_head p) as (c & ds & E & _ & Hc). 
  assert (Hend : ends_number rest = true).
  { destruct rest; [reflexivity |]. simpl in Hrest. by apply andb_true_iff in Hrest as [_ ?]. }
  pose proof (parseInt_digits (Pos.to_uint p)) as Hv.
  rewrite DecimalPos.Unsigned.of_to in Hv. simpl in Hv.
  rewrite E in *. rewrite Hc, Hend, Hv. reflexivity.
Qed.

Lemma parse_unsigned_zero (rest : list ascii) :
  delimited rest = true -> parse_unsigned ("0" :: rest) = Some (0, rest).
Proof.
  intros Hrest. unfold parse_unsigned.
  change ("0" :: rest) with (["0"] ++ rest).
  rewrite (span_digits_app ["0"] rest) by (repeat constructor || exact Hrest).
  assert (Hend : ends_number rest = true).
  { destruct rest; [reflexivity |]. simpl in Hrest. by apply andb_true_iff in Hrest as [_ ?]. }
  simpl. rewrite Hend. reflexivity.
Qed.

Lemma parse_print_number (n : Z) (rest : list ascii) :
  delimited rest = true ->
  parse_number (print_number n ++ rest) = Some (Number n, rest).
Proof.
  intros Hrest. destruct n as [| p | p]; simpl.
  - pose proof (parse_unsigned_zero rest Hrest) as Hz. simpl in Hz. by rewrite Hz.
  - destruct (to_uint_head p) as (c & ds & E & Hd & Hc).
    pose proof (parse_unsigned_pos p rest Hrest) as Hp. rewrite E in *. simpl.
    assert (Hminus : (Regex.code c =? 45)%N = false).
    { unfold Regex.is_digit in Hd. apply andb_true_iff in Hd as [Hlo _].
      apply N.leb_le in Hlo. apply N.eqb_neq. lia. }
    rewrite Hminus. simpl in Hp. by rewrite Hp.
  - by rewrite parse_unsigned_pos.
Qed.

(** The first character of a printed number is a digit or a minus sign. *)
Lemma print_number_head (n : Z) :
  exists c s, print_number n = c :: s /\
              (Regex.is_digit c = true \/ c = "-").
Proof.
  destruct n as [| p | p]; simpl; eauto.
  destruct (to_uint_head p) as (c & ds & E & Hd & _). rewrite E. eauto.
Qed.


(** ** Values *)

Section Induction.
Variable P : value -> Prop.
Hypothesis HNull : P Null.
Hypothesis HBool : forall b, P (Bool b).
Hypothesis HNumber : forall n, P (Number n).
Hypothesis HStr : forall s, P (Str s).
Hypothesis HArray : forall l, Forall P l -> P (Array l).
Hypothesis HObject : forall l, Forall (fun m => P (snd m)) l -> P (Object l).

Fixpoint value_rect' (v : value) : P v :=
  match v with
  | Null => HNull
  | Bool b => HBool b
  | Number n => HNumber n
  | Str s => HStr s
  | Array l =>
      HArray l ((fix all (l : list value) : Forall P l :=
                   match l with
                   | [] => List.Forall_nil P
                   | x :: l' => List.Forall_cons P x l' (value_rect' x) (all l')
                   end) l)
  | Object l =>
      HObject l ((fix all (l : list (string * value)) : Forall (fun m => P (snd m)) l :=
                    match l with
                    | [] => List.Forall_nil _
                    | m :: l' => List.Forall_cons _ m l' (value_rect' (snd m)) (all l')
                    end) l)
  end.
End Induction.

Lemma wf_Array (l : list value) : wf (Array l) <-> Forall wf l.
Proof.
  simpl. induction l as [| x l IH]; [split; constructor |].
  rewrite Forall_cons, <- IH. reflexivity.
Qed.

Lemma wf_Object (l : list (string * value)) :
  wf (Object l) <-> NoDup (fst <$> l) /\ Forall (fun m => wf (snd m)) l.
Proof.
  simpl. apply and_iff_compat_l.
  induction l as [| [k x] l IH]; [split; constructor |].
  rewrite Forall_cons, <- IH. reflexivity.
Qed.

Lemma digit_or_minus_opens (c : ascii) :
  Regex.is_digit c = true \/ c = "-" -> opens c.
Proof.
  destruct c as [[] [] [] [] [] [] [] []]; intros [Hd | Hm];
    try discriminate; repeat split.
Qed.

Lemma print_head (v : value) : exists c s, print v = c :: s /\ opens c.
Proof.
  destruct v as [| [] | n | s | l | l]; simpl; try (do 2 eexists; split; [reflexivity |]; by repeat split).
  destruct (print_number_head n) as (c & s & E & Hc). rewrite E.
  do 2 eexists. split; [reflexivity |]. by apply digit_or_minus_opens.
Qed.

Lemma parse_value_number (fuel : nat) (c : ascii) (r : list ascii) :
  Regex.is_digit c = true \/ c = "-" ->
  parse_value (S fuel) (c :: r) = parse_number (c :: r).
Proof.
  destruct c as [[] [] [] [] [] [] [] []]; intros [Hd | Hm];
    try discriminate; reflexivity.
Qed.

Lemma parse_value_array (fuel : nat) (s : list ascii) (c : ascii) (r : list ascii) :
  skip_ws s = c :: r -> (Regex.code c =? 93)%N = false ->
  parse_value (S fuel) ("[" :: s) = parse_elements fuel [] s.
Proof. intros Hs Hc. simpl. rewrite Hs, Hc. reflexivity. Qed.

Lemma parse_value_object (fuel : nat) (s : list ascii) (c : ascii) (r : list ascii) :
  skip_ws s = c :: r -> (Regex.code c =? 125)%N = false ->
  parse_value (S fuel) ("{" :: s) = parse_members fuel [] s.
Proof. intros Hs Hc. simpl. rewrite Hs, Hc. reflexivity. Qed.

Lemma skip_ws_opens (c : ascii) (s : list ascii) : opens c -> skip_ws (c :: s) = c :: s.
Proof. intros (Hws & _). simpl. by rewrite Hws. Qed.

Lemma parse_elements_print (more : list value) :
  Forall reads_back more -> Forall wf more ->
  forall x acc fuel rest,
    reads_back x -> wf x ->
    (S (size x) + sum_list ((fun y => S (size y)) <$> more) <= fuel)%nat ->
    parse_elements fuel acc
      (print x ++ flat_map (fun y => "," :: print y) more ++ "]" :: rest)
    = Some (Array (acc ++ x :: more), rest).
Proof.
  intros HIH Hwf. induction HIH as [| y more Hy _ IH];
    intros x acc fuel rest Hx Hwx Hfuel.
  - destruct fuel as [| fuel]; [simpl in Hfuel; lia |].
    simpl in *. rewrite (Hx Hwx fuel ("]" :: rest)) by (lia || reflexivity).
    reflexivity.
  - destruct fuel as [| fuel]; [simpl in Hfuel; lia |].
    apply Forall_cons in Hwf as [Hwy Hwf].
    rewrite fmap_cons in Hfuel. cbn [sum_list sum_list_with id] in Hfuel.
    change (flat_map (fun y => "," :: print y) (y :: more) ++ "]" :: rest)
      with ("," :: (print y ++ flat_map (fun y => "," :: print y) more) ++ "]" :: rest).
    rewrite <- (app_assoc (print y)).
    cbn [parse_elements].
    rewrite (Hx Hwx fuel) by (lia || reflexivity).
    simpl skip_ws. cbn iota beta. 
    change (Regex.code "," =? 44)%N with true. cbn iota.
    rewrite (IH Hwf y (acc ++ [x]) fuel rest Hy Hwy) by lia.
    by rewrite <- app_assoc.
Qed.


Lemma obj_set_fresh (acc : list (string * value)) (k : string) (v : value) :
  k ∉ fst <$> acc -> obj_set acc k v = acc ++ [(k, v)].
Proof.
  induction acc as [| [k' v'] acc IH]; intros Hk; [reflexivity |].
  simpl in *. apply not_elem_of_cons in Hk as [Hne Hk].
  destruct (String.eqb k' k) eqn:E.
  - apply String.eqb_eq in E. congruence.
  - by rewrite IH.
Qed.

Lemma parse_members_step (fuel : nat) (acc : list (string * value)) (k : string)
  (x : value) (tail : list ascii) :
  parse_value fuel (print x ++ tail) = Some (x, tail) ->
  k ∉ fst <$> acc ->
  parse_members (S fuel) acc (quote k ++ ":" :: print x ++ tail)
  = match skip_ws tail with
    | c :: r' =>
        if (Regex.code c =? 44)%N then parse_members fuel (acc ++ [(k, x)]) r'
        else if (Regex.code c =? 125)%N then Some (Object (acc ++ [(k, x)]), r')
        else None
    | [] => None
    end.
Proof.
  intros Hx Hk.
  destruct (parse_quote k (":" :: print x ++ tail)) as (body & -> & Hbody).
  cbn [parse_members]. simpl skip_ws. cbn iota beta.
  change (Regex.code dquote =? 34)%N with true. cbn iota.
  rewrite Hbody. simpl skip_ws. cbn iota beta.
  change (Regex.code ":" =? 58)%N with true. cbn iota.
  rewrite Hx. unfold chars. rewrite string_of_list_ascii_of_string.
  by rewrite obj_set_fresh.
Qed.

Lemma parse_members_print (more : list (string * value)) :
  Forall (fun m => reads_back (snd m)) more -> Forall (fun m => wf (snd m)) more ->
  forall k x acc fuel rest,
    reads_back x -> wf x ->
    NoDup (fst <$> acc ++ (k, x) :: more) ->
    (S (size x) + sum_list ((fun m => S (size (snd m))) <$> more) <= fuel)%nat ->
    parse_members fuel acc
      (quote k ++ ":" :: print x
       ++ flat_map (fun m => "," :: quote (fst m) ++ ":" :: print (snd m)) more
       ++ "}" :: rest)
    = Some (Object (acc ++ (k, x) :: more), rest).
Proof.
  intros HIH Hwf. induction HIH as [| [k' y] more Hy _ IH];
    intros k x acc fuel rest Hx Hwx Hdup Hfuel;
    (destruct fuel as [| fuel]; [simpl in Hfuel; lia |]);
    pose proof Hdup as Hall;
    rewrite fmap_app, fmap_cons in Hdup; apply NoDup_app in Hdup as (_ & Hfresh & Hdup).
  - simpl in Hfuel.
    rewrite parse_members_step.
    + reflexivity.
    + apply (Hx Hwx); [lia | reflexivity].
    + intros Hin. apply (Hfresh _ Hin). simpl. left.
  - apply Forall_cons in Hwf as [Hwy Hwf].
    rewrite fmap_cons in Hfuel. cbn [sum_list sum_list_with id] in Hfuel.
    assert (E : flat_map (fun m => "," :: quote (fst m) ++ ":" :: print (snd m))
                         ((k', y) :: more) ++ "}" :: rest
                = "," :: quote k' ++ ":" :: print y
                      ++ flat_map (fun m => "," :: quote (fst m) ++ ":" :: print (snd m)) more
                      ++ "}" :: rest).
    { cbn [flat_map fst snd]. generalize (quote k'). intros q.
      rewrite <- !app_assoc, <- app_comm_cons, <- app_assoc. reflexivity. }
    rewrite parse_members_step.
    + rewrite E. cbn [skip_ws]. change (is_ws ",") with false. cbn iota.
      change (Regex.code "," =? 44)%N with true. cbn iota.
      rewrite (IH Hwf k' y (acc ++ [(k, x)]) fuel rest Hy Hwy).
      * by rewrite <- app_assoc.
      * rewrite <- app_assoc. exact Hall.
      * simpl in *. lia.
    + apply (Hx Hwx); [simpl in *; lia |]. rewrite E. reflexivity.
    + intros Hin. apply (Hfresh _ Hin). simpl. left.
Qed.


Lemma print_array_cons (x : value) (more : list value) (rest : list ascii) :
  print (Array (x :: more)) ++ rest
  = "[" :: print x ++ flat_map (fun y => "," :: print y) more ++ "]" :: rest.
Proof.
  cbn [print]. generalize (print x) (flat_map (fun y => "," :: print y) more).
  intros p q. rewrite <- app_comm_cons, <- !app_assoc. reflexivity.
Qed.

Lemma print_object_cons (k : string) (x : value) (more : list (string * value))
  (rest : list ascii) :
  print (Object ((k, x) :: more)) ++ rest
  = "{" :: quote k ++ ":" :: print x
        ++ flat_map (fun m => "," :: quote (fst m) ++ ":" :: print (snd m)) more
        ++ "}" :: rest.
Proof.
  cbn [print].
  generalize (quote k) (print x)
             (flat_map (fun m => "," :: quote (fst m) ++ ":" :: print (snd m)) more).
  intros q p r. rewrite <- app_comm_cons, <- !app_assoc, <- app_comm_cons, <- app_assoc.
  reflexivity.
Qed.

Lemma parse_print (v : value) : reads_back v.
Proof.
  induction v as [| b | n | s | l IH | l IH] using value_rect';
    intros Hwf fuel rest Hfuel Hrest;
    (destruct fuel as [| fuel]; [simpl in Hfuel; lia |]).
  - reflexivity.
  - destruct b; reflexivity.
  - destruct (print_number_head n) as (c & s & E & Hc).
    pose proof (parse_print_number n rest Hrest) as Hn.
    cbn [print] in *. rewrite E in *. rewrite <- app_comm_cons in *.
    by rewrite parse_value_number.
  - destruct (parse_quote s rest) as (body & E & Hbody).
    cbn [print]. rewrite E. cbn [parse_value skip_ws].
    change (is_ws dquote) with false. cbn iota beta.
    change (Regex.code dquote =? 110)%N with false.
    change (Regex.code dquote =? 116)%N with false.
    change (Regex.code dquote =? 102)%N with false.
    change (Regex.code dquote =? 34)%N with true. cbn iota.
    rewrite Hbody. unfold chars. by rewrite string_of_list_ascii_of_string.
  - apply wf_Array in Hwf. destruct l as [| x more]; [reflexivity |].
    apply Forall_cons in IH as [Hx IH]. apply Forall_cons in Hwf as [Hwx Hwf].
    destruct (print_head x) as (c & s & E & Hws & Hc & _).
    rewrite print_array_cons.
    rewrite (parse_value_array fuel _ c
               (s ++ flat_map (fun y => "," :: print y) more ++ "]" :: rest)).
    + apply parse_elements_print with (acc := []); try assumption.
      cbn [size] in Hfuel. rewrite fmap_cons in Hfuel.
      cbn [sum_list sum_list_with id] in Hfuel. lia.
    + rewrite E. rewrite <- app_comm_cons. simpl. by rewrite Hws.
    + exact Hc.
  - apply wf_Object in Hwf as [Hdup Hwf]. destruct l as [| [k x] more]; [reflexivity |].
    apply Forall_cons in IH as [Hx IH]. apply Forall_cons in Hwf as [Hwx Hwf].
    rewrite print_object_cons.
    destruct (parse_quote k (":" :: print x
                ++ flat_map (fun m => "," :: quote (fst m) ++ ":" :: print (snd m)) more
                ++ "}" :: rest)) as (body & E & _).
    rewrite (parse_value_object fuel _ dquote body).
    + apply parse_members_print with (acc := []); try assumption.
      cbn [size] in Hfuel. rewrite fmap_cons in Hfuel.
      cbn [sum_list sum_list_with id] in Hfuel. simpl in *. lia.
    + rewrite E. reflexivity.
    + reflexivity.
Qed.

Lemma flat_map_length_le {A} (f : A -> list ascii) (g : A -> nat) (l : list A) :
  Forall (fun x => (g x <= length (f x))%nat) l ->
  (sum_list (g <$> l) <= length (flat_map f l))%nat.
Proof.
  induction 1 as [| x l Hx _ IH]; [reflexivity |].
  rewrite fmap_cons. cbn [sum_list sum_list_with id flat_map].
  rewrite length_app. lia.
Qed.

Lemma size_le_length (v : value) : (size v <= length (print v))%nat.
Proof.
  induction v as [| b | n | s | l IH | l IH] using value_rect'.
  - simpl. lia.
  - destruct b; simpl; lia.
  - destruct (print_number_head n) as (c & s & E & _). cbn [print size]. rewrite E.
    simpl. lia.
  - simpl. lia.
  - destruct l as [| x more]; [simpl; lia |].
    apply Forall_cons in IH as [Hx IH].
    rewrite <- (app_nil_r (print _)), print_array_cons.
    cbn [size]. rewrite fmap_cons. cbn [sum_list sum_list_with id].
    assert (Hm : (sum_list ((fun y => S (size y)) <$> more)
                  <= length (flat_map (fun y => "," :: print y) more))%nat).
    { apply flat_map_length_le. eapply Forall_impl; [exact IH |].
      simpl. intros; lia. }
    set (F := flat_map _ more) in *.
    cbn [length]. rewrite !length_app. cbn [length]. lia.
  - destruct l as [| [k x] more]; [simpl; lia |].
    apply Forall_cons in IH as [Hx IH]. simpl in Hx.
    rewrite <- (app_nil_r (print _)), print_object_cons.
    cbn [size]. rewrite fmap_cons. cbn [sum_list sum_list_with id snd].
    assert (Hm : (sum_list ((fun m => S (size (snd m))) <$> more)
                  <= length (flat_map (fun m => "," :: quote (fst m) ++ ":" :: print (snd m))
                                      more))%nat).
    { apply flat_map_length_le. eapply Forall_impl; [exact IH |]. simpl. intros m Hm.
      rewrite length_app. simpl. lia. }
    set (F := flat_map _ more) in *. set (Q := quote k).
    cbn [length]. rewrite !length_app. cbn [length]. rewrite !length_app. cbn [length]. lia.
Qed.

Theorem parse_stringify (v : value) : wf v -> parse (stringify v) = inr v.
Proof.
  intros Hwf. unfold parse, stringify, chars.
  rewrite list_ascii_of_string_of_list_ascii.
  pose proof (parse_print v Hwf (S (length (print v))) []) as Hp.
  rewrite app_nil_r in Hp. rewrite Hp; [reflexivity | | reflexivity].
  pose proof (size_le_length v). lia.
Qed.
End JSONFacts.

(* ===================================================================== *)
(** * The standard serializer *)
(* ===================================================================== *)


(* ===================================================================== *)
(** * The scenarios, run *)
(* ===================================================================== *)


(** The etag scenario of the test suite: the revalidation is answered 304. *)
Lemma not_modified_merge_witness :
  exists merged,
    out_result (fst (handlers.standard (H := Node.env) (get_request "http://example.com/etag")
                       etag_cached (answers not_modified) (world_at 1001000 [])))
    = inr (Cached merged) /\
    Response.body (CachedResponse.response merged) = JSON.Str "success" /\
    Response.status (CachedResponse.response merged) = 304 /\
    Response.statusText (CachedResponse.response merged) = "Not Modified"%string.
Proof.
  destruct (not_modified_merge (H := Node.env) (get_request "http://example.com/etag")
              etag_cached (answers not_modified) (world_at 1001000 []) not_modified)
    as [(merged & Hres & Hbody & _ & _ & Hstatus & Htext) _];
    [reflexivity | reflexivity | reflexivity |].
  exists merged. repeat split; assumption.
Defined.

(** The unavailable scenario: the network is down, or answers 502, and the
    stale entry is served. *)
Lemma stale_fallback_witness :
  plugin.handle (H := Node.env) default_options (get_request "http://example.com/etag")
                offline (etag_world 1001000)
  = (inr (Cached etag_cached),
     log (Forwarded (handlers.conditional (H := Node.env)
                       (get_request "http://example.com/etag") etag_cached))
         (etag_world 1001000)) /\
  fst (plugin.handle (H := Node.env) default_options (get_request "http://example.com/etag")
                     (answers bad_gateway) (etag_world 1001000))
  = inr (Cached etag_cached).
Proof.
  assert (Hlookup : lookup default_options
                           (get_request "http://example.com/etag") (etag_world 1001000)
                           etag_entry (JSON.Str "success")).
  { repeat split; vm_compute; reflexivity. }
  split.
  - apply (stale_fallback (H := Node.env) default_options _ offline _ _ _ Hlookup);
      [discriminate | reflexivity | | reflexivity].
    apply revalidate_iff. reflexivity.
  - assert (Hstale : Options.staleFallback default_options <> Some false) by discriminate.
    destruct (stale_fallback (H := Node.env) default_options _ (answers bad_gateway) _ _ _
                Hlookup Hstale) as [Hgen _].
    rewrite (Hgen _ _ eq_refl); reflexivity.
Defined.


(** C5 as stated does not hold: a fresh entry recorded with an absent value
    for [Accept-Encoding] is served to a request that has no such header. *)
Lemma absent_vary_value_served_without_header :
  ~ (forall req (cache : CachedResponse.t JSON.value) next w k,
        time_fresh (H := Node.env) cache w ->
        (k, None) ∈ CachedResponse.varyHeaders cache ->
        FRESH_HIT (H := Node.env) req cache next w ->
        is_Some (Request.get (H := Node.env) req k)).
Proof.
  intros Hclaim.
  specialize (Hclaim (get_request "http://example.com/vary")
                     (gzip_entry [("Accept-Encoding"%string, None)])
                     offline (world_at 1001000 []) "Accept-Encoding"%string).
  destruct Hclaim as [v Hv].
  - reflexivity.
  - apply list_elem_of_here.
  - reflexivity.
  - vm_compute in Hv. discriminate.
Qed.

Lemma absent_vary_value_needs_absent_header_witness :
  Request.get (H := Node.env) (get_request "http://example.com/vary") "Accept-Encoding" = None.
Proof.
  apply (absent_vary_value_needs_absent_header (H := Node.env)
           (get_request "http://example.com/vary")
           (gzip_entry [("Accept-Encoding"%string, None)])
           offline (world_at 1001000 []) "Accept-Encoding"%string).
  - reflexivity.
  - apply list_elem_of_here.
  - reflexivity.
Defined.

(** C6 as stated does not hold: for a response whose [Expires] is earlier
    than its [Date], the default TTL policy computes a negative TTL, and
    that TTL is what the store's [set] is called with. *)
Lemma negative_ttl_stored :
  exists id entry ttl,
    trace (snd (plugin.forceUpdate (H := Node.env) default_options
                  (get_request "http://example.com/expired")
                  (answers expired_response) (world_at 1793664000000 [])))
    = [Forwarded (get_request "http://example.com/expired"); StoreSet id entry ttl] /\
    ttl = ttls.standard (H := Node.env) (Num.of_Z 0) one_year
            (get_request "http://example.com/expired") expired_response /\
    Num.nonneg ttl = false.
Proof.
  do 3 eexists. split; [| split].
  - vm_compute. reflexivity.
  - vm_compute. reflexivity.
  - vm_compute. reflexivity.
Qed.

Lemma ttl_nonneg_when_fresh_witness :
  Num.nonneg (ttls.standard (H := Node.env) (Num.of_Z 0) one_year
                (get_request "http://example.com/cache-control")
                (CachedResponse.response max_age_300)) = true.
Proof.
  destruct (ttl_nonneg_when_fresh (H := Node.env) (Num.of_Z 0) one_year
              (get_request "http://example.com/cache-control")
              (CachedResponse.response max_age_300)) as (_ & Hmax & _);
    [reflexivity | reflexivity |].
  apply (Hmax (Num.of_Z 300000)). vm_compute. reflexivity.
Defined.

(** Eleven bytes against a cap of ten, and against a cap of eleven. *)
Lemma stream_cap_witness :
  stream.stringify (H := Node.env) 10 (Stream eleven_bytes)
  = inr (Stream eleven_bytes, mkCallback None None) /\
  stream.stringify (H := Node.env) 11 (Stream eleven_bytes)
  = inr (Stream eleven_bytes, mkCallback None (Some "aGVsbG8gd29ybGQ="%string)).
Proof.
  split.
  - apply (stream_cap (H := Node.env) 10 eleven_bytes); reflexivity.
  - apply (stream_cap (H := Node.env) 11 eleven_bytes); [reflexivity | vm_compute; discriminate].
Defined.


(** The uncacheable scenario: a 404 on a miss comes back as it is. *)
Lemma declined_response_not_stored_witness :
  plugin.handle (H := Node.env) default_options (get_request "http://example.com/no")
                (answers not_found) (world_at 1000000 [])
  = (inr (Plain not_found),
     log (Forwarded (get_request "http://example.com/no")) (world_at 1000000 [])).
Proof.
  apply (declined_response_not_stored (H := Node.env) default_options
           (get_request "http://example.com/no") (answers not_found) (world_at 1000000 []));
    try reflexivity.
  left. discriminate.
Defined.

(** The request asks for gzip; the entry records what the response says. *)
Lemma vary_headers_from_response_witness :
  CacheItem.varyHeaders varying_entry
  = [("Accept-Encoding"%string, None); ("Content-Type"%string, Some "text/plain"%string)].
Proof.
  destruct (vary_headers_from_response (H := Node.env) default_options
              "json~GET~http://example.com/vary" gzip_request varying_response
              (world_at 1000000 [])
              [StoreSet "json~GET~http://example.com/vary" varying_entry
                        (plugin.ttl (H := Node.env) default_options gzip_request
                                    varying_response)]
              "json~GET~http://example.com/vary" varying_entry
              (plugin.ttl (H := Node.env) default_options gzip_request varying_response))
    as (Hvary & _).
  - reflexivity.
  - apply list_elem_of_here.
  - rewrite Hvary. vm_compute. reflexivity.
Defined.

(* ===================================================================== *)
(** * The orchestrator: hits, failures and writes *)
(* ===================================================================== *)

Section Hits.
Context `{Env} {B : Type}.
Implicit Types (options : Options.t B) (req : Request.t) (res : Response.t B)
  (cache : CachedResponse.t B) (next : Next B) (w : World).

Lemma default_handler options :
  Options.handler options = None -> plugin.handler options = handlers.standard.
Proof. intros E. unfold plugin.handler. by rewrite E. Qed.

(** X1. When the store holds an entry for the request and the standard
    handler finds it fresh, [handle] resolves to the cached response and
    leaves the world as it is: nothing is forwarded, and the entry is not
    written to the store again. *)
Theorem fresh_hit_untouched options req next w result body :
  lookup options req w result body ->
  Options.handler options = None ->
  FRESH_HIT req (plugin.reconstruct result body) next w ->
  plugin.handle options req next w = (inr (Cached (plugin.reconstruct result body)), w).
Proof.
  intros Hlookup Hdefault Hfresh.
  rewrite (handle_on_hit _ _ _ _ _ _ Hlookup). cbv zeta.
  rewrite (default_handler _ Hdefault). unfold FRESH_HIT in Hfresh. rewrite Hfresh.
  cbn [out_result out_cache as_response].
  by destruct (plugin.staleFallback options && _).
Qed.

(** X2. With the handler [handlers.always], [handle] resolves to the
    cached response whenever the store holds an entry for the request,
    whatever its age and its headers; nothing is forwarded and nothing is
    written. *)
Theorem always_handler_serves_cache options req next w result body :
  lookup options req w result body ->
  Options.handler options = Some handlers.always ->
  plugin.handle options req next w = (inr (Cached (plugin.reconstruct result body)), w).
Proof.
  intros Hlookup Halways.
  rewrite (handle_on_hit _ _ _ _ _ _ Hlookup). cbv zeta.
  unfold plugin.handler. rewrite Halways. simpl.
  by destruct (_ && _).
Qed.

(** X3. When the revalidation of a stored entry is answered 304,
    [handle] resolves to the cached response with the status and the status
    text of the answer, and the only call that leaves the plugin is the
    forwarded one: the entry is not written back. *)
Theorem not_modified_not_stored options req next w result body res :
  lookup options req w result body ->
  Options.handler options = None ->
  let response := plugin.reconstruct result body in
  REVALIDATE req response next w ->
  next (handlers.conditional req response) = inr res ->
  Response.status res = 304 ->
  plugin.handle options req next w
  = (inr (Cached (CachedResponse.with_status response 304 (Response.statusText res))),
     log (Forwarded (handlers.conditional req response)) w).
Proof.
  intros Hlookup Hdefault response Hreval Hnext Hst.
  apply revalidate_iff in Hreval.
  rewrite (handle_on_hit _ _ _ _ _ _ Hlookup). cbv zeta. fold response.
  rewrite (default_handler _ Hdefault).
  rewrite (standard_on_304 _ _ _ _ _ Hreval Hnext Hst). cbv zeta.
  cbn [out_result out_cache as_response]. rewrite Hst.
  replace (Response.statusType _ =? 5) with false by reflexivity.
  by rewrite andb_false_r.
Qed.

(** X4. When the revalidation of a stored entry fails with an error
    whose code is not EUNAVAILABLE, or with any error while staleFallback
    is switched off, [handle] rejects with that error. *)
Theorem other_errors_rethrown options req next w result body err :
  lookup options req w result body ->
  Options.handler options = None ->
  let response := plugin.reconstruct result body in
  REVALIDATE req response next w ->
  next (handlers.conditional req response) = inl err ->
  code err <> Some "EUNAVAILABLE"%string \/ Options.staleFallback options = Some false ->
  plugin.handle options req next w
  = (inl err, log (Forwarded (handlers.conditional req response)) w).
Proof.
  intros Hlookup Hdefault response Hreval Hnext Hwhy.
  apply revalidate_iff in Hreval.
  rewrite (handle_on_hit _ _ _ _ _ _ Hlookup). cbv zeta. fold response.
  rewrite (default_handler _ Hdefault).
  unfold handlers.standard, forward. rewrite Hreval, Hnext.
  cbn [out_result].
  replace (bool_decide _ && plugin.staleFallback options) with false; [reflexivity |].
  symmetry. apply andb_false_iff. destruct Hwhy as [Hcode | Hoff].
  - left. by apply bool_decide_eq_false.
  - right. unfold plugin.staleFallback. rewrite Hoff. reflexivity.
Qed.

(** X5. With staleFallback switched off and the standard cacheable
    policy, a 5xx answer to the revalidation of a stored entry is what
    [handle] resolves to, as the network gave it, and it is not stored. *)
Theorem server_error_without_fallback options req next w result body res :
  lookup options req w result body ->
  Options.handler options = None ->
  Options.cacheable options = None ->
  Options.staleFallback options = Some false ->
  let response := plugin.reconstruct result body in
  REVALIDATE req response next w ->
  next (handlers.conditional req response) = inr res ->
  Response.statusType res = 5 ->
  plugin.handle options req next w
  = (inr (Plain res), log (Forwarded (handlers.conditional req response)) w).
Proof.
  intros Hlookup Hdefault Hpolicy Hoff response Hreval Hnext Hclass.
  apply revalidate_iff in Hreval.
  assert (Hst : Response.status res <> 200 /\ (Response.status res =? 304) = false).
  { unfold Response.statusType in Hclass. split.
    - intros E. rewrite E in Hclass. vm_compute in Hclass. discriminate.
    - apply Z.eqb_neq. intros E. rewrite E in Hclass. vm_compute in Hclass. discriminate. }
  destruct Hst as [H200 H304].
  rewrite (handle_on_hit _ _ _ _ _ _ Hlookup). cbv zeta. fold response.
  rewrite (default_handler _ Hdefault).
  unfold handlers.standard, forward. rewrite Hreval, Hnext, H304.
  cbn [out_result out_req as_response].
  unfold plugin.staleFallback at 1. rewrite Hoff. cbn [bool_decide negb andb].
  rewrite bool_decide_eq_true_2 by reflexivity. cbn [negb andb].
  unfold bind. rewrite shouldCache_declined; [reflexivity |].
  unfold plugin.cacheable. rewrite Hpolicy. simpl. apply standard_declines. by left.
Qed.

(** X6. When the store fails to read, or the serializer cannot parse
    the body of the stored entry, [handle] rejects with that error and
    nothing is forwarded: there is no fallback on the network. *)
Theorem lookup_failure_rejects options req next w e :
  read_fault w = Some e \/
  (read_fault w = None /\
   exists result,
     store w !! plugin.getId options (plugin.serializer options) req = Some result /\
     parse (plugin.serializer options) (CacheItem.body (item result)) = inl e) ->
  plugin.handle options req next w = (inl e, w).
Proof.
  intros [Hread | (Hread & result & Hstore & Hparse)].
  - unfold plugin.handle, bind, cache_get. by rewrite Hread.
  - unfold plugin.handle, bind at 1, cache_get. rewrite Hread, Hstore.
    unfold bind at 1. by rewrite Hparse.
Qed.

Lemma shouldCache_stores options id req res w body contents :
  plugin.cacheable options req res = true ->
  stringify (plugin.serializer options) (Response.body res)
  = inr (body, mkCallback None (Some contents)) ->
  write_fault w = None ->
  let res' := Response.set_body res body in
  let entry := plugin.make_item contents res' in
  let ttl := plugin.ttl options req res' in
  plugin.shouldCache options id req res w
  = (inr res',
     mkWorld (<[id := mkStored entry ttl (now w)]> (store w)) (now w)
             (read_fault w) (write_fault w) (trace w ++ [StoreSet id entry ttl])).
Proof.
  intros Hc Hs Hw. cbv zeta. unfold plugin.shouldCache. rewrite Hc, Hs. cbn [negb].
  unfold bind, plugin.setCache. cbn [cb_err cb_value].
  unfold catching, cache_set. cbn [write_fault log]. rewrite Hw. reflexivity.
Qed.

(** X7. When the store refuses the write, [shouldCache] still resolves
    to the response; the error goes to the error sink and the store is left
    as it was. *)
Theorem write_failure_sunk options id req res w e body contents :
  plugin.cacheable options req res = true ->
  stringify (plugin.serializer options) (Response.body res)
  = inr (body, mkCallback None (Some contents)) ->
  write_fault w = Some e ->
  let res' := Response.set_body res body in
  plugin.shouldCache options id req res w
  = (inr res',
     log (Sunk e)
         (log (StoreSet id (plugin.make_item contents res') (plugin.ttl options req res')) w)).
Proof.
  intros Hc Hs Hw. cbv zeta. unfold plugin.shouldCache. rewrite Hc, Hs. cbn [negb].
  unfold bind, plugin.setCache. cbn [cb_err cb_value].
  unfold catching, cache_set. cbn [write_fault log]. rewrite Hw. reflexivity.
Qed.


End Hits.

Section RoundTrip.
Context `{Env}.

End RoundTrip.

(* ===================================================================== *)
(** * The standard handler: the other freshness rules *)
(* ===================================================================== *)

Module WindowFacts.

Lemma lt_stored_expires (now stored e d : Z) :
  Num.lt (Num.of_Z now)
         (Num.add (Num.of_Z stored) (Num.sub (Num.of_Z e) (Num.of_Z d)))
  = (now <? stored + (e - d)).
Proof.
  rewrite <- NumFacts.lt_of_Z. unfold Num.lt, Num.add, Num.sub, Num.neg, Num.of_Z.
  f_equal. apply Qleb_comp; [| reflexivity].
  unfold Z.sub. rewrite !inject_Z_plus, inject_Z_opp. reflexivity.
Qed.

Lemma lt_stored_heuristic (now stored d l : Z) :
  Num.lt (Num.of_Z now)
         (Num.add (Num.of_Z stored) (Num.div10 (Num.sub (Num.of_Z d) (Num.of_Z l))))
  = (10 * (now - stored) <? d - l).
Proof.
  cbv [Num.lt Num.add Num.sub Num.neg Num.div10 Num.of_Z].
  destruct (Qle_bool _ _) eqn:E; cbn [negb]; symmetry.
  - apply Qle_bool_iff in E. apply Z.ltb_ge.
    unfold Qle, Qplus, Qdiv, Qmult, Qinv, Qopp, inject_Z in E. simpl in E. lia.
  - apply Z.ltb_lt. destruct (Z.lt_ge_cases (10 * (now - stored)) (d - l)) as [Hlt | Hge];
      [exact Hlt |].
    exfalso. apply not_true_iff_false in E. apply E. apply Qle_bool_iff.
    unfold Qle, Qplus, Qdiv, Qmult, Qinv, Qopp, inject_Z. simpl. lia.
Qed.

Lemma lt_NaN_r (a b : number) : Num.lt a (Num.add b Num.NaN) = false.
Proof. by destruct a, b. Qed.

End WindowFacts.

Section FreshnessRules.
Context `{Env} {B : Type}.
Implicit Types (req : Request.t) (cache : CachedResponse.t B) (next : Next B) (w : World)
  (r : Response.t B).

Lemma truthy_Some (s : string) : s <> ""%string -> truthy (Some s) = true.
Proof. intros Hs. simpl. apply negb_true_iff. by apply String.eqb_neq. Qed.

Lemma no_cache_control r :
  truthy (Response.get r "Cache-Control") = false ->
  getCacheControl r = mkCacheControl None None None None.
Proof. intros Hcc. unfold getCacheControl. by rewrite Hcc. Qed.

Lemma getExpiresIn_dates r e d :
  Response.get r "Expires" = Some e -> e <> ""%string ->
  Response.get r "Date" = Some d -> d <> ""%string ->
  getExpiresIn r = Some (Num.sub (parse_date e) (parse_date d)).
Proof.
  intros He Hne Hd Hnd. unfold getExpiresIn. rewrite He, Hd.
  by rewrite !truthy_Some.
Qed.

Lemma getExpiresIn_absent r :
  truthy (Response.get r "Expires") = false \/ truthy (Response.get r "Date") = false ->
  getExpiresIn r = None.
Proof.
  intros Hno. unfold getExpiresIn.
  destruct (Response.get r "Expires") as [e |], (Response.get r "Date") as [d |];
    try reflexivity.
  destruct Hno as [-> | ->]; [reflexivity | by rewrite orb_true_r].
Qed.

Lemma getLastModifiedExpiration_dates r l d :
  Response.get r "Last-Modified" = Some l -> l <> ""%string ->
  Response.get r "Date" = Some d -> d <> ""%string ->
  getLastModifiedExpiration r = Some (Num.div10 (Num.sub (parse_date d) (parse_date l))).
Proof.
  intros Hl Hnl Hd Hnd. unfold getLastModifiedExpiration. rewrite Hl, Hd.
  by rewrite !truthy_Some.
Qed.

Lemma getLastModifiedExpiration_absent r :
  truthy (Response.get r "Last-Modified") = false \/ truthy (Response.get r "Date") = false ->
  getLastModifiedExpiration r = None.
Proof.
  intros Hno. unfold getLastModifiedExpiration.
  destruct (Response.get r "Last-Modified") as [l |], (Response.get r "Date") as [d |];
    try reflexivity.
  destruct Hno as [-> | ->]; [reflexivity | by rewrite orb_true_r].
Qed.

Lemma parse_date_Some (s : string) (ms : Z) :
  Date_parse s = Some ms -> parse_date s = Num.of_Z ms.
Proof. intros E. unfold parse_date. by rewrite E. Qed.

Lemma sub_NaN (a b : number) : a = Num.NaN \/ b = Num.NaN -> Num.sub a b = Num.NaN.
Proof. intros [-> | ->]; [reflexivity | by destruct a]. Qed.

Lemma parse_date_None (s : string) : Date_parse s = None -> parse_date s = Num.NaN.
Proof. intros E. unfold parse_date. by rewrite E. Qed.

(** X11. For a stored entry without Cache-Control whose Expires and
    Date headers parse, the standard handler serves it from the cache
    exactly while [now < stored + (Expires - Date)]; from then on it
    revalidates. *)
Theorem expires_window req cache next w e d E D :
  let r := CachedResponse.response cache in
  truthy (Response.get r "Cache-Control") = false ->
  Response.get r "Expires" = Some e -> e <> ""%string ->
  Response.get r "Date" = Some d -> d <> ""%string ->
  Date_parse e = Some E -> Date_parse d = Some D ->
  handlers.varies req cache = false ->
  (FRESH_HIT req cache next w <-> now w < CachedResponse.stored cache + (E - D)) /\
  (REVALIDATE req cache next w <-> CachedResponse.stored cache + (E - D) <= now w).
Proof.
  intros r Hcc He Hne Hd Hnd HE HD Hv.
  assert (Hn : handlers.novalidate (Num.of_Z (now w)) cache
               = (now w <? CachedResponse.stored cache + (E - D))).
  { unfold handlers.novalidate. fold r.
    rewrite (no_cache_control r Hcc), (getExpiresIn_dates r e d He Hne Hd Hnd).
    rewrite (parse_date_Some e E HE), (parse_date_Some d D HD).
    cbn [immutable noCache maxAge istrue orb negb].
    apply WindowFacts.lt_stored_expires. }
  split.
  - rewrite fresh_hit_iff, Hv, Hn. cbn [negb]. rewrite andb_true_r. apply Z.ltb_lt.
  - rewrite revalidate_iff, Hv, Hn. cbn [negb]. rewrite andb_true_r. apply Z.ltb_ge.
Qed.

(** X12. For a stored entry with neither Cache-Control nor Expires
    whose Last-Modified and Date headers parse, the standard handler serves
    it from the cache exactly while the age of the entry is less than a
    tenth of [Date - Last-Modified]; from then on it revalidates. *)
Theorem last_modified_window req cache next w l d L D :
  let r := CachedResponse.response cache in
  truthy (Response.get r "Cache-Control") = false ->
  truthy (Response.get r "Expires") = false ->
  Response.get r "Last-Modified" = Some l -> l <> ""%string ->
  Response.get r "Date" = Some d -> d <> ""%string ->
  Date_parse l = Some L -> Date_parse d = Some D ->
  handlers.varies req cache = false ->
  (FRESH_HIT req cache next w <-> 10 * (now w - CachedResponse.stored cache) < D - L) /\
  (REVALIDATE req cache next w <-> D - L <= 10 * (now w - CachedResponse.stored cache)).
Proof.
  intros r Hcc Hex Hl Hnl Hd Hnd HL HD Hv.
  assert (Hn : handlers.novalidate (Num.of_Z (now w)) cache
               = (10 * (now w - CachedResponse.stored cache) <? D - L)).
  { unfold handlers.novalidate. fold r.
    rewrite (no_cache_control r Hcc), (getExpiresIn_absent r (or_introl Hex)).
    rewrite (getLastModifiedExpiration_dates r l d Hl Hnl Hd Hnd).
    rewrite (parse_date_Some l L HL), (parse_date_Some d D HD).
    cbn [immutable noCache maxAge istrue orb negb].
    apply WindowFacts.lt_stored_heuristic. }
  split.
  - rewrite fresh_hit_iff, Hv, Hn. cbn [negb]. rewrite andb_true_r. apply Z.ltb_lt.
  - rewrite revalidate_iff, Hv, Hn. cbn [negb]. rewrite andb_true_r. apply Z.ltb_ge.
Qed.

(** X13. A stored entry without max-age whose Expires (or, when it
    has no Expires, Last-Modified) or Date header is not a date that
    [Date.parse] understands is never fresh: the standard handler always
    revalidates it. *)
Theorem unparsable_date_revalidates req cache next w d :
  let r := CachedResponse.response cache in
  maxAge (getCacheControl r) = None ->
  Response.get r "Date" = Some d -> d <> ""%string ->
  (exists e, Response.get r "Expires" = Some e /\ e <> ""%string /\
             (Date_parse e = None \/ Date_parse d = None)) \/
  (truthy (Response.get r "Expires") = false /\
   exists l, Response.get r "Last-Modified" = Some l /\ l <> ""%string /\
             (Date_parse l = None \/ Date_parse d = None)) ->
  REVALIDATE req cache next w.
Proof.
  intros r Hmax Hd Hnd Hbad. apply revalidate_iff. apply andb_false_iff. left.
  unfold handlers.novalidate. fold r. rewrite Hmax.
  destruct (istrue (immutable (getCacheControl r)) || negb _); [| reflexivity].
  destruct Hbad as [(e & He & Hne & Hnan) | (Hex & l & Hl & Hnl & Hnan)].
  - rewrite (getExpiresIn_dates r e d He Hne Hd Hnd).
    rewrite sub_NaN; [apply WindowFacts.lt_NaN_r |].
    destruct Hnan as [E | E]; [left | right]; by apply parse_date_None.
  - rewrite (getExpiresIn_absent r (or_introl Hex)).
    rewrite (getLastModifiedExpiration_dates r l d Hl Hnl Hd Hnd).
    rewrite sub_NaN; [apply WindowFacts.lt_NaN_r |].
    destruct Hnan as [E | E]; [right | left]; by apply parse_date_None.
Qed.

(** X14. A stored entry with no Cache-Control and no way to compute
    an expiration (no Date, or neither Expires nor Last-Modified) is served
    from the cache at any time, as long as no vary pair disqualifies it. *)
Theorem no_freshness_information_never_revalidated req cache next w :
  let r := CachedResponse.response cache in
  truthy (Response.get r "Cache-Control") = false ->
  truthy (Response.get r "Date") = false \/
  (truthy (Response.get r "Expires") = false /\
   truthy (Response.get r "Last-Modified") = false) ->
  handlers.varies req cache = false ->
  FRESH_HIT req cache next w.
Proof.
  intros r Hcc Hno Hv. apply standard_fresh; [| exact Hv].
  unfold handlers.novalidate. fold r. rewrite (no_cache_control r Hcc).
  rewrite getExpiresIn_absent, getLastModifiedExpiration_absent; [reflexivity | |];
    destruct Hno as [Hd | [He Hl]]; auto.
Qed.

Lemma test_nonempty (re : Regex.regex) (cc : string) :
  Regex.match_here true re None [] = None ->
  Regex.test true re cc = true -> truthy (Some cc) = true.
Proof.
  intros Hre Ht. destruct cc; [| reflexivity].
  unfold Regex.test in Ht. cbn in Ht. rewrite Hre in Ht. discriminate.
Qed.

(** X15. [no-cache] without [immutable] forces revalidation, and so
    does [must-revalidate] whenever a max-age is given (even inside the
    max-age window) or no expiration can be computed at all. *)
Theorem directives_force_revalidation req cache next w cc :
  let r := CachedResponse.response cache in
  Response.get r "Cache-Control" = Some cc ->
  (Regex.test true Regex.re_no_cache cc = true /\
   Regex.test true Regex.re_immutable cc = false) \/
  (Regex.test true Regex.re_must_revalidate cc = true /\
   (is_Some (Regex.exec true Regex.re_max_age cc) \/
    (getExpiresIn r = None /\ getLastModifiedExpiration r = None))) ->
  REVALIDATE req cache next w.
Proof.
  intros r Hcc Hdir. apply revalidate_iff. apply andb_false_iff. left.
  assert (Htruthy : truthy (Some cc) = true).
  { destruct Hdir as [[Ht _] | [Ht _]]; eapply test_nonempty; try exact Ht; reflexivity. }
  unfold handlers.novalidate, getCacheControl. fold r. rewrite Hcc, Htruthy.
  cbn [fmap option_fmap option_map mbind option_bind immutable noCache maxAge mustRevalidate
       istrue].
  destruct Hdir as [[Hnc Him] | [Hmr Hwhen]].
  - rewrite Hnc, Him. reflexivity.
  - rewrite Hmr. destruct (_ || _); [| reflexivity].
    destruct Hwhen as [[ds Hds] | [He Hl]].
    + rewrite Hds. cbn [negb]. apply andb_false_r.
    + destruct (Regex.exec _ _ _); [cbn [negb]; apply andb_false_r |].
      fold r in He, Hl. unfold getCacheControl in *.
      rewrite He, Hl. reflexivity.
Qed.

(** X16. [immutable] overrides [no-cache]: with [immutable] and
    max-age=N, and without must-revalidate, the entry is served from the
    cache exactly while [now < stored + N * 1000], whether [no-cache] is
    there or not. *)
Theorem immutable_overrides_no_cache req cache next w cc ds :
  let r := CachedResponse.response cache in
  Response.get r "Cache-Control" = Some cc ->
  Regex.test true Regex.re_immutable cc = true ->
  Regex.test true Regex.re_must_revalidate cc = false ->
  Regex.exec true Regex.re_max_age cc = Some ds ->
  handlers.varies req cache = false ->
  (FRESH_HIT req cache next w
   <-> now w < CachedResponse.stored cache + Regex.parseInt ds * 1000).
Proof.
  intros r Hcc Him Hmr Hds Hv.
  assert (Htruthy : truthy (Some cc) = true).
  { eapply test_nonempty; [| exact Him]. reflexivity. }
  rewrite fresh_hit_iff, Hv. cbn [negb]. rewrite andb_true_r.
  unfold handlers.novalidate, getCacheControl. fold r. rewrite Hcc, Htruthy.
  cbn [fmap option_fmap option_map mbind option_bind immutable noCache maxAge mustRevalidate
       istrue].
  rewrite Him, Hmr, Hds. cbn [orb negb]. rewrite andb_true_r.
  rewrite NumFacts.lt_stored_max_age. apply Z.ltb_lt.
Qed.
End FreshnessRules.

(* ===================================================================== *)
(** * Reading the headers *)
(* ===================================================================== *)

Module CaseFacts.
Import Regex.

Lemma to_lower_idem (c : ascii) : to_lower (to_lower c) = to_lower c.
Proof. destruct c as [[] [] [] [] [] [] [] []]; reflexivity. Qed.

Lemma is_word_lower (c : ascii) : is_word_char (to_lower c) = is_word_char c.
Proof. destruct c as [[] [] [] [] [] [] [] []]; reflexivity. Qed.

Lemma is_digit_lower (c : ascii) : is_digit (to_lower c) = is_digit c.
Proof. destruct c as [[] [] [] [] [] [] [] []]; reflexivity. Qed.

Lemma digit_lower (c : ascii) : is_digit c = true -> to_lower c = c.
Proof. destruct c as [[] [] [] [] [] [] [] []]; (reflexivity || discriminate). Qed.

Lemma chr_eq_lower (c a : ascii) : chr_eq true c (to_lower a) = chr_eq true c a.
Proof. unfold chr_eq. by rewrite to_lower_idem. Qed.

Lemma is_word_lower_option (o : option ascii) : is_word (to_lower <$> o) = is_word o.
Proof. destruct o; [apply is_word_lower | reflexivity]. Qed.

Lemma head_lower (s : list ascii) : head (to_lower <$> s) = to_lower <$> head s.
Proof. by destruct s. Qed.

(** Matching without regard to case sees a subject and its lower-case
    reading alike. *)
Lemma match_here_lower (re : regex) :
  forall prev s,
    match_here true re (to_lower <$> prev) (to_lower <$> s)
    = lower_matched <$> match_here true re prev s.
Proof.
  induction re as [| a re IH]; intros prev s.
  - reflexivity.
  - destruct a as [c | c | |].
    + destruct s as [| a s]; [reflexivity |].
      cbn [match_here fmap list_fmap]. rewrite chr_eq_lower.
      destruct (chr_eq true c a); [| reflexivity].
      apply (IH (Some a) s).
    + revert prev. induction s as [| a s IHs]; intros prev.
      * cbn [match_here fmap list_fmap]. exact (IH prev []).
      * cbn [match_here fmap list_fmap]. rewrite chr_eq_lower.
        destruct (chr_eq true c a).
        -- specialize (IHs (Some a)). cbn [match_here fmap option_fmap option_map] in IHs.
           rewrite IHs.
           destruct ((fix star (prev0 : option ascii) (s0 : list ascii) {struct s0} :=
                        _) (Some a) s) as [m |]; [reflexivity |].
           apply (IH prev (a :: s)).
        -- apply (IH prev (a :: s)).
    + cbn [match_here]. rewrite is_word_lower_option, head_lower, is_word_lower_option.
      destruct (xorb _ _); [apply IH | reflexivity].
    + cbn [match_here]. clear prev. induction s as [| d s IHs]; [reflexivity |].
      cbn [fmap list_fmap]. rewrite is_digit_lower.
      destruct (is_digit d); [| reflexivity].
      cbn [fmap list_fmap] in IHs. rewrite IHs.
      destruct ((fix digits (s0 : list ascii) := _) s) as [m |]; [reflexivity |].
      cbn [fmap option_fmap option_map].
      pose proof (IH (Some d) s) as Hre. cbn [fmap option_fmap option_map] in Hre.
      rewrite Hre. by destruct (match_here true re (Some d) s).
Qed.

Lemma search_lower (re : regex) (s : list ascii) :
  forall prev,
    search true re (to_lower <$> prev) (to_lower <$> s)
    = lower_matched <$> search true re prev s.
Proof.
  induction s as [| a s IH]; intros prev.
  - cbn [search fmap list_fmap]. pose proof (match_here_lower re prev []) as Hm.
    cbn [fmap list_fmap] in Hm. rewrite Hm. by destruct (match_here true re prev []).
  - pose proof (match_here_lower re prev (a :: s)) as Hm.
    cbn [search fmap list_fmap] in Hm |- *. rewrite Hm.
    destruct (match_here true re prev (a :: s)); [reflexivity |].
    apply (IH (Some a)).
Qed.

(** The group of a match is a run of digits. *)
Lemma group_digits (icase : bool) (re : regex) :
  forall prev s m, match_here icase re prev s = Some m -> Forall digit_char (group m).
Proof.
  induction re as [| a re IH]; intros prev s m.
  - intros [= <-]. constructor.
  - destruct a as [c | c | |].
    + destruct s as [| a s]; [discriminate |]. cbn [match_here].
      destruct (chr_eq icase c a); [apply IH | discriminate].
    + revert prev. induction s as [| a s IHs]; intros prev.
      * cbn [match_here]. apply IH.
      * cbn [match_here]. destruct (chr_eq icase c a).
        -- specialize (IHs (Some a)). cbn [match_here] in IHs.
           destruct ((fix star (prev0 : option ascii) (s0 : list ascii) {struct s0} :=
                        _) (Some a) s) as [m' |].
           ++ intros [= <-]. by apply IHs.
           ++ apply IH.
        -- apply IH.
    + cbn [match_here]. destruct (xorb _ _); [apply IH | discriminate].
    + cbn [match_here]. clear prev. revert m. induction s as [| d s IHs]; [discriminate |].
      intros m. destruct (is_digit d) eqn:Hd; [| discriminate].
      destruct ((fix digits (s0 : list ascii) := _) s) as [m' |].
      * intros [= <-]. cbn [group]. constructor; [exact Hd | by apply IHs].
      * destruct (match_here icase re (Some d) s); [| discriminate].
        intros [= <-]. cbn [group]. by repeat constructor.
Qed.

Lemma search_group_digits (icase : bool) (re : regex) (s : list ascii) :
  forall prev m, search icase re prev s = Some m -> Forall digit_char (group m).
Proof.
  induction s as [| a s IH]; intros prev m; cbn [search].
  - destruct (match_here icase re prev []) eqn:E; [| discriminate].
    intros [= <-]. by eapply group_digits.
  - destruct (match_here icase re prev (a :: s)) eqn:E.
    + intros [= <-]. by eapply group_digits.
    + apply IH.
Qed.

Lemma lower_digits (ds : list ascii) : Forall digit_char ds -> to_lower <$> ds = ds.
Proof.
  induction 1 as [| d ds Hd _ IH]; [reflexivity |].
  cbn [fmap list_fmap]. cbn [fmap list_fmap] in IH. by rewrite IH, (digit_lower d Hd).
Qed.

Lemma chars_lower (s : string) :
  list_ascii_of_string (lower s) = to_lower <$> list_ascii_of_string s.
Proof. induction s as [| c s IH]; [reflexivity |]. simpl. by rewrite IH. Qed.

Lemma exec_lower (re : regex) (s : string) :
  exec true re (lower s) = exec true re s.
Proof.
  unfold exec. rewrite chars_lower.
  pose proof (search_lower re (list_ascii_of_string s) None) as Hs.
  cbn [fmap option_fmap option_map] in Hs. rewrite Hs.
  destruct (search true re None (list_ascii_of_string s)) as [m |] eqn:E; [| reflexivity].
  cbn. f_equal. apply lower_digits. by eapply search_group_digits.
Qed.

Lemma test_lower (re : regex) (s : string) :
  test true re (lower s) = test true re s.
Proof.
  unfold test. rewrite chars_lower.
  pose proof (search_lower re (list_ascii_of_string s) None) as Hs.
  cbn [fmap option_fmap option_map] in Hs. rewrite Hs.
  by destruct (search true re None (list_ascii_of_string s)).
Qed.

Lemma lower_empty (s : string) : String.eqb (lower s) "" = String.eqb s "".
Proof. by destruct s. Qed.

End CaseFacts.

Section CacheControl.
Context `{Env} {B : Type}.

(** X17. The Cache-Control directives are read without regard to
    case: two header values that agree in lower case give the same max-age
    and the same flags. *)
Theorem cache_control_case_insensitive (r r' : Response.t B) (cc cc' : string) :
  Response.get r "Cache-Control" = Some cc ->
  Response.get r' "Cache-Control" = Some cc' ->
  Regex.lower cc = Regex.lower cc' ->
  getCacheControl r = getCacheControl r'.
Proof.
  intros Hcc Hcc' Hsame.
  assert (Hexec : forall re, Regex.exec true re cc = Regex.exec true re cc').
  { intros re. by rewrite <- (CaseFacts.exec_lower re cc), Hsame, CaseFacts.exec_lower. }
  assert (Htest : forall re, Regex.test true re cc = Regex.test true re cc').
  { intros re. by rewrite <- (CaseFacts.test_lower re cc), Hsame, CaseFacts.test_lower. }
  assert (Hempty : String.eqb cc "" = String.eqb cc' "").
  { by rewrite <- (CaseFacts.lower_empty cc), Hsame, CaseFacts.lower_empty. }
  unfold getCacheControl. rewrite Hcc, Hcc'. unfold truthy. rewrite Hempty.
  destruct (negb (String.eqb cc' "")); [| reflexivity].
  cbn [fmap option_fmap option_map mbind option_bind].
  by rewrite Hexec, !Htest.
Qed.
End CacheControl.

Section MaxAge.
Context `{Env} {B : Type}.

Lemma print_number_digits (n : Z) :
  0 <= n ->
  JSON.print_number n <> [] /\ Forall Regex.digit_char (JSON.print_number n) /\
  Regex.parseInt (JSON.print_number n) = n.
Proof.
  intros Hn. destruct n as [| p | p]; [| | lia].
  - repeat split; [discriminate | by repeat constructor].
  - cbn [JSON.print_number]. split; [| split].
    + destruct (JSONFacts.to_uint_head p) as (c & ds & E & _). rewrite E. discriminate.
    + apply JSONFacts.digits_of_uint_digits.
    + rewrite JSONFacts.parseInt_digits, DecimalPos.Unsigned.of_to. reflexivity.
Qed.

End MaxAge.

Module SplitFacts.
Import Regex.

(** The greedy star over spaces, followed by something that matches right
    after them. *)
Lemma star_spaces (re : regex) (a : nat) (prev : option ascii) (s : list ascii)
  (m : matched) :
  no_space_ahead s ->
  match_here false re (if a is O then prev else Some " "%char) s = Some m ->
  match_here false (Star " " :: re) prev (repeat " "%char a ++ s) = Some m.
Proof.
  intros Hs. revert prev. induction a as [| a IH]; intros prev Hm.
  - cbn [repeat app match_here]. destruct s as [| c s].
    + exact Hm.
    + unfold chr_eq. unfold no_space_ahead in Hs. rewrite Hs. exact Hm.
  - cbn [repeat app match_here]. unfold chr_eq at 1.
    change (Ascii.eqb " " " ")%char with true. cbv iota.
    specialize (IH (Some " "%char)). cbn [match_here] in IH. rewrite IH; [reflexivity |].
    by destruct a.
Qed.

Lemma chr_here (icase : bool) (c a : ascii) (re : regex) (prev : option ascii)
  (s : list ascii) :
  match_here icase (Chr c :: re) prev (a :: s)
  = if chr_eq icase c a then match_here icase re (Some a) s else None.
Proof. reflexivity. Qed.

Lemma separator_here (a b : nat) (prev : option ascii) (s : list ascii) :
  no_space_ahead s ->
  exists prev',
    match_here false re_comma prev (separator a b ++ s) = Some (Matched [] prev' s).
Proof.
  intros Hs. exists (if b is O then Some ","%char else Some " "%char).
  unfold re_comma, separator. rewrite <- app_assoc.
  apply star_spaces; [reflexivity |].
  cbn [app]. rewrite chr_here. unfold chr_eq. change (Ascii.eqb "," ",")%char with true.
  cbv iota. apply star_spaces; [exact Hs | reflexivity].
Qed.

Lemma separator_length (a b : nat) : length (separator a b) = (a + 1 + b)%nat.
Proof. unfold separator. rewrite length_app, repeat_length. simpl. rewrite repeat_length. lia. Qed.

Lemma separator_cons (a b : nat) : exists c s, separator a b = c :: s.
Proof. unfold separator. destruct a; simpl; eauto. Qed.

Lemma header_name_no_space (name s : list ascii) :
  header_name name -> no_space_ahead (name ++ s).
Proof.
  intros [Hne Hall]. destruct Hall as [| c name [Hc _] _]; [congruence | exact Hc].
Qed.

Lemma split_loop_separated (more : list (nat * nat * list ascii)) :
  Forall (fun item => header_name (snd item)) more ->
  forall first fuel prev piece,
    Forall name_char first ->
    (length (separated first more) <= fuel)%nat ->
    (piece ++ first <> [] \/ more = []) ->
    split_loop (fuel + 1) re_comma prev piece (separated first more)
    = (piece ++ first) :: (snd <$> more).
Proof.
  induction 1 as [| [[a b] name] more Hname Hmore IH];
    intros first fuel prev piece Hfirst Hfuel Hpiece.
  - unfold separated in *. cbn [flat_map] in *. rewrite app_nil_r in Hfuel.
    destruct (RegexFacts.split_loop_name first Hfirst fuel prev piece [] Hfuel)
      as (prev' & E).
    rewrite E. replace (fuel - length first + 1)%nat with (S (fuel - length first)) by lia.
    reflexivity.
  - unfold separated in *. cbn [flat_map fst snd] in *.
    set (tail := flat_map _ more) in *. clearbody tail.
    rewrite !length_app, separator_length in Hfuel.
    destruct (RegexFacts.split_loop_name first Hfirst fuel prev piece
                ((separator a b ++ name) ++ tail) ltac:(lia)) as (prev' & E).
    rewrite E. clear E.
    destruct (separator_here a b prev' (name ++ tail)) as (prev'' & Hm).
    { by apply header_name_no_space. }
    rewrite <- app_assoc.
    destruct (separator_cons a b) as (c & sep & Hsep).
    assert (Hlen : length (separator a b) = (a + 1 + b)%nat) by apply separator_length.
    rewrite Hsep in *. cbn [app length] in *.
    replace (fuel - length first + 1)%nat
      with (S ((fuel - length first - 1 - length name - length tail)
               + (length name + length tail) + 1))
      by lia.
    cbn [split_loop]. rewrite Hm. cbn [rest before].
    replace (bool_decide (piece ++ first = []) && _) with false.
    + cbn [fmap list_fmap snd]. f_equal.
      pose proof (IH name  ((fuel - length first - 1 - length name - length tail)
               + (length name + length tail))%nat prev'' []) as IH'.
      cbn [app] in IH'. apply IH'.
      * by destruct Hname.
      * rewrite length_app. lia.
      * left. by destruct Hname.
    + symmetry. apply andb_false_iff. right. apply Nat.eqb_neq.
      cbn [length]. rewrite !length_app. lia.
Qed.

Lemma split_separated (first : list ascii) (more : list (nat * nat * list ascii)) :
  header_name first ->
  Forall (fun item => header_name (snd item)) more ->
  split re_comma (string_of_list_ascii (separated first more))
  = string_of_list_ascii <$> first :: (snd <$> more).
Proof.
  intros [Hne Hfirst] Hmore. unfold split.
  destruct (string_of_list_ascii (separated first more)) eqn:E.
  - apply (f_equal list_ascii_of_string) in E.
    rewrite list_ascii_of_string_of_list_ascii in E. unfold separated in E.
    destruct first; [congruence | discriminate].
  - rewrite <- E, list_ascii_of_string_of_list_ascii. f_equal.
    rewrite (split_loop_separated more Hmore first); [reflexivity | exact Hfirst | lia |].
    left. exact Hne.
Qed.
End SplitFacts.

Section Vary.
Context `{Env} {B : Type}.

(** X19. A Vary header that lists header names separated by commas,
    each comma with any number of spaces before and after it, yields
    exactly these names. *)
Theorem vary_names_any_spacing (r : Response.t B) (first : list ascii)
  (more : list (nat * nat * list ascii)) :
  header_name first ->
  Forall (fun item => header_name (snd item)) more ->
  Response.get r "Vary" = Some (string_of_list_ascii (separated first more)) ->
  getVary r = string_of_list_ascii <$> first :: (snd <$> more).
Proof.
  intros Hfirst Hmore Hget. unfold getVary. rewrite Hget.
  replace (truthy _) with true; [by apply SplitFacts.split_separated |].
  unfold truthy. destruct (string_of_list_ascii _) eqn:E; [| reflexivity].
  apply (f_equal list_ascii_of_string) in E.
  rewrite list_ascii_of_string_of_list_ascii in E. unfold separated in E.
  destruct Hfirst as [Hne _]. destruct first; [congruence | discriminate].
Qed.
End Vary.

Section TtlBounds.
Context `{Env} {B : Type}.

Lemma le_add_min (a b : Q) (f : number) :
  f <> Num.NaN ->
  Num.le (Num.add (Num.Fin a) (Num.min (Num.Fin b) f)) (Num.add (Num.Fin a) (Num.Fin b)) = true.
Proof.
  intros Hf. destruct f as [q | | |]; [| | reflexivity | congruence].
  - unfold Num.min. destruct (Num.lt (Num.Fin q) (Num.Fin b)) eqn:E.
    + cbn [Num.add Num.le]. apply Qle_bool_iff. apply Qplus_le_r.
      cbn [Num.lt] in E. apply negb_true_iff in E.
      destruct (Qlt_le_dec q b) as [Hlt | Hge]; [by apply Qlt_le_weak |].
      apply Qle_bool_iff in Hge. congruence.
    + cbn [Num.add Num.le]. apply Qle_bool_iff. apply Qle_refl.
  - cbn. apply Qle_bool_iff. apply Qle_refl.
Qed.

(** X20. For a response whose freshness is a number, the TTL of the
    standard policy with finite bounds is at most [minTtl + maxTtl]; in
    particular the default TTL of the plugin is at most 365 days. *)
Theorem ttl_at_most_the_bounds (options : Options.t B) (a b : Q) req (r : Response.t B) :
  ttls.freshness r <> Num.NaN ->
  Num.le (ttls.standard (Num.Fin a) (Num.Fin b) req r) (Num.add (Num.Fin a) (Num.Fin b)) = true /\
  (Options.ttl options = None ->
   Num.le (plugin.ttl options req r) (Num.of_Z (1000 * 60 * 60 * 24 * 365)) = true).
Proof.
  intros Hf. split.
  - unfold ttls.standard. by apply le_add_min.
  - intros Hdefault. unfold plugin.ttl. rewrite Hdefault. cbn [default from_option id].
    unfold ttls.standard, Num.of_Z.
    pose proof (le_add_min (inject_Z 0) (inject_Z (1000 * 60 * 60 * 24 * 365)) _ Hf) as Hle.
    destruct (Num.add _ (Num.min _ _)) as [q | | |]; (exact Hle || discriminate).
Qed.
End TtlBounds.

Section Ids.
Context {B : Type}.

Lemma tilde_split (a a' x x' : string) :
  tilde_free a = true -> tilde_free a' = true ->
  (a +:+ "~" +:+ x = a' +:+ "~" +:+ x')%string ->
  a = a' /\ x = x'.
Proof.
  revert a'. induction a as [| c a IH]; intros [| c' a'] Ha Ha' E; simpl in *.
  - by injection E.
  - injection E as <- _. apply andb_true_iff in Ha' as [Hc _]. discriminate.
  - injection E as -> _. apply andb_true_iff in Ha as [Hc _]. discriminate.
  - injection E as <- E. apply andb_true_iff in Ha as [_ Ha].
    apply andb_true_iff in Ha' as [_ Ha'].
    destruct (IH a' Ha Ha' E) as [-> ->]. done.
Qed.

(** X21. The standard cache id determines the name of the
    serializer, the method and the url, as long as serializer names and
    methods contain no tilde: two requests share an id only if they have
    the same method and the same url. The headers play no part. *)
Theorem standard_ids_do_not_collide (s s' : Serializer B) (req req' : Request.t) :
  tilde_free (name s) = true -> tilde_free (name s') = true ->
  tilde_free (Request.method req) = true -> tilde_free (Request.method req') = true ->
  getIds.standard s req = getIds.standard s' req' ->
  name s = name s' /\ Request.method req = Request.method req' /\
  Request.url req = Request.url req'.
Proof.
  intros Hs Hs' Hm Hm' E. unfold getIds.standard in E.
  destruct (tilde_split _ _ _ _ Hs Hs' E) as [Hname E'].
  destruct (tilde_split _ _ _ _ Hm Hm' E') as [Hmethod Hurl]. done.
Qed.
End Ids.

(* ===================================================================== *)
(** * The stream serializer: buffer, failures and round trip *)
(* ===================================================================== *)

Section StreamBuffer.
Context `{Env} (L : Z).

Lemma on_data_retaining seen state chunk :
  retaining L seen state -> retaining L (seen ++ [chunk]) (stream.on_data L state chunk).
Proof.
  destruct state as [len strs]. unfold retaining, stream.on_data. cbn [fst snd].
  assert (Hone : total (seen ++ [chunk]) = total seen + Z.of_nat (length chunk)).
  { rewrite total_app. unfold total. simpl. by rewrite app_nil_r. }
  intros [(Hle & Hlen & ->) | (Hover & Hheld & Hpre)].
  - rewrite (proj2 (Z.ltb_ge L len)) by exact Hle.
    destruct (len + Z.of_nat (length chunk) <=? L) eqn:Hnew; cbn [fst snd].
    + apply Z.leb_le in Hnew. left. repeat split; [exact Hnew | lia].
    + apply Z.leb_gt in Hnew. right. repeat split; [exact Hnew | lia |].
      by apply prefix_app_r.
  - rewrite (proj2 (Z.ltb_lt L len)) by exact Hover. cbn [fst snd].
    right. repeat split; [exact Hover | exact Hheld |]. by apply prefix_app_r.
Qed.

Lemma fold_retaining chunks seen state :
  retaining L seen state ->
  retaining L (seen ++ chunks) (fold_left (stream.on_data L) chunks state).
Proof.
  revert seen state. induction chunks as [| chunk chunks IH]; intros seen state Hr.
  - by rewrite app_nil_r.
  - simpl. replace (seen ++ chunk :: chunks) with ((seen ++ [chunk]) ++ chunks)
      by (by rewrite <- app_assoc).
    apply IH. by apply on_data_retaining.
Qed.

(** X22. The bytes the stream serializer retains never exceed the
    cap: after any run of chunks, the chunks held are chunks that came
    first, and their total length is at most [maxBufferLength] (zero when
    the cap is negative). *)
Theorem stream_buffer_bounded (chunks : list (list byte)) :
  let held := snd (fold_left (stream.on_data L) chunks stream.start) in
  total held <= Z.max 0 L /\ held `prefix_of` chunks.
Proof.
  cbv zeta.
  assert (Hstart : retaining L [] stream.start).
  { unfold retaining, stream.start. cbn [fst snd].
    destruct (Z.le_gt_cases 0 L) as [Hle | Hgt].
    - left. repeat split. exact Hle.
    - right. repeat split; [exact Hgt | unfold total; simpl; lia | done]. }
  destruct (fold_retaining chunks [] stream.start Hstart) as [(Hle & Hlen & Hall) | (_ & Hheld & Hpre)].
  - cbn [app] in Hlen, Hall. rewrite Hall. split; [lia | done].
  - split; assumption.
Qed.

(** X23. A stream that breaks makes [shouldCache] resolve to the
    response, with the error handed to the error sink and nothing written;
    a body that is not a stream makes it reject with the TypeError of the
    serializer, and nothing is written either. *)
Theorem stream_failures_not_stored (options : Options.t StreamBody) id req res w :
  Options.serializer options = serializers.stream L ->
  plugin.cacheable options req res = true ->
  (forall r err,
      Response.body res = Stream r -> ending r = Breaks err ->
      plugin.shouldCache options id req res w = (inr res, log (Sunk err) w)) /\
  (Response.body res = NotAStream ->
   plugin.shouldCache options id req res w = (inl (stream.type_error), w)).
Proof.
  intros Hser Hc. split.
  - intros r err Hbody Hend. unfold plugin.shouldCache. rewrite Hc. cbn [negb].
    unfold plugin.serializer. rewrite Hser, Hbody.
    unfold serializers.stream. cbn [stringify]. unfold stream.stringify. rewrite Hend.
    unfold bind, plugin.setCache, stream.on_error. cbn [cb_err]. unfold catchCacheError.
    replace (Response.set_body res (Stream r)) with res; [reflexivity |].
    destruct res. cbn in Hbody. by rewrite Hbody.
  - intros Hbody. unfold plugin.shouldCache. rewrite Hc. cbn [negb].
    unfold plugin.serializer. rewrite Hser, Hbody. reflexivity.
Qed.

End StreamBuffer.

(* ===================================================================== *)
(** * The earlier revision of the orchestrator, on a fresh hit *)
(* ===================================================================== *)

Section EarlierRevision.
Context `{Env} {B : Type}.
Implicit Types (options : Options.t B) (req : Request.t) (next : Next B) (w : World).

End EarlierRevision.

(* ===================================================================== *)
(** * The file store *)
(* ===================================================================== *)

Module URIFacts.
Import URI.

Lemma hex_upper_plain (n : N) : (n < 16)%N -> unreserved (hex_upper n) = true.
Proof.
  intros Hn. 
  assert (Hcases : n ∈ (N.of_nat <$> seq 0 16)).
  { apply list_elem_of_fmap. exists (N.to_nat n). split; [lia |].
    apply elem_of_seq. lia. }
  cbn in Hcases. repeat (apply elem_of_cons in Hcases as [-> | Hcases]; [reflexivity |]).
  by apply not_elem_of_nil in Hcases.
Qed.

Lemma replace_percent_plain (octet : N) :
  (octet < 256)%N ->
  Forall (fun x => unreserved x = true)
         ((fun c => if Ascii.eqb c "%" then "_" else c)%char <$> percent octet).
Proof.
  intros Ho. unfold percent. cbn [fmap list_fmap].
  apply List.Forall_cons; [reflexivity |].
  assert (Hhi : unreserved (hex_upper (octet / 16)) = true).
  { apply hex_upper_plain. apply N.Div0.div_lt_upper_bound. lia. }
  assert (Hlo : unreserved (hex_upper (octet mod 16)) = true).
  { apply hex_upper_plain. apply N.mod_lt. lia. }
  assert (Hkeep : forall c, unreserved c = true -> unreserved (if Ascii.eqb c "%" then "_"%char else c) = true).
  { intros c Hc. by destruct (Ascii.eqb c "%"). }
  apply List.Forall_cons; [by apply Hkeep |].
  apply List.Forall_cons; [by apply Hkeep |]. apply List.Forall_nil.
Qed.

Lemma replace_encode_unit_plain (c : ascii) :
  Forall (fun x => unreserved x = true)
         ((fun c => if Ascii.eqb c "%" then "_" else c)%char <$> encode_unit c).
Proof.
  unfold encode_unit. destruct (unreserved c) eqn:E.
  - cbn [fmap list_fmap]. apply List.Forall_cons; [| apply List.Forall_nil].
    destruct (Ascii.eqb c "%") eqn:E'; [reflexivity | exact E].
  - assert (Hc : (Regex.code c < 256)%N) by apply N_ascii_bounded.
    unfold utf8. destruct (_ <? 128)%N eqn:Hlow.
    + cbn [flat_map]. rewrite app_nil_r. apply replace_percent_plain. lia.
    + cbn [flat_map]. rewrite app_nil_r, fmap_app. apply Forall_app. split.
      * apply replace_percent_plain.
        assert (Regex.code c / 64 < 4)%N by (apply N.Div0.div_lt_upper_bound; lia). lia.
      * apply replace_percent_plain.
        assert (Regex.code c mod 64 < 64)%N by (apply N.mod_lt; lia). lia.
Qed.

Lemma replace_chars (l : list ascii) :
  list_ascii_of_string (replace_percent (string_of_list_ascii l))
  = (fun c => if Ascii.eqb c "%" then "_" else c)%char <$> l.
Proof.
  unfold replace_percent.
  by rewrite !list_ascii_of_string_of_list_ascii.
Qed.

Lemma escapeKey_chars (key : string) :
  list_ascii_of_string (escapeKey key)
  = flat_map (fun c => (fun c => if Ascii.eqb c "%" then "_" else c)%char <$> encode_unit c)
             (list_ascii_of_string key).
Proof.
  unfold escapeKey, encodeURIComponent. rewrite replace_chars.
  induction (list_ascii_of_string key) as [| c l IH]; [reflexivity |].
  cbn [flat_map]. by rewrite fmap_app, IH.
Qed.

Lemma chars_append (a b : string) :
  list_ascii_of_string (a +:+ b) = list_ascii_of_string a ++ list_ascii_of_string b.
Proof. induction a as [| c a IH]; [reflexivity |]. simpl. by rewrite IH. Qed.

Lemma chars_inj (a b : string) :
  list_ascii_of_string a = list_ascii_of_string b -> a = b.
Proof.
  intros E. rewrite <- (string_of_list_ascii_of_string a), E.
  apply string_of_list_ascii_of_string.
Qed.

Lemma escapeKey_percent (a b : string) :
  escapeKey (a +:+ "%" +:+ b) = escapeKey (a +:+ "_25" +:+ b).
Proof.
  apply chars_inj. rewrite !escapeKey_chars, !chars_append, !flat_map_app. reflexivity.
Qed.

End URIFacts.

(** X26. An escaped key consists of letters, digits and the marks
    [-_.!~*'()] only, so it holds no path separator and no percent sign;
    and escaping is not injective: a key with a percent sign and the key
    with [_25] in its place have the same escaped key. *)
Theorem escaped_keys_are_plain_and_collide :
  (forall key, Forall (fun c => URI.unreserved c = true) (list_ascii_of_string (URI.escapeKey key))) /\
  (forall a b, URI.escapeKey (a +:+ "%" +:+ b) = URI.escapeKey (a +:+ "_25" +:+ b)).
Proof.
  split.
  - intros key. rewrite URIFacts.escapeKey_chars.
    induction (list_ascii_of_string key) as [| c l IH]; [constructor |].
    cbn [flat_map]. apply Forall_app. split; [apply URIFacts.replace_encode_unit_plain | exact IH].
  - apply URIFacts.escapeKey_percent.
Qed.

Section FileStore.
Context {V : Type} (join : string -> string -> string).
Implicit Types (s : Store.t V) (d : Store.Disk).



(** X29. Two different keys, one with a percent sign and one with
    [_25] in its place, share one file: what is set under the first is what
    a store started over the same directory gets under the second. *)
Theorem percent_keys_share_a_file s d a b value contents back :
  Store.mkdirp_fault d = None ->
  Store.writeFile_fault d = None ->
  Store.readFile_fault d = None ->
  Store.stringify s value = inr contents ->
  Store.parse s contents = inr back ->
  let key := (a +:+ "%" +:+ b)%string in
  let other := (a +:+ "_25" +:+ b)%string in
  key <> other /\
  fst (Store.get join (Store.restarted s)
                 (snd (Store.set join s d key value)) other)
  = Store.Value back.
Proof.
  intros Hmk Hwr Hrd Hs Hp. cbv zeta. split.
  - intros E. apply (f_equal list_ascii_of_string) in E.
    rewrite !URIFacts.chars_append in E. apply app_inv_head in E. discriminate.
  - unfold Store.set. rewrite Hmk, Hs, Hwr. cbn [snd].
    unfold Store.get, Store.restarted. cbn [Store.memoryCache Store.parse].
    rewrite lookup_empty. unfold Store.readFile. cbn [Store.readFile_fault Store.files].
    rewrite Hrd. unfold Store.getPath. cbn [Store.path].
    by rewrite <- (URIFacts.escapeKey_percent a b), lookup_insert_eq, Hp.
Qed.
End FileStore.

(* ===================================================================== *)
(** * The freshness check of the JavaScript revisions *)
(* ===================================================================== *)

Section LegacyFreshness.
Context `{Env}.

(** X30. In the JavaScript revision, for stored data without Expires, the
    max-age window is counted from the Date header: the data are fresh
    exactly while [now < Date + max-age * 1000], with a max-age of zero when
    Cache-Control gives none; and without a Date header the data are never
    fresh. *)
Theorem legacy_max_age_counts_from_date (headers : list (string * string)) (now : Z) :
  legacy.getProperty headers "expires" = None ->
  (forall d D,
      legacy.getProperty headers "date" = Some d -> Date_parse d = Some D ->
      legacy.isFresh headers now
      = (now <? D + default 0 (legacy.parseMaxAge
                                 (legacy.getProperty headers "cache-control")) * 1000)) /\
  (legacy.getProperty headers "date" = None -> legacy.isFresh headers now = false).
Proof.
  intros Hexp. split.
  - intros d D Hd HD. unfold legacy.isFresh, legacy.getMaxAge. rewrite Hexp, Hd.
    cbn [legacy.date_of]. unfold parse_date. rewrite HD.
    destruct (legacy.parseMaxAge _) as [age |]; cbn [default from_option id orb Num.lt];
      apply NumFacts.lt_stored_max_age.
  - intros Hd. unfold legacy.isFresh, legacy.getMaxAge. rewrite Hexp, Hd.
    cbn [legacy.date_of]. by destruct (Num.mul1000 _).
Qed.
End LegacyFreshness.

(* ===================================================================== *)
(** * More scenarios, run *)
(* ===================================================================== *)

Lemma fresh_hit_untouched_witness :
  plugin.handle (H := Node.env) default_options
                (get_request "http://example.com/cache-control") offline
                (cache_control_world 1299000)
  = (inr (Cached max_age_300), cache_control_world 1299000).
Proof.
  apply (fresh_hit_untouched (H := Node.env) default_options
           (get_request "http://example.com/cache-control") offline
           (cache_control_world 1299000) cache_control_entry (JSON.Str "success")).
  - repeat split; vm_compute; reflexivity.
  - reflexivity.
  - reflexivity.
Defined.

Lemma always_handler_serves_cache_witness :
  plugin.handle (H := Node.env) always_from_cache (get_request "http://example.com/etag")
                offline (etag_world 99000000)
  = (inr (Cached etag_cached), etag_world 99000000).
Proof.
  apply (always_handler_serves_cache (H := Node.env) always_from_cache
           (get_request "http://example.com/etag") offline (etag_world 99000000)
           etag_entry (JSON.Str "success")).
  - repeat split; vm_compute; reflexivity.
  - reflexivity.
Defined.

Lemma not_modified_not_stored_witness :
  plugin.handle (H := Node.env) default_options (get_request "http://example.com/etag")
                (answers not_modified) (etag_world 1001000)
  = (inr (Cached (CachedResponse.with_status etag_cached 304 "Not Modified")),
     log (Forwarded (handlers.conditional (H := Node.env)
                       (get_request "http://example.com/etag") etag_cached))
         (etag_world 1001000)).
Proof.
  apply (not_modified_not_stored (H := Node.env) default_options
           (get_request "http://example.com/etag") (answers not_modified)
           (etag_world 1001000) etag_entry (JSON.Str "success") not_modified).
  - repeat split; vm_compute; reflexivity.
  - reflexivity.
  - apply revalidate_iff. reflexivity.
  - reflexivity.
  - reflexivity.
Defined.

Lemma other_errors_rethrown_witness :
  fst (plugin.handle (H := Node.env) default_options (get_request "http://example.com/etag")
                     connection_reset (etag_world 1001000))
  = inl (mkError (Some "ECONNRESET") "socket hang up").
Proof.
  rewrite (other_errors_rethrown (H := Node.env) default_options
             (get_request "http://example.com/etag") connection_reset
             (etag_world 1001000) etag_entry (JSON.Str "success")
             (mkError (Some "ECONNRESET") "socket hang up")).
  - reflexivity.
  - repeat split; vm_compute; reflexivity.
  - reflexivity.
  - apply revalidate_iff. reflexivity.
  - reflexivity.
  - left. discriminate.
Defined.

Lemma server_error_without_fallback_witness :
  fst (plugin.handle (H := Node.env) without_fallback (get_request "http://example.com/etag")
                     (answers bad_gateway) (etag_world 1001000))
  = inr (Plain bad_gateway).
Proof.
  rewrite (server_error_without_fallback (H := Node.env) without_fallback
             (get_request "http://example.com/etag") (answers bad_gateway)
             (etag_world 1001000) etag_entry (JSON.Str "success") bad_gateway).
  - reflexivity.
  - repeat split; vm_compute; reflexivity.
  - reflexivity.
  - reflexivity.
  - reflexivity.
  - apply revalidate_iff. reflexivity.
  - reflexivity.
  - reflexivity.
Defined.

Lemma lookup_failure_rejects_witness :
  plugin.handle (H := Node.env) default_options (get_request "http://example.com/etag")
                (answers not_modified) corrupt_world
  = (inl JSON.syntax_error, corrupt_world).
Proof.
  apply (lookup_failure_rejects (H := Node.env) default_options
           (get_request "http://example.com/etag") (answers not_modified) corrupt_world).
  right. split; [reflexivity |]. exists corrupt_entry. split; vm_compute; reflexivity.
Defined.

Lemma write_failure_sunk_witness :
  fst (plugin.shouldCache (H := Node.env) default_options "json~GET~http://example.com/a"
         (get_request "http://example.com/a")
         (success_response "http://example.com/a" []) (failing_writes 1000000))
  = inr (success_response "http://example.com/a" []) /\
  writes (trace (snd (plugin.shouldCache (H := Node.env) default_options
                        "json~GET~http://example.com/a" (get_request "http://example.com/a")
                        (success_response "http://example.com/a" [])
                        (failing_writes 1000000))))
  = [StoreSet "json~GET~http://example.com/a"
              (plugin.make_item (H := Node.env) (JSON.stringify (JSON.Str "success"))
                                (success_response "http://example.com/a" []))
              (Num.add (Num.of_Z 0) (Num.min one_year Num.zero))].
Proof.
  rewrite (write_failure_sunk (H := Node.env) default_options "json~GET~http://example.com/a"
             (get_request "http://example.com/a")
             (success_response "http://example.com/a" []) (failing_writes 1000000)
             disconnected (JSON.Str "success") (JSON.stringify (JSON.Str "success")));
    try reflexivity.
  split; reflexivity.
Defined.




Lemma expires_window_witness :
  FRESH_HIT (H := Node.env) (get_request "http://example.com/headers")
            (entry_with ["Date"; "Tue, 03 Nov 2026 00:00:00 GMT";
                         "Expires"; "Tue, 03 Nov 2026 00:05:00 GMT"])
            offline (world_at 1299999 []) /\
  REVALIDATE (H := Node.env) (get_request "http://example.com/headers")
             (entry_with ["Date"; "Tue, 03 Nov 2026 00:00:00 GMT";
                          "Expires"; "Tue, 03 Nov 2026 00:05:00 GMT"])
             offline (world_at 1300000 []).
Proof.
  split.
  - apply (expires_window (H := Node.env) (get_request "http://example.com/headers")
             (entry_with ["Date"; "Tue, 03 Nov 2026 00:00:00 GMT";
                          "Expires"; "Tue, 03 Nov 2026 00:05:00 GMT"])
             offline (world_at 1299999 [])
             "Tue, 03 Nov 2026 00:05:00 GMT" "Tue, 03 Nov 2026 00:00:00 GMT"
             1793664300000 1793664000000);
      (reflexivity || discriminate).
  - apply (expires_window (H := Node.env) (get_request "http://example.com/headers")
             (entry_with ["Date"; "Tue, 03 Nov 2026 00:00:00 GMT";
                          "Expires"; "Tue, 03 Nov 2026 00:05:00 GMT"])
             offline (world_at 1300000 [])
             "Tue, 03 Nov 2026 00:05:00 GMT" "Tue, 03 Nov 2026 00:00:00 GMT"
             1793664300000 1793664000000);
      (reflexivity || discriminate).
Defined.

Lemma last_modified_window_witness :
  FRESH_HIT (H := Node.env) (get_request "http://example.com/headers")
            (entry_with ["Date"; "Tue, 03 Nov 2026 00:00:00 GMT";
                         "Last-Modified"; "Mon, 02 Nov 2026 00:00:00 GMT"])
            offline (world_at (1000000 + 8639999) []) /\
  REVALIDATE (H := Node.env) (get_request "http://example.com/headers")
             (entry_with ["Date"; "Tue, 03 Nov 2026 00:00:00 GMT";
                          "Last-Modified"; "Mon, 02 Nov 2026 00:00:00 GMT"])
             offline (world_at (1000000 + 8640000) []).
Proof.
  split.
  - apply (last_modified_window (H := Node.env) (get_request "http://example.com/headers")
             (entry_with ["Date"; "Tue, 03 Nov 2026 00:00:00 GMT";
                          "Last-Modified"; "Mon, 02 Nov 2026 00:00:00 GMT"])
             offline (world_at (1000000 + 8639999) [])
             "Mon, 02 Nov 2026 00:00:00 GMT" "Tue, 03 Nov 2026 00:00:00 GMT"
             1793577600000 1793664000000);
      (reflexivity || discriminate).
  - apply (last_modified_window (H := Node.env) (get_request "http://example.com/headers")
             (entry_with ["Date"; "Tue, 03 Nov 2026 00:00:00 GMT";
                          "Last-Modified"; "Mon, 02 Nov 2026 00:00:00 GMT"])
             offline (world_at (1000000 + 8640000) [])
             "Mon, 02 Nov 2026 00:00:00 GMT" "Tue, 03 Nov 2026 00:00:00 GMT"
             1793577600000 1793664000000);
      (reflexivity || discriminate).
Defined.

Lemma unparsable_date_revalidates_witness :
  REVALIDATE (H := Node.env) (get_request "http://example.com/headers")
             (entry_with ["Date"; "Tue, 03 Nov 2026 00:00:00 GMT"; "Expires"; "never"])
             offline (world_at 1000000 []).
Proof.
  apply (unparsable_date_revalidates (H := Node.env) (get_request "http://example.com/headers")
           (entry_with ["Date"; "Tue, 03 Nov 2026 00:00:00 GMT"; "Expires"; "never"])
           offline (world_at 1000000 []) "Tue, 03 Nov 2026 00:00:00 GMT");
    [reflexivity | reflexivity | discriminate |].
  left. exists "never"%string. split; [reflexivity | split; [discriminate | left; reflexivity]].
Defined.

Lemma no_freshness_information_never_revalidated_witness :
  FRESH_HIT (H := Node.env) (get_request "http://example.com/headers")
            (entry_with ["ETag"; "123abc"]) offline
            (world_at (1000000 + 1000 * 60 * 60 * 24 * 365 * 10) []).
Proof.
  apply (no_freshness_information_never_revalidated (H := Node.env)
           (get_request "http://example.com/headers") (entry_with ["ETag"; "123abc"])
           offline (world_at (1000000 + 1000 * 60 * 60 * 24 * 365 * 10) []));
    [reflexivity | left; reflexivity | reflexivity].
Defined.

Lemma directives_force_revalidation_witness :
  REVALIDATE (H := Node.env) (get_request "http://example.com/headers")
             (entry_with ["Cache-Control"; "max-age=300, must-revalidate"])
             offline (world_at 1001000 []).
Proof.
  apply (directives_force_revalidation (H := Node.env)
           (get_request "http://example.com/headers")
           (entry_with ["Cache-Control"; "max-age=300, must-revalidate"])
           offline (world_at 1001000 []) "max-age=300, must-revalidate");
    [reflexivity |].
  right. split; [vm_compute; reflexivity |]. left. vm_compute. eauto.
Defined.

Lemma immutable_overrides_no_cache_witness :
  FRESH_HIT (H := Node.env) (get_request "http://example.com/headers")
            (entry_with ["Cache-Control"; "no-cache, immutable, max-age=300"])
            offline (world_at 1299999 []).
Proof.
  apply (immutable_overrides_no_cache (H := Node.env)
           (get_request "http://example.com/headers")
           (entry_with ["Cache-Control"; "no-cache, immutable, max-age=300"])
           offline (world_at 1299999 []) "no-cache, immutable, max-age=300"
           (list_ascii_of_string "300"));
    try (vm_compute; reflexivity).
Defined.

Lemma cache_control_case_insensitive_witness :
  getCacheControl (H := Node.env)
    (success_response "http://example.com/a" ["Cache-Control"; "MAX-AGE=300, No-Cache"])
  = getCacheControl (H := Node.env)
      (success_response "http://example.com/a" ["cache-control"; "max-age=300, no-cache"]).
Proof.
  apply (cache_control_case_insensitive (H := Node.env)
           (success_response "http://example.com/a" ["Cache-Control"; "MAX-AGE=300, No-Cache"])
           (success_response "http://example.com/a" ["cache-control"; "max-age=300, no-cache"])
           "MAX-AGE=300, No-Cache" "max-age=300, no-cache");
    reflexivity.
Defined.


Lemma vary_names_any_spacing_witness :
  getVary (H := Node.env)
    (success_response "http://example.com/a"
                      ["Vary"; "Accept-Encoding ,Content-Type,  Accept"])
  = ["Accept-Encoding"; "Content-Type"; "Accept"]%string.
Proof.
  apply (vary_names_any_spacing (H := Node.env)
           (success_response "http://example.com/a"
                             ["Vary"; "Accept-Encoding ,Content-Type,  Accept"])
           (list_ascii_of_string "Accept-Encoding")
           [(1%nat, 0%nat, list_ascii_of_string "Content-Type");
            (0%nat, 2%nat, list_ascii_of_string "Accept")]).
  - split; [discriminate |]. repeat (apply List.Forall_cons; [split; reflexivity |]).
    apply List.Forall_nil.
  - repeat (apply List.Forall_cons;
            [split; [discriminate |];
             repeat (apply List.Forall_cons; [split; reflexivity |]); apply List.Forall_nil |]).
    apply List.Forall_nil.
  - reflexivity.
Defined.

Lemma ttl_at_most_the_bounds_witness :
  Num.le (plugin.ttl (H := Node.env) default_options
                     (get_request "http://example.com/cache-control")
                     (CachedResponse.response max_age_300))
         (Num.of_Z (1000 * 60 * 60 * 24 * 365)) = true.
Proof.
  apply (ttl_at_most_the_bounds (H := Node.env) default_options 0%Q 0%Q
           (get_request "http://example.com/cache-control")
           (CachedResponse.response max_age_300));
    [vm_compute; discriminate | reflexivity].
Defined.

Lemma standard_ids_do_not_collide_witness :
  name serializers.standard = name serializers.standard /\
  Request.method gzip_request = Request.method (get_request "http://example.com/vary") /\
  Request.url gzip_request = Request.url (get_request "http://example.com/vary").
Proof.
  apply (standard_ids_do_not_collide serializers.standard serializers.standard
           gzip_request (get_request "http://example.com/vary"));
    reflexivity.
Defined.

Lemma stream_failures_not_stored_witness :
  plugin.shouldCache (H := Node.env) stream_options "stream~GET~http://example.com/stream"
                     (get_request "http://example.com/stream")
                     (Response.mk "http://example.com/stream" (Stream broken_stream) [] 200 "OK")
                     (world_at 1000000 [])
  = (inr (Response.mk "http://example.com/stream" (Stream broken_stream) [] 200 "OK"),
     log (Sunk (mkError (Some "ECONNRESET") "aborted")) (world_at 1000000 [])) /\
  plugin.shouldCache (H := Node.env) stream_options "stream~GET~http://example.com/stream"
                     (get_request "http://example.com/stream")
                     (Response.mk "http://example.com/stream" NotAStream [] 200 "OK")
                     (world_at 1000000 [])
  = (inl stream.type_error, world_at 1000000 []).
Proof.
  split.
  - destruct (stream_failures_not_stored (H := Node.env) 10 stream_options
                "stream~GET~http://example.com/stream"
                (get_request "http://example.com/stream")
                (Response.mk "http://example.com/stream" (Stream broken_stream) [] 200 "OK")
                (world_at 1000000 [])) as [Hbroken _]; [reflexivity | reflexivity |].
    apply (Hbroken broken_stream); reflexivity.
  - destruct (stream_failures_not_stored (H := Node.env) 10 stream_options
                "stream~GET~http://example.com/stream"
                (get_request "http://example.com/stream")
                (Response.mk "http://example.com/stream" NotAStream [] 200 "OK")
                (world_at 1000000 [])) as [_ Htype]; [reflexivity | reflexivity |].
    apply Htype. reflexivity.
Defined.





Lemma percent_keys_share_a_file_witness :
  fst (Store.get join_name (Store.restarted tmp_store)
         (snd (Store.set join_name tmp_store empty_disk "http://example.com/100%" sample_body))
         "http://example.com/100_25")
  = Store.Value sample_body.
Proof.
  apply (percent_keys_share_a_file join_name tmp_store empty_disk
           "http://example.com/100" "" sample_body (JSON.stringify sample_body) sample_body);
    reflexivity.
Defined.

Lemma legacy_max_age_counts_from_date_witness :
  legacy.isFresh (H := Node.env) dated_headers 1793664299999 = true /\
  legacy.isFresh (H := Node.env) dated_headers 1793664300000 = false.
Proof.
  destruct (legacy_max_age_counts_from_date (H := Node.env) dated_headers 1793664299999
              eq_refl) as [Hbefore _].
  destruct (legacy_max_age_counts_from_date (H := Node.env) dated_headers 1793664300000
              eq_refl) as [Hafter _].
  rewrite (Hbefore "Tue, 03 Nov 2026 00:00:00 GMT"%string 1793664000000 eq_refl eq_refl).
  rewrite (Hafter "Tue, 03 Nov 2026 00:00:00 GMT"%string 1793664000000 eq_refl eq_refl).
  split; vm_compute; reflexivity.
Defined.
